(** * iden3js key container: a shallow embedding of
      [src/key-container/local-storage-container.js] and [src/db.js]

    The JavaScript classes [LocalStorageContainer] and [Db] are embedded as
    state-passing functions over a [World] that holds the browser
    [localStorage], the container's fields ([encryptionKey], [timer]), the
    pending [setTimeout] callbacks, a clock and an entropy counter.
    Exceptions are explicit: a computation returns [Ret v] or [Throw e]
    together with the world reached at that point (writes made before a throw
    stay). *)

From Stdlib Require Import String Ascii List ZArith Lia Bool Arith DecimalString.
From Stdlib Require Import Strings.Byte.
Import ListNotations.
Local Open Scope string_scope.
Local Open Scope Z_scope.

Set Implicit Arguments.
Set Warnings "-register-all".

(* ================================================================== *)
(** ** JavaScript strings *)
(* ================================================================== *)

Module JsString.

(** [s.indexOf(sub) !== -1] *)
Definition contains (s sub : string) : bool :=
  match String.index 0 sub s with Some _ => true | None => false end.

(** [s.startsWith(p)] *)
Definition startsWith (s p : string) : bool := String.prefix p s.

(** the part of [s] after its first [n] characters *)
Definition drop (n : nat) (s : string) : string :=
  String.substring n (String.length s - n) s.

(** [s.replace(pat, rep)] with a string pattern: first occurrence only *)
Definition replace (s pat rep : string) : string :=
  match String.index 0 pat s with
  | Some i => String.substring 0 i s ++ rep ++ drop (i + String.length pat) s
  | None => s
  end.

(** [Array.prototype.toString], which is [join(',')] *)
Definition array_toString (l : list string) : string := String.concat "," l.

(** [String(n)] for an integer of magnitude below 2^53 *)
Definition of_N (n : N) : string := NilZero.string_of_uint (N.to_uint n).
Definition of_Z (z : Z) : string :=
  if z <? 0 then "-" ++ of_N (Z.to_N (- z)) else of_N (Z.to_N z).

(** the characters of a string, each as a one-character string *)
Fixpoint chars (s : string) : list string :=
  match s with
  | EmptyString => []
  | String c r => String c EmptyString :: chars r
  end.

(** truthiness of a string: every string but the empty one *)
Definition truthy (s : string) : bool :=
  match s with EmptyString => false | String _ _ => true end.

End JsString.

(* ================================================================== *)
(** ** Node [Buffer]: 32-bit big-endian reads and writes *)
(* ================================================================== *)

Module Buffer.

Definition t := list byte.

Definition byte_of_Z (z : Z) : byte :=
  match Byte.of_N (Z.to_N (Z.land z 255)) with
  | Some b => b
  | None => x00
  end.

Definition Z_of_byte (b : byte) : Z := Z.of_N (Byte.to_N b).

Definition UINT32_MAX : Z := 4294967295.

(** the four bytes [buf.writeUInt32BE(value)] leaves in a fresh
    [Buffer.alloc(4)]; [None] is the RangeError of an out-of-range value *)
Definition be32 (value : Z) : t :=
  [ byte_of_Z (Z.shiftr value 24); byte_of_Z (Z.shiftr value 16);
    byte_of_Z (Z.shiftr value 8); byte_of_Z value ].

Definition writeUInt32BE (value : Z) : option t :=
  if (0 <=? value) && (value <=? UINT32_MAX) then Some (be32 value) else None.

(** [buf.readUInt32BE()] at offset 0; [None] is the RangeError of a buffer
    shorter than four bytes *)
Definition readUInt32BE (buf : t) : option Z :=
  match buf with
  | b0 :: b1 :: b2 :: b3 :: _ =>
      Some (Z_of_byte b0 * 2 ^ 24 + Z_of_byte b1 * 2 ^ 16
            + Z_of_byte b2 * 2 ^ 8 + Z_of_byte b3)
  | _ => None
  end.

End Buffer.

(* ================================================================== *)
(** ** JSON values and plain objects *)
(* ================================================================== *)

(** What [JSON.parse] can return.  A number is kept as its [String(n)]
    rendering.  An object is its own enumerable properties, in enumeration
    order. *)
Inductive json :=
| JNull
| JBool (b : bool)
| JNum (repr : string)
| JStr (s : string)
| JArr (items : list json)
| JObj (fields : list (string * json)).

Module Js.

(** [String(v)] for a parsed JSON value, as [localStorage.setItem] coerces
    its value argument *)
Fixpoint toString (j : json) : string :=
  match j with
  | JNull => "null"
  | JBool true => "true"
  | JBool false => "false"
  | JNum r => r
  | JStr s => s
  | JArr l =>
      String.concat ","
        (map (fun x => match x with JNull => EmptyString | _ => toString x end) l)
  | JObj _ => "[object Object]"
  end.

Fixpoint indexed {A} (i : N) (l : list A) : list (string * A) :=
  match l with
  | [] => []
  | x :: r => (JsString.of_N i, x) :: indexed (N.succ i) r
  end.

(** the pairs visited by [for (var p in v) if (v.hasOwnProperty(p))],
    each value coerced with [String]: nothing for null, booleans and
    numbers, the indices for strings and arrays, the properties for
    objects *)
Definition ownEntries (j : json) : list (string * string) :=
  match j with
  | JNull | JBool _ | JNum _ => []
  | JStr s => indexed 0 (JsString.chars s)
  | JArr l => indexed 0 (map toString l)
  | JObj fields => map (fun kv => (fst kv, toString (snd kv))) fields
  end.

(** property read [o[name]] on an object's property list: the last
    definition of a name wins *)
Fixpoint prop (name : string) (fields : list (string * json)) : option json :=
  match fields with
  | [] => None
  | (k, v) :: r =>
      match prop name r with
      | Some v' => Some v'
      | None => if String.eqb k name then Some v else None
      end
  end.

(** [o[k] = v] on a plain object, for [v] a string or null: an existing
    property is overwritten in place, a new one is appended; the name
    [__proto__] is the prototype accessor, for which such an assignment
    creates no property *)
Fixpoint assign {A} (k : string) (v : A) (o : list (string * A)) : list (string * A) :=
  match o with
  | [] => [(k, v)]
  | (k', v') :: r => if String.eqb k' k then (k, v) :: r else (k', v') :: assign k v r
  end.

Definition set {A} (k : string) (v : A) (o : list (string * A)) : list (string * A) :=
  if String.eqb k "__proto__" then o else assign k v o.

(** whether [v.hasOwnProperty] is an own property of [v], which a parsed
    value never has as a function: the call [v.hasOwnProperty(p)] is then a
    TypeError *)
Definition shadows_hasOwnProperty (j : json) : bool :=
  match j with
  | JObj fields =>
      match prop "hasOwnProperty" fields with Some _ => true | None => false end
  | _ => false
  end.

(** the property list of an object whose values are all strings *)
Definition strings (o : list (string * string)) : list (string * json) :=
  map (fun kv => (fst kv, JStr (snd kv))) o.

(** the value [localStorage.getItem] hands back: a string or null *)
Definition of_item (v : option string) : json :=
  match v with Some s => JStr s | None => JNull end.

(** a property that holds a string, [None] for anything else *)
Definition string_prop (name : string) (fields : list (string * json)) : option string :=
  match prop name fields with Some (JStr s) => Some s | _ => None end.

End Js.

(* ================================================================== *)
(** ** The browser [localStorage] *)
(* ================================================================== *)

Module Storage.

(** entries in [key(i)] order *)
Definition t := list (string * string).

Fixpoint getItem (k : string) (m : t) : option string :=
  match m with
  | [] => None
  | (k', v) :: r => if String.eqb k' k then Some v else getItem k r
  end.

Fixpoint setItem (k v : string) (m : t) : t :=
  match m with
  | [] => [(k, v)]
  | (k', v') :: r => if String.eqb k' k then (k, v) :: r else (k', v') :: setItem k v r
  end.

Definition removeItem (k : string) (m : t) : t :=
  filter (fun kv => negb (String.eqb (fst kv) k)) m.

Definition keys (m : t) : list string := map fst m.

(** bytes in use, for quota policies *)
Definition size (m : t) : nat :=
  fold_right (fun kv n => (String.length (fst kv) + String.length (snd kv) + n)%nat) 0%nat m.

End Storage.

(* ================================================================== *)
(** ** Outcomes, the world and the computation monad *)
(* ================================================================== *)

(** The exceptions the embedded code can raise. *)
Inductive error :=
| DecryptionFailure   (* kcUtils.decrypt on a wrong key or a corrupt input *)
| SyntaxError         (* JSON.parse *)
| TypeError           (* property access or destructuring of undefined/null *)
| RangeError          (* Buffer reads and writes out of range *)
| PersistenceFailure  (* localStorage.setItem refused by the backend *)
| PrimitiveError.     (* an external cryptographic primitive rejected its input *)

Inductive outcome (A : Type) :=
| Ret (a : A)
| Throw (e : error).
Arguments Ret {A} a.
Arguments Throw {A} e.

(** Accesses to [localStorage], in program order. *)
Inductive event :=
| LsGet (k : string)
| LsSet (k v : string)
| LsRemove (k : string)
| LsClear
| LsKeys.

Definition is_write (e : event) : bool :=
  match e with
  | LsSet _ _ | LsRemove _ | LsClear => true
  | LsGet _ | LsKeys => false
  end.

Record World := mkWorld {
  localStorage : Storage.t;
  (** whether the backend takes [setItem(k, v)] in the given state (a quota,
      say); a refused write throws *)
  accepts : Storage.t -> string -> string -> bool;
  (** [this.encryptionKey]; the empty string is the Locked state *)
  encryptionKey : string;
  (** [this.timer]: the handle of the last [setTimeout], [None] for the
      constructor's [{}] *)
  timer : option nat;
  (** pending [setTimeout] callbacks as (handle, deadline in ms); every
      callback of this program is [self.encryptionKey = ''] *)
  timeouts : list (nat * N);
  nextHandle : nat;
  clock : N;
  (** how many random draws were made so far *)
  entropy : nat;
  trace : list event
}.

Definition with_storage (m : Storage.t) (w : World) : World :=
  mkWorld m (accepts w) (encryptionKey w) (timer w) (timeouts w) (nextHandle w)
          (clock w) (entropy w) (trace w).

Definition with_accepts (acc : Storage.t -> string -> string -> bool) (w : World) : World :=
  mkWorld (localStorage w) acc (encryptionKey w) (timer w) (timeouts w) (nextHandle w)
          (clock w) (entropy w) (trace w).

Definition with_key (k : string) (w : World) : World :=
  mkWorld (localStorage w) (accepts w) k (timer w) (timeouts w) (nextHandle w)
          (clock w) (entropy w) (trace w).

Definition with_timers (h : option nat) (ts : list (nat * N)) (n : nat) (w : World) : World :=
  mkWorld (localStorage w) (accepts w) (encryptionKey w) h ts n
          (clock w) (entropy w) (trace w).

Definition with_clock (t : N) (w : World) : World :=
  mkWorld (localStorage w) (accepts w) (encryptionKey w) (timer w) (timeouts w)
          (nextHandle w) t (entropy w) (trace w).

Definition with_entropy (n : nat) (w : World) : World :=
  mkWorld (localStorage w) (accepts w) (encryptionKey w) (timer w) (timeouts w)
          (nextHandle w) (clock w) n (trace w).

Definition log (e : event) (w : World) : World :=
  mkWorld (localStorage w) (accepts w) (encryptionKey w) (timer w) (timeouts w)
          (nextHandle w) (clock w) (entropy w) (trace w ++ [e]).

(** A freshly constructed container over the given storage. *)
Definition new_world (m : Storage.t) (acc : Storage.t -> string -> string -> bool) : World :=
  mkWorld m acc EmptyString None [] 0%nat 0%N 0%nat [].

Definition M (A : Type) : Type := World -> outcome A * World.

Definition ret {A} (a : A) : M A := fun w => (Ret a, w).
Definition throw {A} (e : error) : M A := fun w => (Throw e, w).
Definition bind {A B} (c : M A) (k : A -> M B) : M B :=
  fun w => match c w with
           | (Ret a, w') => k a w'
           | (Throw e, w') => (Throw e, w')
           end.
(** [try { c } catch (err) { h }] *)
Definition try_catch {A} (c : M A) (h : M A) : M A :=
  fun w => match c w with
           | (Ret a, w') => (Ret a, w')
           | (Throw _, w') => h w'
           end.
Definition lift {A} (o : outcome A) : M A := fun w => (o, w).
Definition lift_opt {A} (e : error) (o : option A) : M A :=
  fun w => (match o with Some a => Ret a | None => Throw e end, w).
Definition get_world : M World := fun w => (Ret w, w).

Declare Scope js_scope.
Delimit Scope js_scope with js.
Notation "x <- c ;; k" := (bind c (fun x => k))
  (at level 61, c at next level, right associativity) : js_scope.
Notation "c ;;; k" := (bind c (fun _ => k))
  (at level 61, right associativity) : js_scope.
Local Open Scope js_scope.

(** Values the container's methods return. *)
Record SignatureEnvelope := mkEnvelope {
  message : Buffer.t;
  messageHash : Buffer.t;
  sig_v : Z;
  sig_r : Buffer.t;
  sig_s : Buffer.t
}.

Inductive value :=
| VUndefined
| VBool (b : bool)
| VString (s : string)
| VArray (l : list string)
| VKeySeed (keySeed : string) (pathKey : Z)
| VSignature (e : SignatureEnvelope).

(* ================================================================== *)
(** ** Constants and external primitives *)
(* ================================================================== *)

(** The prefixes of [src/constants.js], taken as parameters. *)
Class Constants := {
  KCPREFIX : string;
  DBPREFIX : string;
  IDRECOVERYPREFIX : string
}.

(** The libraries the container calls ([kc-utils], [utils], [bip39],
    [hdkey], [ethereumjs-util], [ethereumjs-wallet], [JSON]).  A random
    primitive takes the index of its draw. *)
Class Primitives := {
  passToKey : string -> string -> string;
  (** kcUtils.encrypt(key, msg), with the draw of its nonce *)
  encrypt : string -> nat -> string -> string;
  (** the plaintext of a ciphertext under a key, [None] when it does not
      open *)
  decrypt : string -> string -> option string;
  bytesToHex : Buffer.t -> string;
  hexToBytes : string -> Buffer.t;
  generateMnemonic : nat -> string;
  validateMnemonic : string -> bool;
  entropyToMnemonic : Buffer.t -> string;
  hdnode : Type;
  (** hdkey.fromMasterSeed, whose argument may be [undefined] *)
  fromMasterSeed : option string -> outcome hdnode;
  derive : hdnode -> string -> outcome hdnode;
  _privateKey : hdnode -> Buffer.t;
  _publicKey : hdnode -> Buffer.t;
  privateToAddress : Buffer.t -> outcome Buffer.t;
  (** the private key of ethWallet.generate() *)
  walletGenerate : nat -> Buffer.t;
  toBuffer : string -> Buffer.t;
  hashPersonalMessage : Buffer.t -> Buffer.t;
  ecsign : Buffer.t -> Buffer.t -> outcome (Z * Buffer.t * Buffer.t);
  JSON_stringify : json -> string;
  (** [None] is the SyntaxError of a text that is not JSON *)
  JSON_parse : string -> option json
}.

(* ================================================================== *)
(** ** [localStorage] calls and [kc-utils] wrappers *)
(* ================================================================== *)

Definition isUnlocked (w : World) : bool := JsString.truthy (encryptionKey w).

Definition ls_getItem (k : string) : M (option string) :=
  fun w => (Ret (Storage.getItem k (localStorage w)), log (LsGet k) w).

Definition ls_setItem (k v : string) : M unit :=
  fun w =>
    let w1 := log (LsSet k v) w in
    if accepts w (localStorage w) k v
    then (Ret tt, with_storage (Storage.setItem k v (localStorage w)) w1)
    else (Throw PersistenceFailure, w1).

Definition ls_removeItem (k : string) : M unit :=
  fun w => (Ret tt, with_storage (Storage.removeItem k (localStorage w)) (log (LsRemove k) w)).

Definition ls_clear : M unit :=
  fun w => (Ret tt, with_storage [] (log LsClear w)).

(** the keys [localStorage.key(0)], ..., [localStorage.key(length - 1)] *)
Definition ls_keys : M (list string) :=
  fun w => (Ret (Storage.keys (localStorage w)), log LsKeys w).

Section KcUtils.
Context {P : Primitives}.

(** kcUtils.encrypt under the container's current key, with a fresh nonce *)
Definition kc_encrypt (key msg : string) : M string :=
  fun w => (Ret (encrypt key (entropy w) msg), with_entropy (S (entropy w)) w).

(** Modelled from the spec: kcUtils.decrypt ([src/key-container/kc-utils.js]
    is missing): "fails with DecryptionFailure on wrong key/corrupt input".
    The ciphertext argument is whatever the caller read: a string, or a
    value that is not one ([None]: null, undefined).  The spec speaks of
    ciphertexts only; of null or undefined the library cannot read the
    characters, which is a TypeError as for any property read on them. *)
Definition kc_decrypt (key : string) (c : option string) : M string :=
  match c with
  | Some c => lift_opt DecryptionFailure (decrypt key c)
  | None => throw TypeError
  end.

(** a default parameter [mnemonic = bip39.generateMnemonic()] *)
Definition mnemonic_or_random (mnemonic : option string) : M string :=
  match mnemonic with
  | Some m => ret m
  | None => fun w => (Ret (generateMnemonic (entropy w)), with_entropy (S (entropy w)) w)
  end.

Definition random_wallet : M Buffer.t :=
  fun w => (Ret (walletGenerate (entropy w)), with_entropy (S (entropy w)) w).

End KcUtils.

(* ================================================================== *)
(** ** [src/db.js]: class [Db] *)
(* ================================================================== *)

Module Db.
Section Db.
Context {C : Constants} {P : Primitives}.

Definition insert (key value : string) : M unit :=
  ls_setItem (DBPREFIX ++ key) value.

Definition get (key : string) : M (option string) :=
  ls_getItem (DBPREFIX ++ key).

Definition delete (key : string) : M unit :=
  ls_removeItem (DBPREFIX ++ key).

Definition deleteAll : M unit := ls_clear.

(** Modelled from the spec: [listKeys(prefix)], which the container calls
    and [src/db.js] does not define: "prefix-based key listing" over the
    store's namespace, "namespaced by a fixed store-specific prefix added
    transparently".  The keys are returned as [get] takes them, without
    the store's prefix. *)
Definition listKeys (prefix : string) : M (list string) :=
  keys <- ls_keys ;;
  ret (map (JsString.drop (String.length DBPREFIX))
           (filter (fun k => JsString.startsWith k (DBPREFIX ++ prefix)) keys)).

(** the loop of [export]: every key that contains the prefix is copied
    into [dbExp] *)
Fixpoint export_loop (keys : list string) (dbExp : list (string * json))
  : M (list (string * json)) :=
  match keys with
  | [] => ret dbExp
  | k :: rest =>
      if JsString.contains k DBPREFIX
      then v <- ls_getItem k ;; export_loop rest (Js.set k (Js.of_item v) dbExp)
      else export_loop rest dbExp
  end.

(** [export(kc, idAddr, ksign)]; [None] is [undefined] *)
Definition export (idAddr ksign : string) : M (option string) :=
  w <- get_world ;;
  if negb (JsString.truthy (encryptionKey w)) then ret None
  else
    keys <- ls_keys ;;
    dbExp <- export_loop keys [] ;;
    let dbExpStr := JSON_stringify (JObj dbExp) in
    dbEncr <- kc_encrypt (encryptionKey w) dbExpStr ;;
    ret (Some dbEncr).

Fixpoint import_loop (entries : list (string * string)) : M unit :=
  match entries with
  | [] => ret tt
  | (property, v) :: rest => ls_setItem property v ;;; import_loop rest
  end.

(** [import(kc, dbEncr)] *)
Definition import (dbEncr : string) : M unit :=
  w <- get_world ;;
  dbExpStr <- kc_decrypt (encryptionKey w) (Some dbEncr) ;;
  dbExp <- lift_opt SyntaxError (JSON_parse dbExpStr) ;;
  (* the first turn of the loop calls dbExp.hasOwnProperty *)
  if Js.shadows_hasOwnProperty dbExp then throw TypeError
  else import_loop (Js.ownEntries dbExp).

End Db.
End Db.

(* ================================================================== *)
(** ** [src/key-container/local-storage-container.js] *)
(* ================================================================== *)

Module LocalStorageContainer.
Section Container.
Context {C : Constants} {P : Primitives}.

Definition AUTOLOCK_MS : N := 30000.

Definition clearTimeout (h : option nat) (ts : list (nat * N)) : list (nat * N) :=
  match h with
  | Some h => filter (fun t => negb (Nat.eqb (fst t) h)) ts
  | None => ts
  end.

Definition unlock (passphrase : string) : M unit :=
  fun w =>
    let w1 := with_key (passToKey passphrase "salt") w in
    let h := nextHandle w1 in
    (Ret tt, with_timers (Some h) (timeouts w1 ++ [(h, (clock w1 + AUTOLOCK_MS)%N)]) (S h) w1).

Definition lock : M unit :=
  fun w =>
    if negb (JsString.truthy (encryptionKey w)) then (Ret tt, w)
    else (Ret tt, with_key EmptyString
                    (with_timers (timer w) (clearTimeout (timer w) (timeouts w)) (nextHandle w) w)).

Definition isUnlock : M bool := fun w => (Ret (isUnlocked w), w).

(** The event loop runs for [dt] milliseconds with no call in progress:
    the callbacks whose deadline is reached fire, each assigning the empty
    string to [encryptionKey]. *)
Definition advance (dt : N) (w : World) : World :=
  let t := (clock w + dt)%N in
  let due := filter (fun hd => N.leb (snd hd) t) (timeouts w) in
  let rest := filter (fun hd => negb (N.leb (snd hd) t)) (timeouts w) in
  let w1 := with_clock t (with_timers (timer w) rest (nextHandle w) w) in
  match due with
  | [] => w1
  | _ :: _ => with_key EmptyString w1
  end.

Definition saveObject (key : string) (v : json) : M bool :=
  try_catch (Db.insert (KCPREFIX ++ key) (JSON_stringify v) ;;; ret true) (ret false).

Definition saveMasterSeed (masterSeed : string) : M unit :=
  w <- get_world ;;
  seedEncrypted <- kc_encrypt (encryptionKey w) masterSeed ;;
  Db.insert (KCPREFIX ++ "masterSeed") seedEncrypted.

Definition generateMasterSeed (mnemonic : option string) : M bool :=
  mnemonic <- mnemonic_or_random mnemonic ;;
  w <- get_world ;;
  if isUnlocked w && validateMnemonic mnemonic
  then saveMasterSeed mnemonic ;;; ret true
  else ret false.

(** [getMasterSeed(pass = this.encryptionKey)]; [None] is [undefined] *)
Definition getMasterSeed (pass : option string) : M (option string) :=
  w <- get_world ;;
  let pass := match pass with Some p => p | None => encryptionKey w end in
  if isUnlocked w then
    seedKey <- Db.listKeys (KCPREFIX ++ "masterSeed") ;;
    match seedKey with
    | [] => ret None
    | _ :: _ =>
        seedEncrypted <- Db.get (JsString.array_toString seedKey) ;;
        try_catch (mnemonic <- kc_decrypt pass seedEncrypted ;; ret (Some mnemonic))
                  (ret None)
    end
  else ret None.

Definition keySeedRecord (keySeedEncrypted pathKeySeedEncrypted : string) : json :=
  JObj [("keySeedEncrypted", JStr keySeedEncrypted);
        ("pathKeySeedEncrypted", JStr pathKeySeedEncrypted)].

Definition generateKeySeed (masterSeed : option string) : M bool :=
  w <- get_world ;;
  if isUnlocked w then
    root <- lift (fromMasterSeed masterSeed) ;;
    nodeId <- lift (derive root "m/44'/60'/0'") ;;
    let privKey := _privateKey nodeId in
    let keySeed := entropyToMnemonic privKey in
    keySeedEncrypted <- kc_encrypt (encryptionKey w) keySeed ;;
    pathKey <- lift_opt RangeError (Buffer.writeUInt32BE 0) ;;
    pathKeySeedEncrypted <- kc_encrypt (encryptionKey w) (bytesToHex pathKey) ;;
    Db.insert (KCPREFIX ++ "keySeed")
              (JSON_stringify (keySeedRecord keySeedEncrypted pathKeySeedEncrypted)) ;;;
    ret true
  else ret false.

(** [const { keySeedEncrypted, pathKeySeedEncrypted } = JSON.parse(...)]:
    null cannot be destructured; any other value yields its two properties
    or undefined. *)
Definition destructure_record (j : json) : M (option string * option string) :=
  match j with
  | JNull => throw TypeError
  | JObj fields =>
      ret (Js.string_prop "keySeedEncrypted" fields,
           Js.string_prop "pathKeySeedEncrypted" fields)
  | _ => ret (None, None)
  end.

(** [getKeySeed()]; [None] is [undefined] *)
Definition getKeySeed : M (option (string * Z)) :=
  w <- get_world ;;
  if isUnlocked w then
    keySeedDb <- Db.listKeys (KCPREFIX ++ "keySeed") ;;
    match keySeedDb with
    | [] => ret None
    | _ :: _ =>
        raw <- Db.get (JsString.array_toString keySeedDb) ;;
        j <- lift_opt SyntaxError
               (JSON_parse (match raw with Some s => s | None => "null" end)) ;;
        fields <- destructure_record j ;;
        keySeed <- kc_decrypt (encryptionKey w) (fst fields) ;;
        pathKeySeed <- kc_decrypt (encryptionKey w) (snd fields) ;;
        pathKey <- lift_opt RangeError (Buffer.readUInt32BE (hexToBytes pathKeySeed)) ;;
        ret (Some (keySeed, pathKey))
    end
  else ret None.

Definition increaseKeyPath : M bool :=
  w <- get_world ;;
  if isUnlocked w then
    ks <- getKeySeed ;;
    match ks with
    | None => throw TypeError
    | Some (keySeed, pathKey) =>
        let increasePathKey := pathKey + 1 in
        pathKeyDb <- lift_opt RangeError (Buffer.writeUInt32BE increasePathKey) ;;
        keySeedEncrypted <- kc_encrypt (encryptionKey w) keySeed ;;
        pathKeySeedEncrypted <- kc_encrypt (encryptionKey w) (bytesToHex pathKeyDb) ;;
        Db.insert (KCPREFIX ++ "keySeed")
                  (JSON_stringify (keySeedRecord keySeedEncrypted pathKeySeedEncrypted)) ;;;
        ret true
    end
  else ret false.

Definition generateRecoveryAddr (masterSeed : option string) : M (option string) :=
  w <- get_world ;;
  if isUnlocked w then
    root <- lift (fromMasterSeed masterSeed) ;;
    addrNodeRecovery <- lift (derive root "m/44'/60'/1'") ;;
    let privRecovery := _privateKey addrNodeRecovery in
    addressRecovery <- lift (privateToAddress privRecovery) ;;
    let addressRecoveryHex := bytesToHex addressRecovery in
    let privRecoveryHex := bytesToHex privRecovery in
    privRecoveryHexEncrypted <- kc_encrypt (encryptionKey w) privRecoveryHex ;;
    Db.insert (KCPREFIX ++ IDRECOVERYPREFIX ++ addressRecoveryHex) privRecoveryHexEncrypted ;;;
    ret (Some addressRecoveryHex)
  else ret None.

(** the template [`m/44'/60'/0'/${keyProfilePath}/${keyPath}`] *)
Definition key_path (keyProfilePath keyPath : Z) : string :=
  "m/44'/60'/0'/" ++ JsString.of_Z keyProfilePath ++ "/" ++ JsString.of_Z keyPath.

Definition generateSingleKey (keyProfilePath keyPath : Z) : M (option string) :=
  w <- get_world ;;
  if isUnlocked w then
    let path := key_path keyProfilePath keyPath in
    ks <- getKeySeed ;;
    match ks with
    | None => throw TypeError
    | Some (keySeed, _) =>
        root <- lift (fromMasterSeed (Some keySeed)) ;;
        addrNode <- lift (derive root path) ;;
        let privK := _privateKey addrNode in
        address <- lift (privateToAddress (_privateKey addrNode)) ;;
        let addressHex := bytesToHex address in
        let privKHex := bytesToHex privK in
        privKHexEncrypted <- kc_encrypt (encryptionKey w) privKHex ;;
        Db.insert (KCPREFIX ++ addressHex) privKHexEncrypted ;;;
        ret (Some addressHex)
    end
  else ret None.

Definition getRecoveryAddr : M (option string) :=
  w <- get_world ;;
  if isUnlocked w then
    idSeedKey <- Db.listKeys (KCPREFIX ++ IDRECOVERYPREFIX) ;;
    match idSeedKey with
    | [] => ret None
    | k0 :: _ => ret (Some (JsString.replace k0 (KCPREFIX ++ IDRECOVERYPREFIX) EmptyString))
    end
  else ret None.

(** one turn of the loop of [generateKeysFromKeyPath], for index [i] *)
Definition derive_and_store (root : hdnode) (pathProfile : Z) (i : nat)
           (keys : list string) : M (list string) :=
  w <- get_world ;;
  (* `${path + pathProfile}/${i}` with path = "m/44'/60'/0'/" *)
  addrNode <- lift (derive root (key_path pathProfile (Z.of_nat i))) ;;
  let privK := _privateKey addrNode in
  address <- lift (privateToAddress (_privateKey addrNode)) ;;
  let addressHex := bytesToHex address in
  let privKHex := bytesToHex privK in
  privKHexEncrypted <- kc_encrypt (encryptionKey w) privKHex ;;
  let keys := (keys ++ [addressHex])%list in
  Db.insert (KCPREFIX ++ addressHex) privKHexEncrypted ;;;
  if Nat.eqb i 0 then
    let pubK := _publicKey addrNode in
    let pubKHex := bytesToHex pubK in
    let keys := (keys ++ [pubKHex])%list in
    Db.insert (KCPREFIX ++ pubKHex) privKHexEncrypted ;;;
    ret keys
  else ret keys.

(** [for (let i = ...; i < numberOfDerivedKeys; i++)], with [todo] turns
    left *)
Fixpoint derive_loop (root : hdnode) (pathProfile : Z) (todo i : nat)
         (keys : list string) : M (list string) :=
  match todo with
  | O => ret keys
  | S todo' =>
      keys <- derive_and_store root pathProfile i keys ;;
      derive_loop root pathProfile todo' (S i) keys
  end.

(** [generateKeysFromKeyPath(mnemonic = bip39.generateMnemonic(),
    pathProfile = 0, numberOfDerivedKeys = 3)]; the result is the [keys]
    field of the returned object, [None] for [undefined] *)
Definition generateKeysFromKeyPath (mnemonic : option string) (pathProfile : option Z)
           (numberOfDerivedKeys : option nat) : M (option (list string)) :=
  mnemonic <- mnemonic_or_random mnemonic ;;
  let pathProfile := match pathProfile with Some p => p | None => 0 end in
  let numberOfDerivedKeys := match numberOfDerivedKeys with Some n => n | None => 3%nat end in
  w <- get_world ;;
  if negb (isUnlocked w) || negb (validateMnemonic mnemonic) then ret None
  else
    root <- lift (fromMasterSeed (Some mnemonic)) ;;
    keys <- derive_loop root pathProfile numberOfDerivedKeys 0 [] ;;
    ret (Some keys).

Definition createKeys : M (option (list string)) :=
  w <- get_world ;;
  if isUnlocked w then
    objectKeySeed <- getKeySeed ;;
    objectKeySeed <-
      match objectKeySeed with
      | Some o => ret (Some o)
      | None =>
          masterSeed <- getMasterSeed None ;;
          ok <- generateKeySeed masterSeed ;;
          if ok then getKeySeed else ret None
      end ;;
    match objectKeySeed with
    | None => throw TypeError
    | Some (keySeed, pathKey) =>
        r <- generateKeysFromKeyPath (Some keySeed) (Some pathKey) None ;;
        match r with
        | None => throw TypeError
        | Some keys => increaseKeyPath ;;; ret (Some keys)
        end
    end
  else ret None.

Definition generateKeyRand : M (option string) :=
  w <- get_world ;;
  if negb (JsString.truthy (encryptionKey w)) then ret None
  else
    privK <- random_wallet ;;
    address <- lift (privateToAddress privK) ;;
    let addressHex := bytesToHex address in
    let privKHex := bytesToHex privK in
    privKHexEncrypted <- kc_encrypt (encryptionKey w) privKHex ;;
    Db.insert (KCPREFIX ++ addressHex) privKHexEncrypted ;;;
    ret (Some addressHex).

(** [importKey(privKHex)] for a string argument, whose constructor is
    [String] *)
Definition importKey (privKHex : string) : M (option string) :=
  w <- get_world ;;
  if negb (JsString.truthy (encryptionKey w)) then ret None
  else
    let privK := hexToBytes privKHex in
    address <- lift (privateToAddress privK) ;;
    let addressHex := bytesToHex address in
    privKHexEncrypted <- kc_encrypt (encryptionKey w) privKHex ;;
    Db.insert (KCPREFIX ++ addressHex) privKHexEncrypted ;;;
    ret (Some addressHex).

(** Modelled from the spec: kcUtils.concatSignature, missing with
    [kc-utils.js]: the SignatureEnvelope "{message, messageHash, v, r, s}". *)
Definition concatSignature (message msgHash : Buffer.t) (v : Z) (r s : Buffer.t)
  : SignatureEnvelope := mkEnvelope message msgHash v r s.

Definition sign (addressHex data : string) : M value :=
  w <- get_world ;;
  if negb (JsString.truthy (encryptionKey w)) then ret (VString "KeyContainer blocked")
  else
    privKHexEncrypted <- Db.get (KCPREFIX ++ addressHex) ;;
    let message := toBuffer data in
    let msgHash := hashPersonalMessage message in
    privKHex <- kc_decrypt (encryptionKey w) privKHexEncrypted ;;
    sig <- lift (ecsign msgHash (hexToBytes privKHex)) ;;
    ret (VSignature (concatSignature message msgHash (fst (fst sig)) (snd (fst sig)) (snd sig))).

Definition deleteKey (addressHex : string) : M unit :=
  Db.delete (KCPREFIX ++ addressHex).

Definition deleteAll : M unit := Db.deleteAll.

End Container.
End LocalStorageContainer.

(* ================================================================== *)
(** ** The lock-guarded operations, as one interface *)
(* ================================================================== *)

Inductive op :=
| CreateKeys
| GenerateKeySeed (masterSeed : option string)
| GetKeySeed
| IncreaseKeyPath
| GenerateSingleKey (keyProfilePath keyPath : Z)
| GenerateRecoveryAddr (masterSeed : option string)
| GenerateKeyRand
| ImportKey (privKHex : string)
| Sign (addressHex data : string)
| GetMasterSeed (pass : option string)
| Export (idAddr ksign : string).

Definition of_bool (c : M bool) : M value := b <- c ;; ret (VBool b).
Definition of_string (c : M (option string)) : M value :=
  r <- c ;; ret (match r with Some s => VString s | None => VUndefined end).
Definition of_keys (c : M (option (list string))) : M value :=
  r <- c ;; ret (match r with Some l => VArray l | None => VUndefined end).
Definition of_keySeed (c : M (option (string * Z))) : M value :=
  r <- c ;; ret (match r with Some (s, p) => VKeySeed s p | None => VUndefined end).

Section Exec.
Context {C : Constants} {P : Primitives}.
Import LocalStorageContainer.

Definition exec (o : op) : M value :=
  match o with
  | CreateKeys => of_keys createKeys
  | GenerateKeySeed masterSeed => of_bool (generateKeySeed masterSeed)
  | GetKeySeed => of_keySeed getKeySeed
  | IncreaseKeyPath => of_bool increaseKeyPath
  | GenerateSingleKey p k => of_string (generateSingleKey p k)
  | GenerateRecoveryAddr masterSeed => of_string (generateRecoveryAddr masterSeed)
  | GenerateKeyRand => of_string generateKeyRand
  | ImportKey privKHex => of_string (importKey privKHex)
  | Sign addressHex data => sign addressHex data
  | GetMasterSeed pass => of_string (getMasterSeed pass)
  | Export idAddr ksign => of_string (Db.export idAddr ksign)
  end.

(** what the guard of each operation returns when the key is empty *)
Definition notUnlocked (o : op) : value :=
  match o with
  | Sign _ _ => VString "KeyContainer blocked"
  | GenerateKeySeed _ | IncreaseKeyPath => VBool false
  | _ => VUndefined
  end.

(** *** Observations the statements are written with *)

(** the persisted path counter, as [getKeySeed] reads it *)
Definition pathCounter (w : World) : option Z :=
  match fst (getKeySeed w) with
  | Ret (Some (_, pathKey)) => Some pathKey
  | _ => None
  end.

(** what [Db.listKeys prefix] returns on a storage *)
Definition listed (prefix : string) (m : Storage.t) : list string :=
  map (JsString.drop (String.length DBPREFIX))
      (filter (fun k => JsString.startsWith k (DBPREFIX ++ prefix)) (Storage.keys m)).

(** the [localStorage] key of the key-seed record *)
Definition keySeedLabel : string := DBPREFIX ++ KCPREFIX ++ "keySeed".

(** what [getKeySeed] returns under a key on a storage *)
Definition readKeySeed (key : string) (m : Storage.t) : outcome (option (string * Z)) :=
  fst (getKeySeed (with_key key (new_world m (fun _ _ _ => true)))).

(** the [localStorage] reads of [getKeySeed] *)
Definition keySeedReads (m : Storage.t) : list event :=
  LsKeys :: match listed (KCPREFIX ++ "keySeed") m with
            | [] => []
            | k :: r => [LsGet (DBPREFIX ++ JsString.array_toString (k :: r))]
            end.

(** The store holds a KeySeedRecord: the entry under the label keySeed is
    the only one that label lists, and under the key [key] it reads as
    [keySeed] with path counter [c]. *)
Definition stored_keySeed (key : string) (m : Storage.t) (keySeed : string) (c : Z) : Prop :=
  listed (KCPREFIX ++ "keySeed") m = [KCPREFIX ++ "keySeed"]
  /\ readKeySeed key m = Ret (Some (keySeed, c)).

(** the record [increaseKeyPath] and [generateKeySeed] write, with the
    draws of its two nonces *)
Definition keySeedEntry (key : string) (n : nat) (keySeed : string) (pathKey : Buffer.t) : string :=
  JSON_stringify (keySeedRecord (encrypt key n keySeed)
                                (encrypt key (S n) (bytesToHex pathKey))).

(** the node a key seed gives at a derivation path, written in full *)
Definition child (keySeed path : string) : outcome hdnode :=
  match fromMasterSeed (Some keySeed) with
  | Ret root => derive root path
  | Throw e => Throw e
  end.

(** the identifiers and the plaintext of a derived key, in hex *)
Record derived := mkDerived {
  addressHex : string;
  pubKHex : string;
  privKHex : string
}.

(** the key a key seed gives at a derivation path, written in full *)
Definition derived_key (keySeed path : string) : outcome derived :=
  match child keySeed path with
  | Ret node =>
      match privateToAddress (_privateKey node) with
      | Ret address =>
          Ret (mkDerived (bytesToHex address) (bytesToHex (_publicKey node))
                         (bytesToHex (_privateKey node)))
      | Throw e => Throw e
      end
  | Throw e => Throw e
  end.

(** the entries of one profile: each key's ciphertext under its address,
    and the ciphertext of key 0 under its public key as well; [n] is the
    draw of the first nonce *)
Definition profile_writes (key : string) (n : nat) (k0 k1 k2 : derived)
  : list (string * string) :=
  [ (DBPREFIX ++ KCPREFIX ++ addressHex k0, encrypt key n (privKHex k0));
    (DBPREFIX ++ KCPREFIX ++ pubKHex k0, encrypt key n (privKHex k0));
    (DBPREFIX ++ KCPREFIX ++ addressHex k1, encrypt key (S n) (privKHex k1));
    (DBPREFIX ++ KCPREFIX ++ addressHex k2, encrypt key (S (S n)) (privKHex k2)) ].

(** the backend takes the writes of a list, one after the other *)
Fixpoint writes_ok (acc : Storage.t -> string -> string -> bool) (m : Storage.t)
         (l : list (string * string)) : bool :=
  match l with
  | [] => true
  | (k, v) :: r => acc m k v && writes_ok acc (Storage.setItem k v m) r
  end.

Definition apply_writes (l : list (string * string)) (m : Storage.t) : Storage.t :=
  fold_left (fun m kv => Storage.setItem (fst kv) (snd kv) m) l m.

(** the writes of a list that go through before the first refusal *)
Fixpoint accepted (acc : Storage.t -> string -> string -> bool) (m : Storage.t)
         (l : list (string * string)) : list (string * string) :=
  match l with
  | [] => []
  | (k, v) :: r =>
      if acc m k v then (k, v) :: accepted acc (Storage.setItem k v m) r else []
  end.

(** what [getMasterSeed()] returns under a key on a storage *)
Definition readMasterSeed (key : string) (m : Storage.t) : option string :=
  match fst (getMasterSeed None (with_key key (new_world m (fun _ _ _ => true)))) with
  | Ret r => r
  | Throw _ => None
  end.

(** the [localStorage] reads of [getMasterSeed] *)
Definition masterSeedReads (m : Storage.t) : list event :=
  LsKeys :: match listed (KCPREFIX ++ "masterSeed") m with
            | [] => []
            | k :: r => [LsGet (DBPREFIX ++ JsString.array_toString (k :: r))]
            end.

(** the first steps of [createKeys] on a store without a key-seed record *)
Definition bootstrap : M bool :=
  getKeySeed ;;; (masterSeed <- getMasterSeed None ;; generateKeySeed masterSeed).

(** the entries [Db.export] puts in its blob: those of the storage keys
    that contain the prefix, as an object of strings *)
Definition export_step (m : Storage.t) (o : list (string * string)) (k : string)
  : list (string * string) :=
  if JsString.contains k DBPREFIX
  then match Storage.getItem k m with
       | Some v => Js.set k v o
       | None => o
       end
  else o.

Definition exported_entries (m : Storage.t) : list (string * string) :=
  fold_left (export_step m) (Storage.keys m) [].

(** the writes in a trace *)
Definition writes_of (tr : list event) : list event := filter is_write tr.

(** [n] calls of [createKeys] in a row, all of which returned keys *)
Fixpoint createKeys_times (n : nat) (w : World) : option World :=
  match n with
  | O => Some w
  | S n' =>
      match createKeys w with
      | (Ret (Some _), w') => createKeys_times n' w'
      | _ => None
      end
  end.

End Exec.

(* ================================================================== *)
(** ** What the proofs ask of the primitives *)
(* ================================================================== *)

Class PrimitiveLaws (C : Constants) (P : Primitives) : Prop := {
  (** a ciphertext opens under the key that made it *)
  decrypt_encrypt : forall k n m, decrypt k (encrypt k n m) = Some m;
  (** utils.hexToBytes undoes utils.bytesToHex *)
  hexToBytes_bytesToHex : forall b, hexToBytes (bytesToHex b) = b;
  (** JSON.parse undoes JSON.stringify on an object of strings *)
  parse_stringify :
    forall fields : list (string * string),
      NoDup (map fst fields) ->
      JSON_parse (JSON_stringify (JObj (Js.strings fields))) = Some (JObj (Js.strings fields));
  (** a hex rendering never begins like the label of the key-seed record *)
  hex_not_keySeed : forall b, JsString.startsWith (bytesToHex b) "keySeed" = false
}.

(* ================================================================== *)
(** ** A small instance of the primitives, for running the model *)
(* ================================================================== *)

Module Example.

#[export] Instance constants : Constants := {|
  KCPREFIX := "kc-";
  DBPREFIX := "db-";
  IDRECOVERYPREFIX := "idrecovery-"
|}.

Definition quote : ascii := "034"%char.
Definition backslash : ascii := "092"%char.

(** *** Hexadecimal *)

Definition hex_digit (n : N) : ascii :=
  if (n <? 10)%N then ascii_of_N (48 + n) else ascii_of_N (87 + n).

Definition unhex_digit (c : ascii) : option N :=
  let n := N_of_ascii c in
  if ((48 <=? n) && (n <=? 57))%N then Some (n - 48)%N
  else if ((97 <=? n) && (n <=? 102))%N then Some (n - 87)%N
  else None.

Fixpoint hex_of_bytes (b : Buffer.t) : string :=
  match b with
  | [] => EmptyString
  | x :: r =>
      String (hex_digit (Byte.to_N x / 16)) (String (hex_digit (Byte.to_N x mod 16)) (hex_of_bytes r))
  end.

Fixpoint bytes_of_hex (s : string) : Buffer.t :=
  match s with
  | String c1 (String c2 r) =>
      match unhex_digit c1, unhex_digit c2 with
      | Some h, Some l =>
          match Byte.of_N (16 * h + l) with
          | Some x => x :: bytes_of_hex r
          | None => []
          end
      | _, _ => []
      end
  | _ => []
  end.

Definition toy_bytesToHex (b : Buffer.t) : string := "0x" ++ hex_of_bytes b.

Definition toy_hexToBytes (s : string) : Buffer.t :=
  if JsString.startsWith s "0x" then bytes_of_hex (JsString.drop 2 s) else bytes_of_hex s.

(** *** Symmetric encryption: the nonce, the key, a colon, the plaintext *)

Definition toy_encrypt (k : string) (n : nat) (m : string) : string :=
  String (ascii_of_nat (48 + n mod 10)) (k ++ ":" ++ m).

Definition toy_decrypt (k c : string) : option string :=
  match c with
  | String _ r =>
      if String.prefix (k ++ ":") r then Some (JsString.drop (String.length k + 1) r) else None
  | EmptyString => None
  end.

(** *** A JSON printer, and a reader for its flat objects *)

Fixpoint escape (s : string) : string :=
  match s with
  | EmptyString => EmptyString
  | String c r =>
      if Ascii.eqb c quote || Ascii.eqb c backslash
      then String backslash (String c (escape r))
      else String c (escape r)
  end.

Definition quoted (s : string) : string := String quote (escape s ++ String quote EmptyString).

Fixpoint print (j : json) : string :=
  match j with
  | JNull => "null"
  | JBool true => "true"
  | JBool false => "false"
  | JNum r => r
  | JStr s => quoted s
  | JArr l => "[" ++ String.concat "," (map print l) ++ "]"
  | JObj f => "{" ++ String.concat "," (map (fun kv => quoted (fst kv) ++ ":" ++ print (snd kv)) f) ++ "}"
  end.

(** one member of a flat object *)
Definition member (kv : string * string) : string :=
  quoted (fst kv) ++ ":" ++ quoted (snd kv).

(** reads a string body up to its closing quote; returns it and the rest *)
Fixpoint read_string (s : string) : option (string * string) :=
  match s with
  | EmptyString => None
  | String c r =>
      if Ascii.eqb c quote then Some (EmptyString, r)
      else if Ascii.eqb c backslash then
        match r with
        | String c2 r2 =>
            if Ascii.eqb c2 quote || Ascii.eqb c2 backslash
            then match read_string r2 with
                 | Some (body, rest) => Some (String c2 body, rest)
                 | None => None
                 end
            else None
        | EmptyString => None
        end
      else match read_string r with
           | Some (body, rest) => Some (String c body, rest)
           | None => None
           end
  end.

Definition read_quoted (s : string) : option (string * string) :=
  match s with
  | String c r => if Ascii.eqb c quote then read_string r else None
  | EmptyString => None
  end.

(** the members of an object after its opening brace, all with string
    values *)
Fixpoint read_members (fuel : nat) (s : string) : option (list (string * json)) :=
  match fuel with
  | O => None
  | S fuel' =>
      match read_quoted s with
      | Some (k, String c1 r1) =>
          if Ascii.eqb c1 ":" then
            match read_quoted r1 with
            | Some (v, String c2 r2) =>
                if Ascii.eqb c2 "}" then
                  match r2 with
                  | EmptyString => Some [(k, JStr v)]
                  | String _ _ => None
                  end
                else if Ascii.eqb c2 "," then
                  match read_members fuel' r2 with
                  | Some rest => Some ((k, JStr v) :: rest)
                  | None => None
                  end
                else None
            | _ => None
            end
          else None
      | _ => None
      end
  end.

(** the literals, strings and flat objects of strings; any other text is
    refused *)
Definition read (s : string) : option json :=
  if String.eqb s "null" then Some JNull
  else if String.eqb s "true" then Some (JBool true)
  else if String.eqb s "false" then Some (JBool false)
  else if String.eqb s "{}" then Some (JObj [])
  else match s with
       | String c r =>
           if Ascii.eqb c "{" then option_map JObj (read_members (String.length s) r)
           else if Ascii.eqb c quote then
             match read_string r with
             | Some (v, EmptyString) => Some (JStr v)
             | _ => None
             end
           else None
       | EmptyString => None
       end.

(** *** Keys *)

Definition bytes (s : string) : Buffer.t := list_byte_of_string s.

#[export] Instance primitives : Primitives := {|
  passToKey p salt := "key(" ++ p ++ "," ++ salt ++ ")";
  encrypt := toy_encrypt;
  decrypt := toy_decrypt;
  bytesToHex := toy_bytesToHex;
  hexToBytes := toy_hexToBytes;
  generateMnemonic n := "words " ++ JsString.of_N (N.of_nat n);
  validateMnemonic s := JsString.startsWith s "words ";
  entropyToMnemonic b := "words " ++ string_of_list_byte b;
  hdnode := string;
  fromMasterSeed s := match s with Some s => Ret s | None => Throw TypeError end;
  derive node path := Ret (node ++ "/" ++ path);
  _privateKey node := bytes node;
  _publicKey node := bytes ("pub " ++ node);
  privateToAddress priv := Ret (bytes "addr " ++ priv)%list;
  walletGenerate n := bytes ("random " ++ JsString.of_N (N.of_nat n));
  toBuffer := bytes;
  hashPersonalMessage b := (bytes "Ethereum Signed Message:" ++ b)%list;
  ecsign h k := Ret (27, h, k);
  JSON_stringify := print;
  JSON_parse := read
|}.

(** a backend that takes every write *)
Definition unlimited : Storage.t -> string -> string -> bool := fun _ _ _ => true.

(** a backend with a quota of [q] characters *)
Definition quota (q : nat) : Storage.t -> string -> string -> bool :=
  fun m k v => Nat.leb (Storage.size (Storage.setItem k v m)) q.

(** *** Stores to run the model on *)

Section Worlds.
Import LocalStorageContainer.

(** a new container over an empty storage: Locked *)
Definition fresh : World := new_world [] unlimited.

(** unlocked with the passphrase pw *)
Definition unlocked : World := snd (unlock "pw" fresh).

(** with a master seed *)
Definition seeded : World := snd (generateMasterSeed (Some "words a b c") unlocked).

(** after one createKeys: a key-seed record with counter 1 and the
    entries of profile 0 *)
Definition profiled : World := snd (createKeys seeded).

Definition keySeed0 : string :=
  match fst (getKeySeed profiled) with
  | Ret (Some (ks, _)) => ks
  | _ => EmptyString
  end.

(** the key of keySeed0 at a path *)
Definition key_at (path : string) : derived :=
  match derived_key keySeed0 path with
  | Ret k => k
  | Throw _ => mkDerived EmptyString EmptyString EmptyString
  end.

(** [profiled] behind a backend whose quota leaves room for the first
    entry of the next profile and not for the second *)
Definition limited : World :=
  with_accepts (quota (Storage.size (localStorage profiled) + 300)) profiled.

(** [profiled] with the counter of its record at 2^32 - 1 *)
Definition saturated : World :=
  with_storage
    (Storage.setItem keySeedLabel
       (keySeedEntry (encryptionKey profiled) 0 keySeed0 (Buffer.be32 4294967295))
       (localStorage profiled))
    profiled.


(** [profiled] after deleteAll *)
Definition emptied : World := snd (deleteAll profiled).

(** [profiled] after lock *)
Definition relocked : World := snd (lock profiled).

(** [profiled] after two more calls of createKeys *)
Definition after_two : World :=
  match createKeys_times 2 profiled with
  | Some w => w
  | None => profiled
  end.

End Worlds.

End Example.

(* ================================================================== *)
(** ** The rest of the container: listings, [encrypt] and [decrypt] *)
(* ================================================================== *)

Module LocalStorageContainerRest.
Section Rest.
Context {C : Constants} {P : Primitives}.

(** [CONSTANTS.IDPREFIX], a constant of [src/constants.js] *)
Variable IDPREFIX : string.

(** the loop of [listIdentities]: a key that contains
    [db.prefix + prefix + IDPREFIX] is pushed with the first
    [prefix + db.prefix] in it removed *)
Fixpoint listIdentities_loop (keys idList : list string) : list string :=
  match keys with
  | [] => idList
  | k :: rest =>
      if JsString.contains k (DBPREFIX ++ KCPREFIX ++ IDPREFIX)
      then listIdentities_loop rest
             (idList ++ [JsString.replace k (KCPREFIX ++ DBPREFIX) EmptyString])%list
      else listIdentities_loop rest idList
  end.

Definition listIdentities : M (list string) :=
  keys <- ls_keys ;; ret (listIdentities_loop keys []).

(** the loop of [listKeys]: a key that contains [prefix + db.prefix] is
    pushed with its first occurrence removed *)
Fixpoint listKeys_loop (keys keysList : list string) : list string :=
  match keys with
  | [] => keysList
  | k :: rest =>
      if JsString.contains k (KCPREFIX ++ DBPREFIX)
      then listKeys_loop rest
             (keysList ++ [JsString.replace k (KCPREFIX ++ DBPREFIX) EmptyString])%list
      else listKeys_loop rest keysList
  end.

Definition listKeys : M (list string) :=
  keys <- ls_keys ;; ret (listKeys_loop keys []).

(** [decrypt(c)]; [None] is [undefined] *)
Definition decrypt (c : string) : M (option string) :=
  w <- get_world ;;
  if negb (JsString.truthy (encryptionKey w)) then ret None
  else m <- kc_decrypt (encryptionKey w) (Some c) ;; ret (Some m).

(** [encrypt(m)]; [None] is [undefined] *)
Definition encrypt (m : string) : M (option string) :=
  w <- get_world ;;
  if negb (JsString.truthy (encryptionKey w)) then ret None
  else c <- kc_encrypt (encryptionKey w) m ;; ret (Some c).

End Rest.
End LocalStorageContainerRest.

(* ================================================================== *)
(** ** [src/merkle-tree/merkle-tree-utils.js] *)
(* ================================================================== *)

Module MerkleTreeUtils.

(** ToInt32, the reading of a number by the bitwise operators *)
Definition int32 (z : Z) : Z := (z + 2 ^ 31) mod 2 ^ 32 - 2 ^ 31.

(** a flag as the caller gives it (a boolean) or as a decoder returns it (a
    number) *)
Inductive flagValue :=
| FlagBool (b : bool)
| FlagNumber (n : Z).

(** the data of a node value: [{ data, indexLength }] for a leaf, the array
    of two buffers for an inner node *)
Inductive nodeData :=
| LeafData (data : Buffer.t) (indexLength : Z)
| PairData (left right : Buffer.t).

Record nodeValue := mkNodeValue {
  flag : flagValue;
  data : nodeData
}.

Definition addFlagNode (data : nodeData) (flag : flagValue) : nodeValue :=
  mkNodeValue flag data.

(** [while (pos) { mask <<= 1; pos -= 1; }] for a count [pos] *)
Fixpoint shift_mask (mask : Z) (pos : nat) : Z :=
  match pos with
  | O => mask
  | S pos' => shift_mask (int32 (Z.shiftl (int32 mask) 1)) pos'
  end.

Definition setBit (byte : Z) (pos : nat) : Z :=
  Z.lor (int32 byte) (int32 (shift_mask 1 pos)).

Definition getBit (byte : Z) (pos : nat) : Z :=
  Z.land (int32 byte) (int32 (shift_mask 1 pos)).

(** [Math.ceil(x / 8)] for an integer [x] *)
Definition ceil_div8 (x : Z) : Z := - ((- x) / 8).

(** [array[idx]], undefined out of range *)
Definition at_index (array : Buffer.t) (idx : Z) : option byte :=
  if idx <? 0 then None else nth_error array (Z.to_nat idx).

(** [(tmp >> j) & 0x01]; an undefined [tmp] is read as 0 *)
Definition bit_of (tmp : option byte) (j : nat) : Z :=
  Z.land (Z.shiftr (int32 (match tmp with Some b => Buffer.Z_of_byte b | None => 0 end))
                   (Z.of_nat j)) 1.

(** [a[idx] = v] on an array: in range the element is replaced, beyond the
    end the array grows, with holes up to [idx] *)
Definition array_set (idx : nat) (v : Z) (a : list (option Z)) : list (option Z) :=
  if Nat.ltb idx (length a)
  then (firstn idx a ++ Some v :: skipn (S idx) a)%list
  else (a ++ repeat None (idx - length a) ++ [Some v])%list.

(** [for (let j = ...; j < 8; j++) positionClaim[j + 8 * i] = ...], with
    [todo] turns left *)
Fixpoint bits_loop (tmp : option byte) (i todo j : nat) (positionClaim : list (option Z))
  : list (option Z) :=
  match todo with
  | O => positionClaim
  | S todo' =>
      bits_loop tmp i todo' (S j) (array_set (j + 8 * i) (bit_of tmp j) positionClaim)
  end.

(** [for (let i = ...; i < numBytes; i++)], with [todo] turns left *)
Fixpoint bytes_loop (array : Buffer.t) (todo i : nat) (positionClaim : list (option Z))
  : list (option Z) :=
  match todo with
  | O => positionClaim
  | S todo' =>
      let tmp := at_index array (Z.of_nat (length array) - 1 - Z.of_nat i) in
      bytes_loop array todo' (S i) (bits_loop tmp i 8 0 positionClaim)
  end.

(** [hashToPosition(array, length)]; an element is [Some] bit, or [None]
    for a hole *)
Definition hashToPosition (array : Buffer.t) (length : nat) : list (option Z) :=
  let numBytes := ceil_div8 (Z.of_nat length - 1) in
  firstn length (bytes_loop array (Z.to_nat numBytes) 0 []).

(** *** Buffer calls of the node encoding; [None] is a RangeError *)

(** [+value] for a flag *)
Definition number_of_flag (f : flagValue) : Z :=
  match f with
  | FlagBool true => 1
  | FlagBool false => 0
  | FlagNumber n => n
  end.

(** the byte [buf.writeUInt8(value)] leaves in a fresh [Buffer.alloc(1)] *)
Definition writeUInt8 (value : Z) : option Buffer.t :=
  if (0 <=? value) && (value <=? 255) then Some [Buffer.byte_of_Z value] else None.

Definition le32 (value : Z) : Buffer.t :=
  [ Buffer.byte_of_Z value; Buffer.byte_of_Z (Z.shiftr value 8);
    Buffer.byte_of_Z (Z.shiftr value 16); Buffer.byte_of_Z (Z.shiftr value 24) ].

(** the bytes [buf.writeUInt32LE(value)] leaves in a fresh [Buffer.alloc(4)] *)
Definition writeUInt32LE (value : Z) : option Buffer.t :=
  if (0 <=? value) && (value <=? Buffer.UINT32_MAX) then Some (le32 value) else None.

(** [buf.readUInt8()] at offset 0 *)
Definition readUInt8 (buf : Buffer.t) : option Z :=
  match buf with
  | b :: _ => Some (Buffer.Z_of_byte b)
  | [] => None
  end.

(** [buf.readUInt32LE(offset)] *)
Definition readUInt32LE (offset : nat) (buf : Buffer.t) : option Z :=
  match skipn offset buf with
  | b0 :: b1 :: b2 :: b3 :: _ =>
      Some (Buffer.Z_of_byte b0 + Buffer.Z_of_byte b1 * 2 ^ 8
            + Buffer.Z_of_byte b2 * 2 ^ 16 + Buffer.Z_of_byte b3 * 2 ^ 24)
  | _ => None
  end.

(** [buf.slice(start, end)] for offsets that are not negative *)
Definition slice (start end_ : nat) (buf : Buffer.t) : Buffer.t :=
  firstn (end_ - start) (skipn start buf).

(** [nodeValueToBuffer(nodeValue)].  When the flag and the shape of the data
    disagree, a property the code reads is undefined and [Buffer.concat]
    throws a TypeError. *)
Definition nodeValueToBuffer (nodeValue : nodeValue) : outcome Buffer.t :=
  match writeUInt8 (number_of_flag (flag nodeValue)) with
  | None => Throw RangeError
  | Some buffFlag =>
      if negb (Z.eqb (match readUInt8 buffFlag with Some b => b | None => 0 end) 0) then
        match data nodeValue with
        | LeafData d indexLength =>
            match writeUInt32LE indexLength with
            | None => Throw RangeError
            | Some buffIndex => Ret (buffFlag ++ buffIndex ++ d)%list
            end
        | PairData _ _ => Throw TypeError
        end
      else
        match data nodeValue with
        | PairData l r => Ret (buffFlag ++ l ++ r)%list
        | LeafData _ _ => Throw TypeError
        end
  end.

(** [bufferToNodeValue(nodeValueBuffer)] *)
Definition bufferToNodeValue (nodeValueBuffer : Buffer.t) : outcome nodeValue :=
  match readUInt8 nodeValueBuffer with
  | None => Throw RangeError
  | Some f =>
      if negb (Z.eqb f 0) then
        match readUInt32LE 1 nodeValueBuffer with
        | None => Throw RangeError
        | Some indexLength =>
            Ret (mkNodeValue (FlagNumber f)
                   (LeafData (slice 5 (length nodeValueBuffer) nodeValueBuffer) indexLength))
        end
      else
        Ret (mkNodeValue (FlagNumber f)
               (PairData (slice 1 33 nodeValueBuffer)
                         (slice 33 (length nodeValueBuffer) nodeValueBuffer)))
  end.

End MerkleTreeUtils.

(* ================================================================== *)
(** ** More stores to run the model on *)
(* ================================================================== *)

Module Example2.
Import Example LocalStorageContainer.

(** [profiled] with an entry that does not belong to the namespace *)
Definition shared : World :=
  with_storage (Storage.setItem "theme" "dark" (localStorage profiled)) profiled.

(** [profiled] with the entry of an identity, for the identity prefix id- *)
Definition identified : World :=
  with_storage (Storage.setItem "db-kc-id-0xabc" "{}" (localStorage profiled)) profiled.

(** [profiled] with a key seed that is no mnemonic *)
Definition misseeded : World :=
  with_storage
    (Storage.setItem keySeedLabel
       (keySeedEntry (encryptionKey profiled) 0 "not a mnemonic" (Buffer.be32 1))
       (localStorage profiled))
    profiled.

(** an object of two entries, one of them outside the namespace *)
Definition patch : json := JObj [("db-kc-extra", JStr "1"); ("theme", JStr "light")].

(** its blob under the key of [profiled] *)
Definition patch_blob : string :=
  encrypt (encryptionKey profiled) 0 (JSON_stringify patch).

(** an object with a property named hasOwnProperty, and its blob *)
Definition shadowing : json := JObj [("hasOwnProperty", JStr "x")].

Definition shadowing_blob : string :=
  encrypt (encryptionKey profiled) 0 (JSON_stringify shadowing).

(** [seeded] behind a backend whose quota leaves room for the key-seed
    record and for no entry of a key *)
Definition cramped : World :=
  with_accepts (quota (Storage.size (localStorage seeded) + 150)) seeded.

(** the components of a path *)
Fixpoint components (s cur : string) : list string :=
  match s with
  | EmptyString => [cur]
  | String c r =>
      if Ascii.eqb c "/" then cur :: components r EmptyString
      else components r (cur ++ String c EmptyString)
  end.

(** the number that the digits of a component write *)
Fixpoint number (s : string) (n : N) : N :=
  match s with
  | EmptyString => n
  | String c r =>
      let d := N_of_ascii c in
      if ((48 <=? d) && (d <=? 57))%N then number r (10 * n + (d - 48))%N else number r n
  end.

(** the primitives with an hdkey that takes child indices below 2^31 only,
    as the library does *)
Definition strict : Primitives := {|
  passToKey := @passToKey primitives;
  encrypt := @encrypt primitives;
  decrypt := @decrypt primitives;
  bytesToHex := @bytesToHex primitives;
  hexToBytes := @hexToBytes primitives;
  generateMnemonic := @generateMnemonic primitives;
  validateMnemonic := @validateMnemonic primitives;
  entropyToMnemonic := @entropyToMnemonic primitives;
  hdnode := string;
  fromMasterSeed := @fromMasterSeed primitives;
  derive node path :=
    if forallb (fun c => (number c 0 <? 2147483648)%N) (components path EmptyString)
    then Ret (node ++ "/" ++ path)
    else Throw PrimitiveError;
  _privateKey := @_privateKey primitives;
  _publicKey := @_publicKey primitives;
  privateToAddress := @privateToAddress primitives;
  walletGenerate := @walletGenerate primitives;
  toBuffer := @toBuffer primitives;
  hashPersonalMessage := @hashPersonalMessage primitives;
  ecsign := @ecsign primitives;
  JSON_stringify := @JSON_stringify primitives;
  JSON_parse := @JSON_parse primitives
|}.

(** [profiled] with the counter of its record at 2^31 *)
Definition halfway : World :=
  with_storage
    (Storage.setItem keySeedLabel
       (keySeedEntry (encryptionKey profiled) 0 keySeed0 (Buffer.be32 2147483648))
       (localStorage profiled))
    profiled.

End Example2.

(* ================================================================== *)
(** ** Tactics *)
(* ================================================================== *)

(** unfolds the monad and the storage calls of a run on an explicit world *)
Ltac run_monad :=
  unfold bind, get_world, ret, throw, lift, lift_opt, try_catch, isUnlocked,
    Db.insert, Db.get, ls_setItem, ls_getItem, kc_encrypt, kc_decrypt, log,
    with_storage, with_entropy, with_key;
  cbn [localStorage accepts encryptionKey timer timeouts nextHandle clock entropy trace fst snd].

(** closes a goal on the example stores by evaluation *)
Ltac by_run := vm_compute; reflexivity.

(* ================================================================== *)
(** * Proofs *)
(* ================================================================== *)

Unset Implicit Arguments.

(** ** Buffer *)

Module BufferFacts.
Import Buffer.

Lemma Z_of_byte_of_Z z : Z_of_byte (byte_of_Z z) = z mod 256.
Proof.
  unfold Z_of_byte, byte_of_Z.
  change 255 with (Z.ones 8). rewrite Z.land_ones by lia.
  change (2 ^ 8) with 256.
  assert (Hb : 0 <= z mod 256 < 256) by (apply Z.mod_pos_bound; lia).
  pose proof (Byte.to_of_N_option_map (Z.to_N (z mod 256))) as H.
  destruct (Byte.of_N (Z.to_N (z mod 256))) as [b|] eqn:E; simpl in H.
  - destruct (N.leb_spec (Z.to_N (z mod 256)) 255); [|discriminate].
    injection H as ->. lia.
  - destruct (N.leb_spec (Z.to_N (z mod 256)) 255); [discriminate|lia].
Qed.

Lemma write_in_range (c : Z) : 0 <= c <= UINT32_MAX -> writeUInt32BE c = Some (be32 c).
Proof.
  intros Hc. unfold writeUInt32BE, UINT32_MAX in *.
  replace ((0 <=? c) && (c <=? 4294967295)) with true
    by (symmetry; apply andb_true_iff; split; apply Z.leb_le; lia).
  reflexivity.
Qed.

Lemma read_be32 (c : Z) : 0 <= c <= UINT32_MAX -> readUInt32BE (be32 c) = Some c.
Proof.
  intros Hc. unfold UINT32_MAX in *.
  unfold readUInt32BE, be32. rewrite !Z_of_byte_of_Z, !Z.shiftr_div_pow2 by lia.
  f_equal.
  change (2 ^ 24) with 16777216. change (2 ^ 16) with 65536. change (2 ^ 8) with 256.
  assert (c / 16777216 < 256) by (apply Z.div_lt_upper_bound; lia).
  assert (0 <= c / 16777216) by (apply Z.div_pos; lia).
  rewrite (Z.mod_small (c / 16777216)) by lia.
  pose proof (Z.div_mod c 256 ltac:(lia)).
  pose proof (Z.div_mod (c / 256) 256 ltac:(lia)).
  pose proof (Z.div_mod (c / 256 / 256) 256 ltac:(lia)).
  replace (c / 65536) with (c / 256 / 256) by (rewrite Z.div_div by lia; reflexivity).
  replace (c / 16777216) with (c / 256 / 256 / 256)
    by (rewrite !Z.div_div by lia; reflexivity).
  lia.
Qed.

Lemma write_out_of_range (c : Z) : UINT32_MAX < c -> writeUInt32BE c = None.
Proof.
  intros Hc. unfold writeUInt32BE.
  replace (c <=? UINT32_MAX) with false by (symmetry; apply Z.leb_gt; lia).
  now rewrite andb_false_r.
Qed.

Lemma read_bounds (b : t) (c : Z) : readUInt32BE b = Some c -> 0 <= c <= UINT32_MAX.
Proof.
  unfold readUInt32BE, UINT32_MAX, Z_of_byte.
  destruct b as [|b0 [|b1 [|b2 [|b3 r]]]]; try discriminate.
  intros [= <-].
  pose proof (Byte.to_N_bounded b0). pose proof (Byte.to_N_bounded b1).
  pose proof (Byte.to_N_bounded b2). pose proof (Byte.to_N_bounded b3).
  change (2 ^ 24) with 16777216. change (2 ^ 16) with 65536. change (2 ^ 8) with 256.
  lia.
Qed.

End BufferFacts.

(** ** The lock guard *)

Section Guards.
Context {C : Constants} {P : Primitives}.
Import LocalStorageContainer.

(** C1: every lock-guarded operation (createKeys, generateKeySeed,
    getKeySeed, increaseKeyPath, generateSingleKey, generateRecoveryAddr,
    generateKeyRand, importKey, sign, getMasterSeed, export), called while
    Locked, returns the value of its not-unlocked branch and leaves the
    world as it was: nothing is written, no random value is drawn, and the
    trace of [localStorage] accesses does not grow, so [sign] returns
    before any read of the stored key. *)
Theorem locked_operations_do_not_proceed (o : op) (w : World) :
  isUnlocked w = false ->
  exec o w = (Ret (notUnlocked o), w)
  /\ trace (snd (exec o w)) = trace w
  /\ forall addressHex data,
       sign addressHex data w = (Ret (VString "KeyContainer blocked"), w).
Proof.
  intros H.
  assert (E : exec o w = (Ret (notUnlocked o), w)).
  { unfold isUnlocked in H.
    destruct o; cbn;
      unfold of_keys, of_bool, of_string, of_keySeed, createKeys, generateKeySeed,
        getKeySeed, increaseKeyPath, generateSingleKey, generateRecoveryAddr,
        generateKeyRand, importKey, sign, getMasterSeed, Db.export,
        bind, get_world, ret, isUnlocked;
      rewrite H; reflexivity. }
  split; [exact E|]. split; [now rewrite E|].
  intros a d. unfold sign, bind, get_world, ret. unfold isUnlocked in H.
  now rewrite H.
Qed.

End Guards.

(** ** Strings and storage *)

Module StringFacts.
Import JsString.

Lemma append_assoc (a b c : string) : (a ++ b) ++ c = a ++ (b ++ c).
Proof. induction a; simpl; congruence. Qed.

Lemma length_append (a b : string) :
  String.length (a ++ b) = (String.length a + String.length b)%nat.
Proof. induction a; simpl; congruence. Qed.

Lemma substring_all (s : string) : String.substring 0 (String.length s) s = s.
Proof. induction s; simpl; congruence. Qed.

Lemma drop_append (a b : string) : drop (String.length a) (a ++ b) = b.
Proof.
  unfold drop. rewrite length_append.
  replace (String.length a + String.length b - String.length a)%nat
    with (String.length b) by lia.
  induction a; simpl; [apply substring_all | assumption].
Qed.

Lemma startsWith_append_same (a b c : string) :
  startsWith (a ++ b) (a ++ c) = startsWith b c.
Proof.
  unfold startsWith. induction a as [|x a IH]; simpl; [reflexivity|].
  destruct (ascii_dec x x); [assumption | congruence].
Qed.

Lemma startsWith_append (s p x : string) :
  startsWith s p = true -> startsWith (s ++ x) p = true.
Proof.
  unfold startsWith. revert s. induction p as [|c p IH]; intros s.
  - intros _. destruct (s ++ x); reflexivity.
  - destruct s as [|d s]; simpl; [discriminate|].
    destruct (ascii_dec c d); [apply IH | discriminate].
Qed.

Lemma startsWith_split (s p : string) :
  startsWith s p = true -> s = p ++ drop (String.length p) s.
Proof.
  unfold startsWith. revert s. induction p as [|c p IH]; intros s; simpl.
  - intros _. unfold drop. rewrite Nat.sub_0_r. symmetry. apply substring_all.
  - destruct s as [|d s]; simpl; [discriminate|].
    destruct (ascii_dec c d) as [E|]; [|discriminate].
    subst d. intros H. apply IH in H. unfold drop in *. simpl. congruence.
Qed.

Lemma startsWith_self (p x : string) : startsWith (p ++ x) p = true.
Proof.
  unfold startsWith. induction p as [|c p IH]; simpl.
  - destruct x; reflexivity.
  - destruct (ascii_dec c c); [assumption | congruence].
Qed.

Lemma append_inj_l (a b c : string) : a ++ b = a ++ c -> b = c.
Proof. induction a; simpl; [auto | intros [= H]; auto]. Qed.

(** the first element of a joined array heads the joined text *)
Lemma array_toString_head (k : string) (r : list string) :
  exists x, array_toString (k :: r) = k ++ x.
Proof.
  unfold array_toString. destruct r as [|k' r]; simpl.
  - exists EmptyString. induction k; simpl; congruence.
  - eexists. reflexivity.
Qed.

End StringFacts.

Module StorageFacts.
Import Storage.

Lemma getItem_setItem_eq k v m : getItem k (setItem k v m) = Some v.
Proof.
  induction m as [|[k' v'] m IH]; simpl.
  - now rewrite String.eqb_refl.
  - destruct (String.eqb k' k) eqn:E; simpl.
    + now rewrite String.eqb_refl.
    + now rewrite E.
Qed.

Lemma getItem_setItem_ne k k' v m : k <> k' -> getItem k' (setItem k v m) = getItem k' m.
Proof.
  intros Hne. induction m as [|[k0 v0] m IH]; simpl.
  - apply String.eqb_neq in Hne. now rewrite Hne.
  - destruct (String.eqb k0 k) eqn:E; simpl.
    + apply String.eqb_eq in E. subst k0.
      apply String.eqb_neq in Hne. now rewrite Hne.
    + now rewrite IH.
Qed.

(** a write under a key that a filter rejects leaves the filtered keys as
    they were *)
Lemma filter_keys_setItem (f : string -> bool) k v m :
  f k = false -> filter f (keys (setItem k v m)) = filter f (keys m).
Proof.
  intros Hf. unfold keys. induction m as [|[k0 v0] m IH]; simpl.
  - now rewrite Hf.
  - destruct (String.eqb k0 k) eqn:E; simpl.
    + apply String.eqb_eq in E. now subst k0.
    + now rewrite IH.
Qed.

Lemma keys_setItem_in k v m : In k (keys m) -> keys (setItem k v m) = keys m.
Proof.
  unfold keys. induction m as [|[k0 v0] m IH]; simpl; [contradiction|].
  intros Hin. destruct (String.eqb k0 k) eqn:E; simpl.
  - apply String.eqb_eq in E. now subst k0.
  - destruct Hin as [->|Hin]; [now rewrite String.eqb_refl in E|].
    now rewrite IH.
Qed.

Lemma keys_setItem_notin k v m : ~ In k (keys m) -> keys (setItem k v m) = (keys m ++ [k])%list.
Proof.
  unfold keys. induction m as [|[k0 v0] m IH]; simpl; [reflexivity|].
  intros Hin. destruct (String.eqb k0 k) eqn:E; simpl.
  - apply String.eqb_eq in E. subst k0. exfalso. apply Hin. now left.
  - rewrite IH; [reflexivity|]. intros H. apply Hin. now right.
Qed.

Lemma getItem_in_keys k v m : getItem k m = Some v -> In k (keys m).
Proof.
  unfold keys. induction m as [|[k0 v0] m IH]; simpl; [discriminate|].
  destruct (String.eqb k0 k) eqn:E.
  - apply String.eqb_eq in E. now left.
  - intros H. right. now apply IH.
Qed.

End StorageFacts.

(** ** The key-seed record *)

Section KeySeed.
Context {C : Constants} {P : Primitives}.
Import LocalStorageContainer.

Lemma listKeys_run prefix m acc key tm tos nh clk ent tr :
  Db.listKeys prefix (mkWorld m acc key tm tos nh clk ent tr)
  = (Ret (listed prefix m), mkWorld m acc key tm tos nh clk ent (tr ++ [LsKeys])).
Proof. reflexivity. Qed.

Lemma getKeySeed_run m acc key tm tos nh clk ent tr :
  JsString.truthy key = true ->
  getKeySeed (mkWorld m acc key tm tos nh clk ent tr)
  = (readKeySeed key m, mkWorld m acc key tm tos nh clk ent (tr ++ keySeedReads m)).
Proof.
  intros Hk.
  unfold readKeySeed, keySeedReads, getKeySeed, bind, get_world, isUnlocked, with_key, new_world.
  cbn [encryptionKey localStorage]. rewrite Hk, !listKeys_run.
  destruct (listed (KCPREFIX ++ "keySeed") m) as [|k r]; [reflexivity|].
  unfold Db.get, ls_getItem, lift_opt, destructure_record, kc_decrypt, lift_opt, throw, ret, log.
  cbn [localStorage trace accepts encryptionKey timer timeouts nextHandle clock entropy fst snd].
  rewrite <- app_assoc. cbn [app].
  repeat match goal with
         | |- context [match ?x with _ => _ end] =>
             lazymatch x with
             | context [match _ with _ => _ end] => fail
             | _ => destruct x eqn:?; cbn [fst snd]
             end
         end; reflexivity.
Qed.

Lemma listed_startsWith prefix m k :
  In k (listed prefix m) -> JsString.startsWith k prefix = true.
Proof.
  unfold listed. intros H. apply in_map_iff in H. destruct H as [x [<- Hx]].
  apply filter_In in Hx. destruct Hx as [_ Hx].
  apply StringFacts.startsWith_split in Hx.
  rewrite StringFacts.append_assoc in Hx. rewrite Hx at 1.
  rewrite StringFacts.drop_append. apply StringFacts.startsWith_self.
Qed.

Lemma listed_setItem_other prefix L v m :
  JsString.startsWith L prefix = false ->
  listed prefix (Storage.setItem (DBPREFIX ++ L) v m) = listed prefix m.
Proof.
  intros H. unfold listed. f_equal.
  apply (StorageFacts.filter_keys_setItem
           (fun k => JsString.startsWith k (DBPREFIX ++ prefix))).
  now rewrite StringFacts.startsWith_append_same.
Qed.

Lemma listed_single_in prefix m :
  listed prefix m = [prefix] -> In (DBPREFIX ++ prefix) (Storage.keys m).
Proof.
  unfold listed. intros H.
  destruct (filter _ (Storage.keys m)) as [|x [|y r]] eqn:F; try discriminate.
  simpl in H. injection H as H.
  assert (Hx : In x (filter (fun k => JsString.startsWith k (DBPREFIX ++ prefix)) (Storage.keys m)))
    by (rewrite F; now left).
  apply filter_In in Hx. destruct Hx as [Hin Hx].
  apply StringFacts.startsWith_split in Hx.
  rewrite StringFacts.append_assoc in Hx.
  assert (E : JsString.drop (String.length DBPREFIX) x
              = prefix ++ JsString.drop (String.length (DBPREFIX ++ prefix)) x).
  { rewrite Hx at 1. apply StringFacts.drop_append. }
  rewrite H in E.
  rewrite <- E in Hx. now rewrite <- Hx.
Qed.

Lemma listed_setItem_same prefix v m :
  listed prefix m = [prefix] ->
  listed prefix (Storage.setItem (DBPREFIX ++ prefix) v m) = [prefix].
Proof.
  intros H. unfold listed.
  rewrite StorageFacts.keys_setItem_in by now apply listed_single_in.
  exact H.
Qed.

Lemma listed_setItem_fresh prefix v m :
  listed prefix m = [] ->
  listed prefix (Storage.setItem (DBPREFIX ++ prefix) v m) = [prefix].
Proof.
  intros H. unfold listed in *.
  assert (Hself : JsString.startsWith (DBPREFIX ++ prefix) (DBPREFIX ++ prefix) = true).
  { rewrite StringFacts.startsWith_append_same.
    unfold JsString.startsWith. apply String.prefix_correct, StringFacts.substring_all. }
  assert (Hnot : ~ In (DBPREFIX ++ prefix) (Storage.keys m)).
  { intros Hin.
    assert (Hf : In (DBPREFIX ++ prefix)
                    (filter (fun k => JsString.startsWith k (DBPREFIX ++ prefix)) (Storage.keys m)))
      by (apply filter_In; auto).
    destruct (filter _ (Storage.keys m)); [contradiction | discriminate]. }
  rewrite StorageFacts.keys_setItem_notin by assumption.
  rewrite filter_app.
  destruct (filter _ (Storage.keys m)); [|discriminate].
  simpl. rewrite Hself. simpl. now rewrite StringFacts.drop_append.
Qed.

(** the record is read from the key and the storage alone *)
Lemma readKeySeed_unfold key m :
  JsString.truthy key = true ->
  readKeySeed key m
  = match listed (KCPREFIX ++ "keySeed") m with
    | [] => Ret None
    | k :: r =>
        match JSON_parse (match Storage.getItem (DBPREFIX ++ JsString.array_toString (k :: r)) m with
                          | Some s => s
                          | None => "null"
                          end) with
        | None => Throw SyntaxError
        | Some j =>
            fst ((fields <- destructure_record j ;;
                  keySeed <- kc_decrypt key (fst fields) ;;
                  pathKeySeed <- kc_decrypt key (snd fields) ;;
                  pathKey <- lift_opt RangeError (Buffer.readUInt32BE (hexToBytes pathKeySeed)) ;;
                  ret (Some (keySeed, pathKey))) (new_world [] (fun _ _ _ => true)))
        end
    end.
Proof.
  intros Hk.
  unfold readKeySeed, getKeySeed, bind, get_world, isUnlocked, with_key, new_world.
  cbn [encryptionKey localStorage]. rewrite Hk, !listKeys_run.
  destruct (listed (KCPREFIX ++ "keySeed") m) as [|k r]; [reflexivity|].
  unfold Db.get, ls_getItem, lift_opt, destructure_record, kc_decrypt, lift_opt, throw, ret, log.
  cbn [localStorage trace accepts encryptionKey timer timeouts nextHandle clock entropy fst snd].
  repeat match goal with
         | |- context [match ?x with _ => _ end] =>
             lazymatch x with
             | context [match _ with _ => _ end] => fail
             | _ => destruct x eqn:?; cbn [fst snd]
             end
         end; reflexivity.
Qed.

(** a write under another label leaves the record as it reads *)
Lemma readKeySeed_setItem_other key L v m :
  JsString.truthy key = true ->
  JsString.startsWith L (KCPREFIX ++ "keySeed") = false ->
  readKeySeed key (Storage.setItem (DBPREFIX ++ L) v m) = readKeySeed key m.
Proof.
  intros Hk HL. rewrite !readKeySeed_unfold by assumption.
  rewrite listed_setItem_other by assumption.
  destruct (listed (KCPREFIX ++ "keySeed") m) as [|k r] eqn:El; [reflexivity|].
  rewrite StorageFacts.getItem_setItem_ne; [reflexivity|].
  intros E. apply StringFacts.append_inj_l in E.
  destruct (StringFacts.array_toString_head k r) as [x Hx].
  rewrite Hx in E. subst L.
  rewrite StringFacts.startsWith_append in HL; [discriminate|].
  apply (listed_startsWith _ m). rewrite El. now left.
Qed.

End KeySeed.

(** ** The path counter *)

Section Counter.
Context {C : Constants} {P : Primitives} {L : PrimitiveLaws C P}.
Import LocalStorageContainer.

Lemma readKeySeed_bounds key m ks c :
  JsString.truthy key = true ->
  readKeySeed key m = Ret (Some (ks, c)) -> 0 <= c <= Buffer.UINT32_MAX.
Proof.
  intros Hk. rewrite readKeySeed_unfold by assumption.
  destruct (listed _ m); [discriminate|].
  destruct (JSON_parse _) as [j|]; [|discriminate].
  run_monad. unfold destructure_record. run_monad.
  repeat match goal with
         | |- context [match ?x with _ => _ end] =>
             lazymatch x with
             | context [match _ with _ => _ end] => fail
             | Buffer.readUInt32BE _ => fail
             | _ => destruct x eqn:?; cbn [fst snd]; try discriminate
             end
         end.
  all: destruct (Buffer.readUInt32BE _) as [z|] eqn:R; cbn [fst snd]; try discriminate.
  all: intros [= _ <-]; now apply BufferFacts.read_bounds in R.
Qed.

(** reading back the record that was just written *)
Lemma readKeySeed_written key n ks c m :
  JsString.truthy key = true ->
  0 <= c <= Buffer.UINT32_MAX ->
  listed (KCPREFIX ++ "keySeed")
         (Storage.setItem keySeedLabel (keySeedEntry key n ks (Buffer.be32 c)) m)
  = [KCPREFIX ++ "keySeed"] ->
  readKeySeed key (Storage.setItem keySeedLabel (keySeedEntry key n ks (Buffer.be32 c)) m)
  = Ret (Some (ks, c)).
Proof.
  intros Hk Hc Hl. rewrite readKeySeed_unfold by assumption. rewrite Hl.
  replace (JsString.array_toString [KCPREFIX ++ "keySeed"]) with (KCPREFIX ++ "keySeed")
    by reflexivity.
  fold keySeedLabel. rewrite StorageFacts.getItem_setItem_eq.
  unfold keySeedEntry, keySeedRecord.
  pose proof (parse_stringify
                [("keySeedEncrypted", encrypt key n ks);
                 ("pathKeySeedEncrypted", encrypt key (S n) (bytesToHex (Buffer.be32 c)))]) as HP.
  unfold Js.strings in HP. cbn [map fst snd] in HP. rewrite HP.
  2:{ repeat constructor; simpl; intuition discriminate. }
  run_monad. unfold destructure_record, Js.string_prop. run_monad.
  cbn [Js.prop String.eqb Ascii.eqb Bool.eqb].
  cbn. rewrite !decrypt_encrypt. cbn.
  rewrite hexToBytes_bytesToHex, BufferFacts.read_be32 by assumption.
  reflexivity.
Qed.

Lemma increaseKeyPath_run m acc key tm tos nh clk ent tr ks c :
  JsString.truthy key = true ->
  readKeySeed key m = Ret (Some (ks, c)) ->
  increaseKeyPath (mkWorld m acc key tm tos nh clk ent tr)
  = if c <? Buffer.UINT32_MAX then
      let v := keySeedEntry key ent ks (Buffer.be32 (c + 1)) in
      if acc m keySeedLabel v
      then (Ret true,
            mkWorld (Storage.setItem keySeedLabel v m) acc key tm tos nh clk (S (S ent))
                    ((tr ++ keySeedReads m) ++ [LsSet keySeedLabel v]))
      else (Throw PersistenceFailure,
            mkWorld m acc key tm tos nh clk (S (S ent))
                    ((tr ++ keySeedReads m) ++ [LsSet keySeedLabel v]))
    else (Throw RangeError, mkWorld m acc key tm tos nh clk ent (tr ++ keySeedReads m)).
Proof.
  intros Hk Hr. pose proof (readKeySeed_bounds _ _ _ _ Hk Hr) as Hc.
  unfold increaseKeyPath, bind at 1, get_world, isUnlocked.
  cbn [encryptionKey]. rewrite Hk.
  unfold bind at 1. rewrite getKeySeed_run, Hr by assumption.
  destruct (Z.ltb_spec c Buffer.UINT32_MAX) as [Hlt|Hge].
  - rewrite (BufferFacts.write_in_range (c + 1)) by lia.
    run_monad. unfold keySeedLabel, keySeedEntry.
    destruct (acc m _ _); reflexivity.
  - rewrite BufferFacts.write_out_of_range by lia. reflexivity.
Qed.

(** C9: the persisted path counter is a 4-byte big-endian unsigned
    integer, hence at most 2^32 - 1.  On an Unlocked store whose counter
    is below 2^32 - 1, increaseKeyPath (its write taken by the backend)
    returns true and persists exactly the counter plus one; at 2^32 - 1
    the 4-byte write of the incremented value throws a RangeError, nothing
    is written, and the counter is still 2^32 - 1, not 0. *)
Theorem increaseKeyPath_counter (w : World) (keySeed : string) (c : Z) :
  isUnlocked w = true ->
  stored_keySeed (encryptionKey w) (localStorage w) keySeed c ->
  0 <= c <= 2 ^ 32 - 1
  /\ (c < 2 ^ 32 - 1 ->
      accepts w (localStorage w) keySeedLabel
              (keySeedEntry (encryptionKey w) (entropy w) keySeed (Buffer.be32 (c + 1))) = true ->
      fst (increaseKeyPath w) = Ret true
      /\ localStorage (snd (increaseKeyPath w))
         = Storage.setItem keySeedLabel
             (keySeedEntry (encryptionKey w) (entropy w) keySeed (Buffer.be32 (c + 1)))
             (localStorage w)
      /\ stored_keySeed (encryptionKey w) (localStorage (snd (increaseKeyPath w))) keySeed (c + 1))
  /\ (c = 2 ^ 32 - 1 ->
      fst (increaseKeyPath w) = Throw RangeError
      /\ localStorage (snd (increaseKeyPath w)) = localStorage w
      /\ stored_keySeed (encryptionKey w) (localStorage (snd (increaseKeyPath w))) keySeed c).
Proof.
  intros Hu [Hl Hr]. destruct w as [m acc key tm tos nh clk ent tr].
  unfold isUnlocked in Hu. cbn [encryptionKey localStorage accepts entropy] in *.
  pose proof (readKeySeed_bounds _ _ _ _ Hu Hr) as Hc.
  change (2 ^ 32 - 1) with Buffer.UINT32_MAX.
  split; [exact Hc|].
  rewrite (increaseKeyPath_run m acc key tm tos nh clk ent tr keySeed c Hu Hr).
  split.
  - intros Hlt Hacc.
    destruct (Z.ltb_spec c Buffer.UINT32_MAX); [|lia].
    cbv zeta. rewrite Hacc. cbn [fst snd localStorage].
    split; [reflexivity|]. split; [reflexivity|].
    assert (Hl' : listed (KCPREFIX ++ "keySeed")
                    (Storage.setItem keySeedLabel
                       (keySeedEntry key ent keySeed (Buffer.be32 (c + 1))) m)
                  = [KCPREFIX ++ "keySeed"])
      by (apply listed_setItem_same; exact Hl).
    split; [exact Hl'|].
    apply readKeySeed_written; [assumption | lia | exact Hl'].
  - intros ->.
    destruct (Z.ltb_spec Buffer.UINT32_MAX Buffer.UINT32_MAX); [lia|].
    cbn [fst snd localStorage]. repeat split; assumption.
Qed.

End Counter.

(** ** createKeys *)

Section CreateKeys.
Context {C : Constants} {P : Primitives} {L : PrimitiveLaws C P}.
Import LocalStorageContainer.

Lemma derived_key_at ks path k :
  derived_key ks path = Ret k ->
  exists root node address,
    fromMasterSeed (Some ks) = Ret root
    /\ derive root path = Ret node
    /\ privateToAddress (_privateKey node) = Ret address
    /\ k = mkDerived (bytesToHex address) (bytesToHex (_publicKey node))
                     (bytesToHex (_privateKey node)).
Proof.
  unfold derived_key, child.
  destruct (fromMasterSeed (Some ks)) as [root|]; [|discriminate].
  destruct (derive root _) as [node|] eqn:Hd; [|discriminate].
  destruct (privateToAddress _) as [address|] eqn:Ha; [|discriminate].
  intros [= <-]. exists root, node, address. auto.
Qed.

Lemma derived_key_inv ks path p i k :
  derived_key ks path = Ret k ->
  path = key_path p (Z.of_nat i) ->
  exists root node address,
    fromMasterSeed (Some ks) = Ret root
    /\ derive root (key_path p (Z.of_nat i)) = Ret node
    /\ privateToAddress (_privateKey node) = Ret address
    /\ k = mkDerived (bytesToHex address) (bytesToHex (_publicKey node))
                     (bytesToHex (_privateKey node)).
Proof.
  intros H ->. exact (derived_key_at _ _ _ H).
Qed.

Lemma key_label_not_keySeed b :
  JsString.startsWith (KCPREFIX ++ bytesToHex b) (KCPREFIX ++ "keySeed") = false.
Proof. rewrite StringFacts.startsWith_append_same. apply hex_not_keySeed. Qed.

(** a key entry leaves the key-seed record as it is *)
Lemma stored_keySeed_key_entry key m ks c b v :
  JsString.truthy key = true ->
  stored_keySeed key m ks c ->
  stored_keySeed key (Storage.setItem (DBPREFIX ++ KCPREFIX ++ bytesToHex b) v m) ks c.
Proof.
  intros Hk [Hl Hr]. split.
  - rewrite listed_setItem_other; [exact Hl | apply key_label_not_keySeed].
  - rewrite readKeySeed_setItem_other; [exact Hr | exact Hk | apply key_label_not_keySeed].
Qed.

Lemma derive_and_store_run root p i keys m acc key tm tos nh clk ent tr :
  derive_and_store root p i keys (mkWorld m acc key tm tos nh clk ent tr)
  = match derive root (key_path p (Z.of_nat i)) with
    | Throw e => (Throw e, mkWorld m acc key tm tos nh clk ent tr)
    | Ret node =>
        match privateToAddress (_privateKey node) with
        | Throw e => (Throw e, mkWorld m acc key tm tos nh clk ent tr)
        | Ret address =>
            let ct := encrypt key ent (bytesToHex (_privateKey node)) in
            let la := DBPREFIX ++ KCPREFIX ++ bytesToHex address in
            let lp := DBPREFIX ++ KCPREFIX ++ bytesToHex (_publicKey node) in
            if acc m la ct then
              if Nat.eqb i 0 then
                if acc (Storage.setItem la ct m) lp ct then
                  (Ret ((keys ++ [bytesToHex address]) ++ [bytesToHex (_publicKey node)])%list,
                   mkWorld (Storage.setItem lp ct (Storage.setItem la ct m))
                           acc key tm tos nh clk (S ent)
                           ((tr ++ [LsSet la ct]) ++ [LsSet lp ct]))
                else
                  (Throw PersistenceFailure,
                   mkWorld (Storage.setItem la ct m) acc key tm tos nh clk (S ent)
                           ((tr ++ [LsSet la ct]) ++ [LsSet lp ct]))
              else
                (Ret (keys ++ [bytesToHex address])%list,
                 mkWorld (Storage.setItem la ct m) acc key tm tos nh clk (S ent)
                         (tr ++ [LsSet la ct]))
            else
              (Throw PersistenceFailure,
               mkWorld m acc key tm tos nh clk (S ent) (tr ++ [LsSet la ct]))
        end
    end.
Proof.
  unfold derive_and_store. run_monad.
  destruct (derive root _) as [node|]; [|reflexivity].
  destruct (privateToAddress _) as [address|]; [|reflexivity].
  cbv zeta.
  destruct (acc m _ _); [|reflexivity].
  destruct (Nat.eqb i 0); [|reflexivity].
  cbn [localStorage accepts encryptionKey timer timeouts nextHandle clock entropy trace].
  destruct (acc _ _ _); reflexivity.
Qed.

Lemma generateKeysFromKeyPath_run ks c m acc key tm tos nh clk ent tr :
  JsString.truthy key = true ->
  generateKeysFromKeyPath (Some ks) (Some c) None (mkWorld m acc key tm tos nh clk ent tr)
  = if validateMnemonic ks then
      match fromMasterSeed (Some ks) with
      | Throw e => (Throw e, mkWorld m acc key tm tos nh clk ent tr)
      | Ret root =>
          (keys <- derive_loop root c 3 0 [] ;; ret (Some keys))
            (mkWorld m acc key tm tos nh clk ent tr)
      end
    else (Ret None, mkWorld m acc key tm tos nh clk ent tr).
Proof.
  intros Hk. unfold generateKeysFromKeyPath, mnemonic_or_random.
  unfold bind at 1, ret at 1. unfold bind at 1, get_world, isUnlocked.
  cbn [encryptionKey]. rewrite Hk. cbn [negb orb].
  destruct (validateMnemonic ks); [|reflexivity]. cbn [negb].
  unfold bind at 1, lift. destruct (fromMasterSeed (Some ks)); reflexivity.
Qed.

Lemma writes_of_keySeedReads m : filter is_write (keySeedReads m) = [].
Proof. unfold keySeedReads. destruct (listed _ m); reflexivity. Qed.

Lemma createKeys_run m acc key tm tos nh clk ent tr ks c :
  JsString.truthy key = true ->
  readKeySeed key m = Ret (Some (ks, c)) ->
  createKeys (mkWorld m acc key tm tos nh clk ent tr)
  = (r <- generateKeysFromKeyPath (Some ks) (Some c) None ;;
     match r with
     | Some keys => increaseKeyPath ;;; ret (Some keys)
     | None => throw TypeError
     end) (mkWorld m acc key tm tos nh clk ent (tr ++ keySeedReads m)).
Proof.
  intros Hk Hr.
  unfold createKeys, bind at 1, get_world, isUnlocked. cbn [encryptionKey]. rewrite Hk.
  unfold bind at 1. rewrite getKeySeed_run by assumption. rewrite Hr.
  reflexivity.
Qed.

Lemma createKeys_existing m acc key tm tos nh clk ent tr ks c k0 k1 k2 :
  JsString.truthy key = true ->
  stored_keySeed key m ks c ->
  validateMnemonic ks = true ->
  derived_key ks ("m/44'/60'/0'/" ++ JsString.of_Z c ++ "/0") = Ret k0 ->
  derived_key ks ("m/44'/60'/0'/" ++ JsString.of_Z c ++ "/1") = Ret k1 ->
  derived_key ks ("m/44'/60'/0'/" ++ JsString.of_Z c ++ "/2") = Ret k2 ->
  c < Buffer.UINT32_MAX ->
  let writes := (profile_writes key ent k0 k1 k2
                 ++ [(keySeedLabel, keySeedEntry key (3 + ent) ks (Buffer.be32 (c + 1)))])%list in
  writes_ok acc m writes = true ->
  exists tr',
    createKeys (mkWorld m acc key tm tos nh clk ent tr)
    = (Ret (Some [addressHex k0; pubKHex k0; addressHex k1; addressHex k2]),
       mkWorld (apply_writes writes m) acc key tm tos nh clk (5 + ent) tr')
    /\ writes_of tr' = (writes_of tr ++ map (fun kv => LsSet (fst kv) (snd kv)) writes)%list.
Proof.
  intros Hk Hs Hv H0 H1 H2 Hc writes Hw.
  destruct (derived_key_inv _ _ c 0%nat _ H0 eq_refl) as (root & n0 & a0 & Hroot & Hd0 & Ha0 & ->).
  destruct (derived_key_inv _ _ c 1%nat _ H1 eq_refl) as (root1 & n1 & a1 & Hroot1 & Hd1 & Ha1 & ->).
  destruct (derived_key_inv _ _ c 2%nat _ H2 eq_refl) as (root2 & n2 & a2 & Hroot2 & Hd2 & Ha2 & ->).
  rewrite Hroot in Hroot1, Hroot2. injection Hroot1 as <-. injection Hroot2 as <-.
  subst writes. unfold profile_writes in Hw. cbn [addressHex pubKHex privKHex app writes_ok] in Hw.
  repeat (apply andb_true_iff in Hw; destruct Hw as [? Hw]).
  destruct Hs as [Hl Hr].
  rewrite (createKeys_run m acc key tm tos nh clk ent tr ks c Hk Hr).
  unfold bind at 1. rewrite generateKeysFromKeyPath_run by assumption.
  rewrite Hv, Hroot.
  unfold derive_loop, bind, ret.
  rewrite derive_and_store_run, Hd0, Ha0. cbv zeta. rewrite H. cbn [Nat.eqb]. rewrite H3.
  rewrite derive_and_store_run, Hd1, Ha1. cbv zeta. rewrite H4. cbn [Nat.eqb].
  rewrite derive_and_store_run, Hd2, Ha2. cbv zeta. rewrite H5. cbn [Nat.eqb].
  match goal with
  | |- context [increaseKeyPath (mkWorld ?m3 _ _ _ _ _ _ _ _)] =>
      assert (Hs3 : stored_keySeed key m3 ks c)
        by (repeat apply stored_keySeed_key_entry; try assumption; now split)
  end.
  destruct Hs3 as [Hl3 Hr3].
  rewrite (increaseKeyPath_run _ _ _ _ _ _ _ _ _ _ _ Hk Hr3).
  destruct (Z.ltb_spec c Buffer.UINT32_MAX) as [_|]; [|lia].
  change (3 + ent)%nat with (S (S (S ent))) in *.
  cbv zeta. rewrite H6.
  eexists. split; [reflexivity|].
  unfold writes_of. rewrite !filter_app, !writes_of_keySeedReads.
  cbn [filter is_write map fst snd app]. rewrite !app_nil_r, <- !app_assoc.
  reflexivity.
Qed.
End CreateKeys.

Section Bootstrap.
Context {C : Constants} {P : Primitives} {L : PrimitiveLaws C P}.
Import LocalStorageContainer.

Lemma getMasterSeed_run m acc key tm tos nh clk ent tr :
  JsString.truthy key = true ->
  getMasterSeed None (mkWorld m acc key tm tos nh clk ent tr)
  = (Ret (readMasterSeed key m),
     mkWorld m acc key tm tos nh clk ent (tr ++ masterSeedReads m)).
Proof.
  intros Hk.
  unfold readMasterSeed, masterSeedReads, getMasterSeed, bind, get_world, isUnlocked,
    with_key, new_world.
  cbn [encryptionKey localStorage]. rewrite Hk, !listKeys_run.
  destruct (listed (KCPREFIX ++ "masterSeed") m) as [|k r]; [reflexivity|].
  unfold Db.get, ls_getItem, try_catch, kc_decrypt, lift_opt, throw, ret, log.
  cbn [localStorage trace accepts encryptionKey timer timeouts nextHandle clock entropy fst snd].
  rewrite <- app_assoc. cbn [app].
  destruct (Storage.getItem _ m) as [ct|]; [|reflexivity].
  destruct (decrypt key ct); reflexivity.
Qed.

Lemma generateKeySeed_run masterSeed m acc key tm tos nh clk ent tr :
  JsString.truthy key = true ->
  generateKeySeed masterSeed (mkWorld m acc key tm tos nh clk ent tr)
  = match fromMasterSeed masterSeed with
    | Throw e => (Throw e, mkWorld m acc key tm tos nh clk ent tr)
    | Ret root =>
        match derive root "m/44'/60'/0'" with
        | Throw e => (Throw e, mkWorld m acc key tm tos nh clk ent tr)
        | Ret nodeId =>
            let v := keySeedEntry key ent (entropyToMnemonic (_privateKey nodeId))
                                  (Buffer.be32 0) in
            if acc m keySeedLabel v
            then (Ret true,
                  mkWorld (Storage.setItem keySeedLabel v m) acc key tm tos nh clk (S (S ent))
                          (tr ++ [LsSet keySeedLabel v]))
            else (Throw PersistenceFailure,
                  mkWorld m acc key tm tos nh clk (S (S ent)) (tr ++ [LsSet keySeedLabel v]))
        end
    end.
Proof.
  intros Hk. unfold generateKeySeed, bind at 1, get_world, isUnlocked.
  cbn [encryptionKey]. rewrite Hk.
  unfold bind at 1, lift. destruct (fromMasterSeed masterSeed) as [root|]; [|reflexivity].
  unfold bind at 1. destruct (derive root _) as [nodeId|]; [|reflexivity].
  change (Buffer.writeUInt32BE 0) with (Some (Buffer.be32 0)).
  run_monad. unfold keySeedLabel, keySeedEntry. cbv zeta.
  destruct (acc m _ _); reflexivity.
Qed.

Lemma readKeySeed_listed_none key m :
  JsString.truthy key = true ->
  listed (KCPREFIX ++ "keySeed") m = [] -> readKeySeed key m = Ret None.
Proof. intros Hk Hl. rewrite readKeySeed_unfold by assumption. now rewrite Hl. Qed.

(** on a store without a record, createKeys first writes one with counter
    0, made from the master seed, and goes on as on a store that had it *)
Lemma createKeys_bootstrap m acc key tm tos nh clk ent tr root nodeId :
  JsString.truthy key = true ->
  listed (KCPREFIX ++ "keySeed") m = [] ->
  fromMasterSeed (readMasterSeed key m) = Ret root ->
  derive root "m/44'/60'/0'" = Ret nodeId ->
  let keySeed := entropyToMnemonic (_privateKey nodeId) in
  let v := keySeedEntry key ent keySeed (Buffer.be32 0) in
  acc m keySeedLabel v = true ->
  let w1 := mkWorld (Storage.setItem keySeedLabel v m) acc key tm tos nh clk (S (S ent))
                    (((tr ++ keySeedReads m) ++ masterSeedReads m) ++ [LsSet keySeedLabel v]) in
  bootstrap (mkWorld m acc key tm tos nh clk ent tr) = (Ret true, w1)
  /\ stored_keySeed key (localStorage w1) keySeed 0
  /\ createKeys (mkWorld m acc key tm tos nh clk ent tr) = createKeys w1.
Proof.
  intros Hk Hl Hroot Hd keySeed v Hacc w1.
  assert (Hboot : bootstrap (mkWorld m acc key tm tos nh clk ent tr) = (Ret true, w1)).
  { unfold bootstrap, bind at 1. rewrite getKeySeed_run by assumption.
    rewrite (readKeySeed_listed_none _ _ Hk Hl).
    unfold bind at 1. rewrite getMasterSeed_run by assumption.
    rewrite generateKeySeed_run by assumption.
    rewrite Hroot, Hd. cbv zeta. fold keySeed. fold v. now rewrite Hacc. }
  assert (Hl1 : listed (KCPREFIX ++ "keySeed") (localStorage w1) = [KCPREFIX ++ "keySeed"])
    by (apply listed_setItem_fresh; exact Hl).
  assert (Hs : stored_keySeed key (localStorage w1) keySeed 0).
  { split; [exact Hl1|]. apply readKeySeed_written; [assumption | unfold Buffer.UINT32_MAX; lia | exact Hl1]. }
  split; [exact Hboot|]. split; [exact Hs|].
  destruct Hs as [_ Hr1]. unfold w1 at 1.
  rewrite (createKeys_run _ _ _ _ _ _ _ _ _ _ _ Hk Hr1).
  unfold createKeys, bind at 1, get_world, isUnlocked. cbn [encryptionKey]. rewrite Hk.
  unfold bind at 1. rewrite getKeySeed_run by assumption.
  rewrite (readKeySeed_listed_none _ _ Hk Hl).
  unfold bind at 1. unfold bind at 1. rewrite getMasterSeed_run by assumption.
  unfold bind at 1. rewrite generateKeySeed_run by assumption.
  rewrite Hroot, Hd. cbv zeta. fold keySeed. fold v. rewrite Hacc.
  rewrite getKeySeed_run by assumption.
  fold w1 in Hr1. cbn [localStorage w1] in Hr1. unfold w1 in Hr1. cbn [localStorage] in Hr1.
  rewrite Hr1. reflexivity.
Qed.

End Bootstrap.

Section CounterInvariant.
Context {C : Constants} {P : Primitives} {L : PrimitiveLaws C P}.
Import LocalStorageContainer.

(** a call of createKeys that returns keys has advanced the counter by one *)
Lemma createKeys_success_inv m acc key tm tos nh clk ent tr ks c keys w' :
  JsString.truthy key = true ->
  stored_keySeed key m ks c ->
  createKeys (mkWorld m acc key tm tos nh clk ent tr) = (Ret (Some keys), w') ->
  encryptionKey w' = key /\ stored_keySeed key (localStorage w') ks (c + 1).
Proof.
  intros Hk Hs. pose proof Hs as [Hl Hr].
  rewrite (createKeys_run m acc key tm tos nh clk ent tr ks c Hk Hr).
  unfold bind at 1. rewrite generateKeysFromKeyPath_run by assumption.
  destruct (validateMnemonic ks); [|discriminate].
  destruct (fromMasterSeed (Some ks)) as [root|]; [|discriminate].
  unfold derive_loop, bind, ret.
  rewrite derive_and_store_run.
  destruct (derive root _) as [n0|]; [|discriminate].
  destruct (privateToAddress _) as [a0|]; [|discriminate].
  cbv zeta. destruct (acc m _ _); [|discriminate].
  cbn [Nat.eqb]. destruct (acc _ _ _); [|discriminate].
  rewrite derive_and_store_run.
  destruct (derive root _) as [n1|]; [|discriminate].
  destruct (privateToAddress _) as [a1|]; [|discriminate].
  cbv zeta. destruct (acc _ _ _); [|discriminate].
  cbn [Nat.eqb].
  rewrite derive_and_store_run.
  destruct (derive root _) as [n2|]; [|discriminate].
  destruct (privateToAddress _) as [a2|]; [|discriminate].
  cbv zeta. destruct (acc _ _ _); [|discriminate].
  cbn [Nat.eqb].
  match goal with
  | |- context [increaseKeyPath (mkWorld ?m3 _ _ _ _ _ _ _ _)] =>
      assert (Hs3 : stored_keySeed key m3 ks c)
        by (repeat apply stored_keySeed_key_entry; assumption)
  end.
  destruct Hs3 as [Hl3 Hr3].
  rewrite (increaseKeyPath_run _ _ _ _ _ _ _ _ _ _ _ Hk Hr3).
  pose proof (readKeySeed_bounds _ _ _ _ Hk Hr) as Hc.
  destruct (Z.ltb_spec c Buffer.UINT32_MAX) as [Hlt|]; [|discriminate].
  cbv zeta. destruct (acc _ _ _); [|discriminate].
  intros [= _ <-]. cbn [encryptionKey localStorage].
  split; [reflexivity|].
  assert (Hl' : forall v, listed (KCPREFIX ++ "keySeed")
                            (Storage.setItem keySeedLabel v
                               (Storage.setItem (DBPREFIX ++ KCPREFIX ++ bytesToHex a2)
                                  (encrypt key (S (S ent)) (bytesToHex (_privateKey n2)))
                                  (Storage.setItem (DBPREFIX ++ KCPREFIX ++ bytesToHex a1)
                                     (encrypt key (S ent) (bytesToHex (_privateKey n1)))
                                     (Storage.setItem (DBPREFIX ++ KCPREFIX ++ bytesToHex (_publicKey n0))
                                        (encrypt key ent (bytesToHex (_privateKey n0)))
                                        (Storage.setItem (DBPREFIX ++ KCPREFIX ++ bytesToHex a0)
                                           (encrypt key ent (bytesToHex (_privateKey n0))) m)))))
                          = [KCPREFIX ++ "keySeed"])
    by (intros v; apply listed_setItem_same; exact Hl3).
  split; [apply Hl'|].
  apply readKeySeed_written; [assumption | lia | apply Hl'].
Qed.

Lemma createKeys_times_counter (n : nat) :
  forall (w w' : World) (ks : string) (c : Z),
    isUnlocked w = true ->
    stored_keySeed (encryptionKey w) (localStorage w) ks c ->
    createKeys_times n w = Some w' ->
    encryptionKey w' = encryptionKey w
    /\ stored_keySeed (encryptionKey w') (localStorage w') ks (c + Z.of_nat n).
Proof.
  induction n as [|n IH]; intros w w' ks c Hu Hs.
  - intros [= <-]. rewrite Z.add_0_r. auto.
  - cbn [createKeys_times].
    destruct (createKeys w) as [[[keys|]|e] w1] eqn:E; try discriminate.
    intros Hn.
    destruct w as [m acc key tm tos nh clk ent tr].
    unfold isUnlocked in Hu. cbn [encryptionKey localStorage] in *.
    destruct (createKeys_success_inv _ _ _ _ _ _ _ _ _ _ _ _ _ Hu Hs E) as [Hk1 Hs1].
    assert (Hu1 : isUnlocked w1 = true) by (unfold isUnlocked; now rewrite Hk1).
    rewrite <- Hk1 in Hs1.
    destruct (IH w1 w' ks (c + 1) Hu1 Hs1 Hn) as [Hk' Hs'].
    split; [congruence|].
    replace (c + Z.of_nat (S n)) with (c + 1 + Z.of_nat n) by lia.
    exact Hs'.
Qed.

End CounterInvariant.

(** ** The example instance meets the laws *)

Module ExampleFacts.
Import Example.

Lemma toy_decrypt_encrypt k n m : toy_decrypt k (toy_encrypt k n m) = Some m.
Proof.
  unfold toy_decrypt, toy_encrypt.
  rewrite <- StringFacts.append_assoc.
  pose proof (StringFacts.startsWith_self (k ++ ":") m) as Hp.
  unfold JsString.startsWith in Hp. rewrite Hp. f_equal.
  replace (String.length k + 1)%nat with (String.length (k ++ ":"))
    by (rewrite StringFacts.length_append; reflexivity).
  apply StringFacts.drop_append.
Qed.

Lemma byte_hex (x : byte) :
  match unhex_digit (hex_digit (Byte.to_N x / 16)),
        unhex_digit (hex_digit (Byte.to_N x mod 16)) with
  | Some h, Some l => Byte.of_N (16 * h + l)
  | _, _ => None
  end = Some x.
Proof. destruct x; vm_compute; reflexivity. Qed.

Lemma bytes_of_hex_of_bytes b : bytes_of_hex (hex_of_bytes b) = b.
Proof.
  induction b as [|x b IH]; [reflexivity|].
  cbn [hex_of_bytes bytes_of_hex].
  pose proof (byte_hex x) as H.
  destruct (unhex_digit (hex_digit (Byte.to_N x / 16))) as [h|]; [|discriminate].
  destruct (unhex_digit (hex_digit (Byte.to_N x mod 16))) as [l|]; [|discriminate].
  rewrite H, IH. reflexivity.
Qed.

Lemma toy_hexToBytes_bytesToHex b : toy_hexToBytes (toy_bytesToHex b) = b.
Proof.
  unfold toy_hexToBytes, toy_bytesToHex.
  rewrite (StringFacts.startsWith_self "0x" (hex_of_bytes b)).
  change 2%nat with (String.length "0x").
  rewrite StringFacts.drop_append. apply bytes_of_hex_of_bytes.
Qed.

Lemma read_string_escape s rest :
  read_string (escape s ++ String quote rest) = Some (s, rest).
Proof.
  induction s as [|c s IH]; [reflexivity|].
  cbn [escape].
  destruct (Ascii.eqb c quote) eqn:Eq; cbn [orb].
  - cbn [append read_string]. rewrite Ascii.eqb_sym.
    apply Ascii.eqb_eq in Eq. subst c. cbn. now rewrite IH.
  - destruct (Ascii.eqb c backslash) eqn:Eb.
    + apply Ascii.eqb_eq in Eb. subst c. cbn. now rewrite IH.
    + cbn [append read_string]. rewrite Eq, Eb, IH. reflexivity.
Qed.

Lemma read_quoted_quoted s rest : read_quoted (quoted s ++ rest) = Some (s, rest).
Proof.
  unfold quoted. cbn [append read_quoted]. cbn [Ascii.eqb Bool.eqb quote].
  rewrite StringFacts.append_assoc. apply read_string_escape.
Qed.

Lemma read_members_print (fields : list (string * string)) :
  forall fuel kv,
    (length fields < fuel)%nat ->
    read_members fuel (String.concat "," (map member (kv :: fields)) ++ "}")
    = Some (map (fun kv => (fst kv, JStr (snd kv))) (kv :: fields)).
Proof.
  induction fields as [|kv' fields IH]; intros fuel kv Hf.
  - destruct fuel as [|fuel]; [lia|].
    cbn [map String.concat read_members]. unfold member.
    rewrite !StringFacts.append_assoc, read_quoted_quoted.
    cbn [append]. cbn [Ascii.eqb Bool.eqb].
    rewrite read_quoted_quoted. reflexivity.
  - destruct fuel as [|fuel]; [simpl in Hf; lia|].
    change (map member (kv :: kv' :: fields)) with (member kv :: map member (kv' :: fields)).
    change (String.concat "," (member kv :: map member (kv' :: fields)))
      with (member kv ++ "," ++ String.concat "," (map member (kv' :: fields))).
    cbn [read_members]. unfold member at 1.
    rewrite !StringFacts.append_assoc, read_quoted_quoted.
    cbn [append]. cbn [Ascii.eqb Bool.eqb].
    rewrite read_quoted_quoted. cbn [Ascii.eqb Bool.eqb].
    rewrite IH by (simpl in Hf; lia). reflexivity.
Qed.

Lemma members_length (l : list (string * string)) :
  (length l <= String.length (String.concat "," (map member l)))%nat.
Proof.
  induction l as [|kv [|kv' l] IH]; [simpl; lia | |].
  - simpl. lia.
  - change (map member (kv :: kv' :: l)) with (member kv :: map member (kv' :: l)).
    change (String.concat "," (member kv :: map member (kv' :: l)))
      with (member kv ++ "," ++ String.concat "," (map member (kv' :: l))).
    rewrite !StringFacts.length_append. cbn [length] in *. unfold member at 1, quoted.
    cbn [append String.length]. lia.
Qed.

Lemma read_print (fields : list (string * string)) :
  let o := JObj (map (fun kv => (fst kv, JStr (snd kv))) fields) in
  read (print o) = Some o.
Proof.
  destruct fields as [|kv fields]; [reflexivity|].
  cbv zeta. cbn [print]. rewrite map_map.
  change (map (fun x => quoted (fst (fst x, JStr (snd x))) ++ ":" ++ print (snd (fst x, JStr (snd x))))
              (kv :: fields))
    with (map member (kv :: fields)).
  unfold read.
  set (body := String.concat "," (map member (kv :: fields))).
  assert (Hbody : exists r, body = String quote r).
  { unfold body. destruct fields; cbn [map String.concat]; unfold member, quoted;
      cbn [append]; eexists; reflexivity. }
  destruct Hbody as [r Hr].
  assert (Hlen : (length fields < String.length ("{" ++ body ++ "}"))%nat).
  { cbn [append String.length]. rewrite StringFacts.length_append.
    pose proof (members_length (kv :: fields)). fold body in H.
    cbn [length] in H. lia. }
  rewrite Hr in *. cbn [append String.eqb Ascii.eqb Bool.eqb quote].
  change (String quote (r ++ "}")) with (String quote r ++ "}").
  rewrite <- Hr in *.
  unfold body. rewrite read_members_print; [reflexivity|].
  cbn [append String.length] in Hlen. unfold body in Hlen.
  cbn [String.length]. lia.
Qed.

#[export] Instance laws : PrimitiveLaws constants primitives.
Proof.
  constructor.
  - exact toy_decrypt_encrypt.
  - exact toy_hexToBytes_bytesToHex.
  - intros fields _. apply read_print.
  - intros b. reflexivity.
Qed.

End ExampleFacts.

Section CreateKeysTheorems.
Context {C : Constants} {P : Primitives} {L : PrimitiveLaws C P}.
Import LocalStorageContainer.

Lemma getKeySeed_reads w :
  isUnlocked w = true ->
  fst (getKeySeed w) = readKeySeed (encryptionKey w) (localStorage w).
Proof.
  destruct w as [m acc key tm tos nh clk ent tr]. unfold isUnlocked. cbn [encryptionKey localStorage].
  intros Hk. now rewrite getKeySeed_run.
Qed.

Lemma stored_pathCounter w ks c :
  isUnlocked w = true ->
  stored_keySeed (encryptionKey w) (localStorage w) ks c -> pathCounter w = Some c.
Proof.
  intros Hu [_ Hr]. unfold pathCounter. rewrite getKeySeed_reads by assumption.
  now rewrite Hr.
Qed.

Lemma locked_world_unchanged (o : op) (w : World) :
  isUnlocked w = false -> snd (exec o w) = w.
Proof.
  intros H. unfold isUnlocked in H.
  destruct o; cbn;
    unfold of_keys, of_bool, of_string, of_keySeed, createKeys, generateKeySeed,
      getKeySeed, increaseKeyPath, generateSingleKey, generateRecoveryAddr,
      generateKeyRand, importKey, sign, getMasterSeed, Db.export,
      bind, get_world, ret, isUnlocked;
    rewrite H; reflexivity.
Qed.

(** C3: on an Unlocked store with a KeySeedRecord (keySeed, c), createKeys
    derives the three keys at (keySeed, c, i) for i = 0, 1, 2, which are
    the keys of keySeed at the paths m/44'/60'/0'/c/0, m/44'/60'/0'/c/1 and
    m/44'/60'/0'/c/2, writes each key's encrypted private key under its
    address and the one of key 0 under its raw public key as well, then
    writes the record with counter c + 1 (the single call of
    increaseKeyPath), and returns the identifiers; these five writes are
    all it writes.  On a store without a record it first writes one with
    counter 0, derived from the master seed, and goes on as on the store
    that has it. *)
Theorem createKeys_derives_and_persists (w : World) :
  isUnlocked w = true ->
  (forall ks c k0 k1 k2,
      stored_keySeed (encryptionKey w) (localStorage w) ks c ->
      validateMnemonic ks = true ->
      derived_key ks ("m/44'/60'/0'/" ++ JsString.of_Z c ++ "/0") = Ret k0 ->
      derived_key ks ("m/44'/60'/0'/" ++ JsString.of_Z c ++ "/1") = Ret k1 ->
      derived_key ks ("m/44'/60'/0'/" ++ JsString.of_Z c ++ "/2") = Ret k2 ->
      c < 2 ^ 32 - 1 ->
      let writes :=
        (profile_writes (encryptionKey w) (entropy w) k0 k1 k2
         ++ [(keySeedLabel,
              keySeedEntry (encryptionKey w) (3 + entropy w) ks (Buffer.be32 (c + 1)))])%list in
      writes_ok (accepts w) (localStorage w) writes = true ->
      fst (createKeys w) = Ret (Some [addressHex k0; pubKHex k0; addressHex k1; addressHex k2])
      /\ localStorage (snd (createKeys w)) = apply_writes writes (localStorage w)
      /\ writes_of (trace (snd (createKeys w)))
         = (writes_of (trace w) ++ map (fun kv => LsSet (fst kv) (snd kv)) writes)%list
      /\ stored_keySeed (encryptionKey w) (localStorage (snd (createKeys w))) ks (c + 1))
  /\ (forall root nodeId,
        listed (KCPREFIX ++ "keySeed") (localStorage w) = [] ->
        fromMasterSeed (readMasterSeed (encryptionKey w) (localStorage w)) = Ret root ->
        derive root "m/44'/60'/0'" = Ret nodeId ->
        let keySeed := entropyToMnemonic (_privateKey nodeId) in
        let v := keySeedEntry (encryptionKey w) (entropy w) keySeed (Buffer.be32 0) in
        accepts w (localStorage w) keySeedLabel v = true ->
        fst (bootstrap w) = Ret true
        /\ localStorage (snd (bootstrap w)) = Storage.setItem keySeedLabel v (localStorage w)
        /\ isUnlocked (snd (bootstrap w)) = true
        /\ stored_keySeed (encryptionKey w) (localStorage (snd (bootstrap w))) keySeed 0
        /\ createKeys w = createKeys (snd (bootstrap w))).
Proof.
  intros Hu. destruct w as [m acc key tm tos nh clk ent tr].
  unfold isUnlocked in Hu. cbn [encryptionKey localStorage accepts entropy trace] in *.
  split.
  - intros ks c k0 k1 k2 Hs Hv H0 H1 H2 Hc Hw.
    destruct (createKeys_existing m acc key tm tos nh clk ent tr ks c k0 k1 k2
                Hu Hs Hv H0 H1 H2 Hc Hw) as [tr' [E Htr]].
    cbv zeta in E. rewrite E. cbn [fst snd localStorage trace].
    repeat split; try assumption; try reflexivity.
    + unfold apply_writes. rewrite fold_left_app. cbn [fold_left fst snd].
      apply listed_setItem_same.
      destruct (derived_key_inv _ _ c 0%nat _ H0 eq_refl) as (? & ? & ? & _ & _ & _ & ->).
      destruct (derived_key_inv _ _ c 1%nat _ H1 eq_refl) as (? & ? & ? & _ & _ & _ & ->).
      destruct (derived_key_inv _ _ c 2%nat _ H2 eq_refl) as (? & ? & ? & _ & _ & _ & ->).
      cbn [addressHex pubKHex privKHex].
      apply (stored_keySeed_key_entry key _ ks c); [assumption|].
      repeat (apply stored_keySeed_key_entry; [assumption|]). exact Hs.
    + unfold apply_writes. rewrite fold_left_app. cbn [fold_left fst snd].
      pose proof (readKeySeed_bounds _ _ _ _ Hu (proj2 Hs)) as Hb.
      destruct (derived_key_inv _ _ c 0%nat _ H0 eq_refl) as (? & ? & ? & _ & _ & _ & ->).
      destruct (derived_key_inv _ _ c 1%nat _ H1 eq_refl) as (? & ? & ? & _ & _ & _ & ->).
      destruct (derived_key_inv _ _ c 2%nat _ H2 eq_refl) as (? & ? & ? & _ & _ & _ & ->).
      cbn [addressHex pubKHex privKHex].
      apply readKeySeed_written; [assumption | unfold Buffer.UINT32_MAX; lia |].
      apply listed_setItem_same.
      apply (stored_keySeed_key_entry key _ ks c); [assumption|].
      repeat (apply stored_keySeed_key_entry; [assumption|]). exact Hs.
  - intros root nodeId Hl Hroot Hd Hacc.
    destruct (createKeys_bootstrap m acc key tm tos nh clk ent tr root nodeId
                Hu Hl Hroot Hd Hacc) as (Hb & Hs & E).
    cbv zeta in Hb, Hs, E.
    rewrite Hb. cbn [fst snd localStorage] in *. unfold isUnlocked. cbn [encryptionKey].
    repeat split; try assumption; try reflexivity; apply Hs.
Qed.

Lemma createKeys_refused_run m acc key tm tos nh clk ent tr ks c k0 k1 k2 :
  JsString.truthy key = true ->
  stored_keySeed key m ks c ->
  validateMnemonic ks = true ->
  derived_key ks ("m/44'/60'/0'/" ++ JsString.of_Z c ++ "/0") = Ret k0 ->
  derived_key ks ("m/44'/60'/0'/" ++ JsString.of_Z c ++ "/1") = Ret k1 ->
  derived_key ks ("m/44'/60'/0'/" ++ JsString.of_Z c ++ "/2") = Ret k2 ->
  writes_ok acc m (profile_writes key ent k0 k1 k2) = false ->
  exists e tr',
    createKeys (mkWorld m acc key tm tos nh clk ent tr)
    = (Throw PersistenceFailure,
       mkWorld (apply_writes (accepted acc m (profile_writes key ent k0 k1 k2)) m)
               acc key tm tos nh clk e tr').
Proof.
  intros Hu Hs Hv H0 H1 H2.
  destruct (derived_key_inv _ _ c 0%nat _ H0 eq_refl) as (root & n0 & a0 & Hroot & Hd0 & Ha0 & ->).
  destruct (derived_key_inv _ _ c 1%nat _ H1 eq_refl) as (root1 & n1 & a1 & Hroot1 & Hd1 & Ha1 & ->).
  destruct (derived_key_inv _ _ c 2%nat _ H2 eq_refl) as (root2 & n2 & a2 & Hroot2 & Hd2 & Ha2 & ->).
  rewrite Hroot in Hroot1, Hroot2. injection Hroot1 as <-. injection Hroot2 as <-.
  unfold profile_writes, apply_writes. cbn [addressHex pubKHex privKHex writes_ok accepted].
  pose proof Hs as [Hl Hr].
  rewrite (createKeys_run m acc key tm tos nh clk ent tr ks c Hu Hr).
  unfold bind at 1. rewrite generateKeysFromKeyPath_run by assumption.
  rewrite Hv, Hroot. unfold derive_loop, bind, ret.
  rewrite derive_and_store_run, Hd0, Ha0. cbv zeta.
  destruct (acc m _ _); [|intros _; eexists _, _; reflexivity].
  cbn [Nat.eqb andb]. destruct (acc _ _ _); [|intros _; eexists _, _; reflexivity].
  rewrite derive_and_store_run, Hd1, Ha1. cbv zeta.
  cbn [andb]. destruct (acc _ _ _); [|intros _; eexists _, _; reflexivity].
  cbn [Nat.eqb andb].
  rewrite derive_and_store_run, Hd2, Ha2. cbv zeta.
  destruct (acc _ _ _); [discriminate|].
  intros _; eexists _, _; reflexivity.
Qed.

(** the accepted writes of a profile leave the record as it is *)
Lemma stored_keySeed_accepted acc key ent m ks c k0 k1 k2 :
  JsString.truthy key = true ->
  derived_key ks ("m/44'/60'/0'/" ++ JsString.of_Z c ++ "/0") = Ret k0 ->
  derived_key ks ("m/44'/60'/0'/" ++ JsString.of_Z c ++ "/1") = Ret k1 ->
  derived_key ks ("m/44'/60'/0'/" ++ JsString.of_Z c ++ "/2") = Ret k2 ->
  stored_keySeed key m ks c ->
  stored_keySeed key (apply_writes (accepted acc m (profile_writes key ent k0 k1 k2)) m) ks c.
Proof.
  intros Hu H0 H1 H2 Hs.
  destruct (derived_key_inv _ _ c 0%nat _ H0 eq_refl) as (? & ? & ? & _ & _ & _ & ->).
  destruct (derived_key_inv _ _ c 1%nat _ H1 eq_refl) as (? & ? & ? & _ & _ & _ & ->).
  destruct (derived_key_inv _ _ c 2%nat _ H2 eq_refl) as (? & ? & ? & _ & _ & _ & ->).
  unfold profile_writes, apply_writes. cbn [addressHex pubKHex privKHex accepted].
  repeat (match goal with
          | |- context [if ?b then _ else _] => destruct b
          end; cbn [fold_left fst snd accepted]);
    repeat apply stored_keySeed_key_entry; assumption.
Qed.

(** C4, as the code has it: when the backend refuses one of the writes of
    the derived keys, createKeys throws and the writes made before the
    refusal stay in the store.  On a store with a key-seed record, the
    record and its counter are as before.  On a store without one, the
    record that createKeys wrote first, with the counter 0, stays as well:
    the counter goes from absent to 0. *)
Theorem createKeys_refused_write (w : World) :
  isUnlocked w = true ->
  (forall ks c k0 k1 k2,
      stored_keySeed (encryptionKey w) (localStorage w) ks c ->
      validateMnemonic ks = true ->
      derived_key ks ("m/44'/60'/0'/" ++ JsString.of_Z c ++ "/0") = Ret k0 ->
      derived_key ks ("m/44'/60'/0'/" ++ JsString.of_Z c ++ "/1") = Ret k1 ->
      derived_key ks ("m/44'/60'/0'/" ++ JsString.of_Z c ++ "/2") = Ret k2 ->
      writes_ok (accepts w) (localStorage w)
                (profile_writes (encryptionKey w) (entropy w) k0 k1 k2) = false ->
      fst (createKeys w) = Throw PersistenceFailure
      /\ localStorage (snd (createKeys w))
         = apply_writes (accepted (accepts w) (localStorage w)
                                  (profile_writes (encryptionKey w) (entropy w) k0 k1 k2))
                        (localStorage w)
      /\ stored_keySeed (encryptionKey w) (localStorage (snd (createKeys w))) ks c
      /\ pathCounter (snd (createKeys w)) = pathCounter w)
  /\ (forall root nodeId k0 k1 k2,
        listed (KCPREFIX ++ "keySeed") (localStorage w) = [] ->
        fromMasterSeed (readMasterSeed (encryptionKey w) (localStorage w)) = Ret root ->
        derive root "m/44'/60'/0'" = Ret nodeId ->
        let keySeed := entropyToMnemonic (_privateKey nodeId) in
        let v := keySeedEntry (encryptionKey w) (entropy w) keySeed (Buffer.be32 0) in
        let m1 := Storage.setItem keySeedLabel v (localStorage w) in
        let writes := profile_writes (encryptionKey w) (2 + entropy w) k0 k1 k2 in
        accepts w (localStorage w) keySeedLabel v = true ->
        validateMnemonic keySeed = true ->
        derived_key keySeed "m/44'/60'/0'/0/0" = Ret k0 ->
        derived_key keySeed "m/44'/60'/0'/0/1" = Ret k1 ->
        derived_key keySeed "m/44'/60'/0'/0/2" = Ret k2 ->
        writes_ok (accepts w) m1 writes = false ->
        fst (createKeys w) = Throw PersistenceFailure
        /\ localStorage (snd (createKeys w)) = apply_writes (accepted (accepts w) m1 writes) m1
        /\ pathCounter w = None
        /\ pathCounter (snd (createKeys w)) = Some 0).
Proof.
  intros Hu. split.
  - intros ks c k0 k1 k2 Hs Hv H0 H1 H2 Hw.
    assert (Hpc : pathCounter w = Some c) by (now apply (stored_pathCounter w ks c)).
    rewrite Hpc. clear Hpc.
    destruct w as [m acc key tm tos nh clk ent tr].
    unfold isUnlocked in Hu. cbn [encryptionKey localStorage accepts entropy trace] in *.
    destruct (createKeys_refused_run m acc key tm tos nh clk ent tr ks c k0 k1 k2
                Hu Hs Hv H0 H1 H2 Hw) as (e & tr' & E).
    rewrite E. cbn [fst snd localStorage].
    pose proof (stored_keySeed_accepted acc key ent m ks c k0 k1 k2 Hu H0 H1 H2 Hs) as Hs'.
    split; [reflexivity|]. split; [reflexivity|]. split; [exact Hs'|].
    apply (stored_pathCounter _ ks c); [exact Hu | exact Hs'].
  - intros root nodeId k0 k1 k2 Hl Hroot Hd keySeed v m1 writes Hacc Hv H0 H1 H2 Hw.
    assert (Hnone : pathCounter w = None).
    { unfold pathCounter. rewrite getKeySeed_reads by exact Hu.
      now rewrite (readKeySeed_listed_none _ _ Hu Hl). }
    rewrite Hnone. clear Hnone.
    destruct w as [m acc key tm tos nh clk ent tr].
    unfold isUnlocked in Hu. cbn [encryptionKey localStorage accepts entropy trace] in *.
    subst writes m1 v keySeed.
    destruct (createKeys_bootstrap m acc key tm tos nh clk ent tr root nodeId
                Hu Hl Hroot Hd Hacc) as (_ & Hs & E).
    cbv zeta in Hs, E. cbn [localStorage] in Hs.
    destruct (createKeys_refused_run _ acc key tm tos nh clk (S (S ent))
                (((tr ++ keySeedReads m) ++ masterSeedReads m)
                 ++ [LsSet keySeedLabel
                       (keySeedEntry key ent (entropyToMnemonic (_privateKey nodeId))
                                     (Buffer.be32 0))])%list
                _ 0 k0 k1 k2 Hu Hs Hv H0 H1 H2 Hw) as (e & tr' & E').
    rewrite E, E'. cbn [fst snd localStorage].
    pose proof (stored_keySeed_accepted acc key (S (S ent)) _ _ 0 k0 k1 k2 Hu H0 H1 H2 Hs)
      as Hs'.
    split; [reflexivity|]. split; [reflexivity|]. split; [reflexivity|].
    apply (stored_pathCounter _ (entropyToMnemonic (_privateKey nodeId)) 0);
      [exact Hu | exact Hs'].
Qed.

(** C2, as the code has it: on an Unlocked store whose KeySeedRecord holds
    the counter c, after n calls of createKeys in a row that return keys
    the persisted counter is c + n, which is not below c; a successful
    increaseKeyPath adds exactly one; and a lock-guarded operation called
    while Locked changes nothing in the store. *)
Theorem pathCounter_after_createKeys (n : nat) (w w' : World) (ks : string) (c : Z) :
  isUnlocked w = true ->
  stored_keySeed (encryptionKey w) (localStorage w) ks c ->
  createKeys_times n w = Some w' ->
  pathCounter w = Some c
  /\ pathCounter w' = Some (c + Z.of_nat n)
  /\ c <= c + Z.of_nat n
  /\ (fst (increaseKeyPath w) = Ret true -> pathCounter (snd (increaseKeyPath w)) = Some (c + 1))
  /\ (forall (o : op) (w0 : World), isUnlocked w0 = false -> snd (exec o w0) = w0).
Proof.
  intros Hu Hs Hn.
  destruct (createKeys_times_counter n w w' ks c Hu Hs Hn) as [Hk Hs'].
  split; [now apply (stored_pathCounter w ks c)|].
  split.
  { apply (stored_pathCounter w' ks (c + Z.of_nat n)); [|exact Hs'].
    unfold isUnlocked in *. now rewrite Hk. }
  split; [lia|].
  split; [|exact locked_world_unchanged].
  destruct w as [m acc key tm tos nh clk ent tr].
  unfold isUnlocked in Hu. cbn [encryptionKey localStorage] in *.
  destruct Hs as [Hl Hr].
  pose proof (readKeySeed_bounds _ _ _ _ Hu Hr) as Hb.
  rewrite (increaseKeyPath_run m acc key tm tos nh clk ent tr ks c Hu Hr).
  destruct (Z.ltb_spec c Buffer.UINT32_MAX); [|discriminate].
  cbv zeta. destruct (acc m _ _); [|discriminate].
  intros _. cbn [snd].
  apply (stored_pathCounter _ ks (c + 1)); [exact Hu|].
  cbn [encryptionKey localStorage].
  assert (Hl' : listed (KCPREFIX ++ "keySeed")
                  (Storage.setItem keySeedLabel
                     (keySeedEntry key ent ks (Buffer.be32 (c + 1))) m)
                = [KCPREFIX ++ "keySeed"])
    by (apply listed_setItem_same; exact Hl).
  split; [exact Hl'|]. apply readKeySeed_written; [assumption | lia | exact Hl'].
Qed.

End CreateKeysTheorems.

(** ** Recovery address, signing, import and export guards *)

Section Lookups.
Context {C : Constants} {P : Primitives}.
Import LocalStorageContainer.

(** C10: getRecoveryAddr is lock-guarded although it only lists labels:
    called while Locked it returns undefined and touches nothing, the same
    result as on an Unlocked store without a recovery record.  While
    Unlocked its only storage access is the listing of the keys, and its
    result does not depend on which key unlocks the store. *)
Theorem getRecoveryAddr_locked_as_absent (w1 w2 : World) :
  isUnlocked w1 = false ->
  isUnlocked w2 = true ->
  listed (KCPREFIX ++ IDRECOVERYPREFIX) (localStorage w2) = [] ->
  getRecoveryAddr w1 = (Ret None, w1)
  /\ fst (getRecoveryAddr w2) = Ret None
  /\ fst (getRecoveryAddr w1) = fst (getRecoveryAddr w2)
  /\ trace (snd (getRecoveryAddr w2)) = (trace w2 ++ [LsKeys])%list
  /\ localStorage (snd (getRecoveryAddr w2)) = localStorage w2
  /\ (forall k, JsString.truthy k = true ->
                fst (getRecoveryAddr (with_key k w2)) = fst (getRecoveryAddr w2)).
Proof.
  intros H1 H2 Hl.
  assert (E1 : getRecoveryAddr w1 = (Ret None, w1)).
  { unfold getRecoveryAddr, bind, get_world, ret. now rewrite H1. }
  destruct w2 as [m acc key tm tos nh clk ent tr].
  unfold isUnlocked in H2. cbn [encryptionKey localStorage trace] in *.
  assert (E2 : forall k, JsString.truthy k = true ->
               getRecoveryAddr (mkWorld m acc k tm tos nh clk ent tr)
               = (Ret None, mkWorld m acc k tm tos nh clk ent (tr ++ [LsKeys]))).
  { intros k Hk. unfold getRecoveryAddr, bind at 1, get_world, isUnlocked.
    cbn [encryptionKey]. rewrite Hk. unfold bind. rewrite listKeys_run, Hl. reflexivity. }
  rewrite E1, (E2 key H2). cbn [fst snd trace localStorage].
  repeat split; try reflexivity.
  intros k Hk. unfold with_key. cbn [localStorage accepts timer timeouts nextHandle clock entropy trace].
  now rewrite (E2 k Hk).
Qed.

Lemma sign_run addressHex data m acc key tm tos nh clk ent tr :
  JsString.truthy key = true ->
  sign addressHex data (mkWorld m acc key tm tos nh clk ent tr)
  = let w1 := mkWorld m acc key tm tos nh clk ent
                      (tr ++ [LsGet (DBPREFIX ++ KCPREFIX ++ addressHex)]) in
    match Storage.getItem (DBPREFIX ++ KCPREFIX ++ addressHex) m with
    | None => (Throw TypeError, w1)
    | Some c =>
        match decrypt key c with
        | None => (Throw DecryptionFailure, w1)
        | Some privKHex =>
            let message := toBuffer data in
            let msgHash := hashPersonalMessage message in
            match ecsign msgHash (hexToBytes privKHex) with
            | Ret sig =>
                (Ret (VSignature (concatSignature message msgHash (fst (fst sig))
                                                  (snd (fst sig)) (snd sig))), w1)
            | Throw e => (Throw e, w1)
            end
        end
    end.
Proof.
  intros Hk. unfold sign, bind at 1, get_world. cbn [encryptionKey]. rewrite Hk. cbn [negb].
  run_monad.
  destruct (Storage.getItem _ m) as [c|]; run_monad; [|reflexivity].
  destruct (decrypt key c) as [pk|]; run_monad; [|reflexivity].
  cbv zeta. destruct (ecsign _ _); reflexivity.
Qed.


Lemma import_run dbEncr (w : World) :
  Db.import dbEncr w
  = match decrypt (encryptionKey w) dbEncr with
    | None => (Throw DecryptionFailure, w)
    | Some dbExpStr =>
        match JSON_parse dbExpStr with
        | None => (Throw SyntaxError, w)
        | Some dbExp =>
            if Js.shadows_hasOwnProperty dbExp then (Throw TypeError, w)
            else Db.import_loop (Js.ownEntries dbExp) w
        end
    end.
Proof.
  unfold Db.import. run_monad.
  destruct (decrypt (encryptionKey w) dbEncr) as [s|]; run_monad; [|reflexivity].
  destruct (JSON_parse s) as [j|]; [|reflexivity].
  destruct (Js.shadows_hasOwnProperty j); reflexivity.
Qed.

(** C7, as the code has it: export called while Locked returns undefined
    and reads nothing.  import has no lock guard of its own: called while
    Locked it hands the empty key to the decryption, and throws the
    decryption failure on every blob that the empty key does not open,
    writing nothing.  In any state import throws the decryption failure
    when the blob does not open under the current key, and a SyntaxError
    when the decrypted payload is not JSON text; a payload that is JSON is
    not checked for being an entry-set: import writes its own enumerable
    properties, which for null, a boolean, a number or the empty object are
    none.  Only an object with a property named hasOwnProperty is refused,
    with the TypeError of the loop's own call. *)
Theorem export_import_failures (w : World) :
  (forall idAddr ksign, isUnlocked w = false -> Db.export idAddr ksign w = (Ret None, w))
  /\ (forall dbEncr,
        isUnlocked w = false ->
        decrypt EmptyString dbEncr = None ->
        Db.import dbEncr w = (Throw DecryptionFailure, w))
  /\ (forall dbEncr,
        decrypt (encryptionKey w) dbEncr = None ->
        Db.import dbEncr w = (Throw DecryptionFailure, w))
  /\ (forall dbEncr dbExpStr,
        decrypt (encryptionKey w) dbEncr = Some dbExpStr ->
        JSON_parse dbExpStr = None ->
        Db.import dbEncr w = (Throw SyntaxError, w))
  /\ (forall dbEncr dbExpStr dbExp,
        decrypt (encryptionKey w) dbEncr = Some dbExpStr ->
        JSON_parse dbExpStr = Some dbExp ->
        Js.shadows_hasOwnProperty dbExp = false ->
        Db.import dbEncr w = Db.import_loop (Js.ownEntries dbExp) w
        /\ (Js.ownEntries dbExp = [] -> Db.import dbEncr w = (Ret tt, w)))
  /\ (forall dbEncr dbExpStr dbExp,
        decrypt (encryptionKey w) dbEncr = Some dbExpStr ->
        JSON_parse dbExpStr = Some dbExp ->
        Js.shadows_hasOwnProperty dbExp = true ->
        Db.import dbEncr w = (Throw TypeError, w)).
Proof.
  split; [|split; [|split; [|split; [|split]]]].
  - intros idAddr ksign Hl. unfold isUnlocked in Hl.
    unfold Db.export, bind, get_world, ret. now rewrite Hl.
  - intros dbEncr Hl Hd. unfold isUnlocked in Hl.
    rewrite import_run.
    destruct (encryptionKey w); [|discriminate Hl]. now rewrite Hd.
  - intros dbEncr Hd. now rewrite import_run, Hd.
  - intros dbEncr s Hd Hp. now rewrite import_run, Hd, Hp.
  - intros dbEncr s j Hd Hp Hh. rewrite import_run, Hd, Hp, Hh.
    split; [reflexivity|]. now intros ->.
  - intros dbEncr s j Hd Hp Hh. now rewrite import_run, Hd, Hp, Hh.
Qed.

(** C8, at the failing run: unlock at time 0, unlock again at 20 s, then
    10 s pass.  The first timer is still pending after the second unlock
    and fires at 30 s: the store is Locked 10 s after the latest unlock,
    20 s before its own timeout. *)
Theorem second_unlock_keeps_first_timer (m : Storage.t)
        (acc : Storage.t -> string -> string -> bool) (p1 p2 : string) :
  let w1 := snd (unlock p1 (new_world m acc)) in
  let w2 := advance 20000 w1 in
  let w3 := snd (unlock p2 w2) in
  let w4 := advance 10000 w3 in
  clock w3 = 20000%N
  /\ isUnlocked w3 = JsString.truthy (passToKey p2 "salt")
  /\ timeouts w3 = [(0%nat, 30000%N); (1%nat, 50000%N)]
  /\ clock w4 = 30000%N
  /\ isUnlocked w4 = false
  /\ timeouts w4 = [(1%nat, 50000%N)].
Proof. cbv zeta. repeat split. Qed.

End Lookups.

(** ** Export and import *)

Module ObjectFacts.
Import Js.

Lemma assign_strings k v o : assign k (JStr v) (strings o) = strings (assign k v o).
Proof.
  unfold strings. induction o as [|[k' v'] o IH]; [reflexivity|].
  cbn [map assign fst snd]. destruct (String.eqb k' k); [reflexivity|].
  cbn [map fst snd]. now rewrite IH.
Qed.

Lemma set_strings k v o : set k (JStr v) (strings o) = strings (set k v o).
Proof. unfold set. destruct (String.eqb k "__proto__"); [reflexivity | apply assign_strings]. Qed.

Lemma assign_In {A} k (v : A) o : In (k, v) (assign k v o).
Proof.
  induction o as [|[k' v'] o IH]; [now left|].
  cbn [assign]. destruct (String.eqb k' k); [now left | now right].
Qed.

Lemma assign_In_other {A} k (v : A) k' v' o :
  k' <> k -> In (k', v') o -> In (k', v') (assign k v o).
Proof.
  intros Hne. induction o as [|[k0 v0] o IH]; [contradiction|].
  cbn [assign]. intros [E|Hin].
  - injection E as -> ->. apply String.eqb_neq in Hne. rewrite Hne. now left.
  - destruct (String.eqb k0 k); [now right | right; auto].
Qed.

Lemma assign_In_inv {A} k (v : A) kv o : In kv (assign k v o) -> kv = (k, v) \/ In kv o.
Proof.
  induction o as [|[k0 v0] o IH]; cbn [assign].
  - intros [<-|[]]. now left.
  - destruct (String.eqb k0 k).
    + intros [<-|Hin]; [now left | right; now right].
    + intros [<-|Hin]; [right; now left|].
      destruct (IH Hin); [now left | right; now right].
Qed.

Lemma assign_NoDup {A} k (v : A) o : NoDup (map fst o) -> NoDup (map fst (assign k v o)).
Proof.
  induction o as [|[k0 v0] o IH]; cbn [assign map fst].
  - intros _. repeat constructor. intros [].
  - intros Hnd. inversion Hnd as [|x l Hnotin Hnd']; subst.
    destruct (String.eqb k0 k) eqn:E; cbn [map fst].
    + apply String.eqb_eq in E. subst k0. now constructor.
    + constructor; [|auto].
      intros Hin. apply in_map_iff in Hin. destruct Hin as [[k1 v1] [Hk Hin]].
      cbn [fst] in Hk. subst k1.
      destruct (assign_In_inv _ _ _ _ Hin) as [Heq|Hin'].
      * injection Heq as -> _. now rewrite String.eqb_refl in E.
      * apply Hnotin. apply in_map_iff. now exists (k0, v1).
Qed.

Lemma prop_strings_none name o :
  (forall v, ~ In (name, v) o) -> prop name (strings o) = None.
Proof.
  unfold strings. induction o as [|[k v] o IH]; intros Hnot; [reflexivity|].
  cbn [map prop fst snd]. rewrite IH by (intros v' Hin; apply (Hnot v'); now right).
  destruct (String.eqb_spec k name) as [->|]; [|reflexivity].
  exfalso. apply (Hnot v). now left.
Qed.

Lemma strings_not_shadowing o :
  (forall v, ~ In ("hasOwnProperty", v) o) -> shadows_hasOwnProperty (JObj (strings o)) = false.
Proof. intros H. unfold shadows_hasOwnProperty. now rewrite prop_strings_none. Qed.

Lemma ownEntries_strings o : ownEntries (JObj (strings o)) = o.
Proof.
  unfold strings. cbn [ownEntries]. rewrite map_map. cbn [fst snd toString].
  induction o as [|[k v] o IH]; [reflexivity|]. cbn [map fst snd]. now rewrite IH.
Qed.

End ObjectFacts.

Module ApplyFacts.
Import Storage.

Lemma keys_in_getItem k m : In k (keys m) -> exists v, getItem k m = Some v.
Proof.
  unfold keys. induction m as [|[k0 v0] m IH]; cbn [map fst getItem]; [contradiction|].
  intros [->|Hin].
  - rewrite String.eqb_refl. now exists v0.
  - destruct (String.eqb k0 k); [now exists v0 | auto].
Qed.

Lemma getItem_fold_other k (l : list (string * string)) :
  forall m, ~ In k (map fst l) ->
            getItem k (fold_left (fun m kv => setItem (fst kv) (snd kv) m) l m) = getItem k m.
Proof.
  induction l as [|[k0 v0] l IH]; intros m Hnot; [reflexivity|].
  cbn [fold_left fst snd]. rewrite IH.
  - apply StorageFacts.getItem_setItem_ne. intros ->. apply Hnot. now left.
  - intros Hin. apply Hnot. now right.
Qed.

(** after a list of writes with distinct keys, each key reads as written *)
Lemma getItem_fold (l : list (string * string)) :
  forall m k v,
    NoDup (map fst l) -> In (k, v) l ->
    getItem k (fold_left (fun m kv => setItem (fst kv) (snd kv) m) l m) = Some v.
Proof.
  induction l as [|[k0 v0] l IH]; intros m k v Hnd Hin; [contradiction|].
  cbn [map fst] in Hnd. inversion Hnd as [|x r Hnotin Hnd']; subst.
  cbn [fold_left fst snd]. destruct Hin as [E|Hin].
  - injection E as -> ->. rewrite getItem_fold_other by assumption.
    apply StorageFacts.getItem_setItem_eq.
  - now apply IH.
Qed.

End ApplyFacts.

Section RoundTrip.
Context {C : Constants} {P : Primitives} {L : PrimitiveLaws C P}.

Lemma export_loop_run m acc key tm tos nh clk ent (ks : list string) :
  (forall k, In k ks -> In k (Storage.keys m)) ->
  forall o tr,
  exists tr',
    Db.export_loop ks (Js.strings o) (mkWorld m acc key tm tos nh clk ent tr)
    = (Ret (Js.strings (fold_left (export_step m) ks o)),
       mkWorld m acc key tm tos nh clk ent tr').
Proof.
  induction ks as [|k ks IH]; intros Hin o tr.
  - exists tr. reflexivity.
  - cbn [Db.export_loop fold_left]. unfold export_step at 2.
    destruct (JsString.contains k DBPREFIX).
    + destruct (ApplyFacts.keys_in_getItem k m (Hin k (or_introl eq_refl))) as [v Hv].
      run_monad. rewrite Hv. cbn [Js.of_item]. rewrite ObjectFacts.set_strings.
      apply IH. intros k' Hk'. apply Hin. now right.
    + apply IH. intros k' Hk'. apply Hin. now right.
Qed.

Lemma export_run idAddr ksign m acc key tm tos nh clk ent tr :
  JsString.truthy key = true ->
  exists tr',
    Db.export idAddr ksign (mkWorld m acc key tm tos nh clk ent tr)
    = (Ret (Some (encrypt key ent (JSON_stringify (JObj (Js.strings (exported_entries m)))))),
       mkWorld m acc key tm tos nh clk (S ent) tr').
Proof.
  intros Hk. unfold Db.export, bind at 1, get_world. cbn [encryptionKey]. rewrite Hk.
  cbn [negb]. unfold bind at 1, ls_keys, log.
  cbn [localStorage accepts encryptionKey timer timeouts nextHandle clock entropy trace].
  unfold bind at 1.
  destruct (export_loop_run m acc key tm tos nh clk ent (Storage.keys m) (fun k H => H)
              [] (tr ++ [LsKeys])) as [tr' E].
  change (Js.strings []) with (@nil (string * json)) in E. rewrite E.
  exists tr'. reflexivity.
Qed.

Lemma exported_fold m (ks : list string) :
  forall o,
    NoDup (map fst o) ->
    (forall k v, In (k, v) o ->
                 Storage.getItem k m = Some v /\ JsString.contains k DBPREFIX = true) ->
    let o' := fold_left (export_step m) ks o in
    NoDup (map fst o')
    /\ (forall k v, In (k, v) o' ->
                    Storage.getItem k m = Some v /\ JsString.contains k DBPREFIX = true)
    /\ (forall kv, In kv o -> In kv o')
    /\ (forall k v, In k ks -> JsString.contains k DBPREFIX = true -> k <> "__proto__" ->
                    Storage.getItem k m = Some v -> In (k, v) o').
Proof.
  induction ks as [|k ks IH]; intros o Hnd Hval.
  - cbn. split; [assumption|]. split; [assumption|]. split; [auto|]. intros k v [].
  - cbn [fold_left].
    assert (Hstep : NoDup (map fst (export_step m o k))
                    /\ (forall k' v', In (k', v') (export_step m o k) ->
                                      Storage.getItem k' m = Some v'
                                      /\ JsString.contains k' DBPREFIX = true)
                    /\ (forall kv, In kv o -> In kv (export_step m o k))
                    /\ (forall v, JsString.contains k DBPREFIX = true -> k <> "__proto__" ->
                                  Storage.getItem k m = Some v -> In (k, v) (export_step m o k))).
    { unfold export_step. destruct (JsString.contains k DBPREFIX) eqn:Hc.
      2:{ split; [assumption|]. split; [assumption|]. split; [auto|]. discriminate. }
      destruct (Storage.getItem k m) as [v|] eqn:Hv.
      2:{ split; [assumption|]. split; [assumption|]. split; [auto|]. discriminate. }
      unfold Js.set. destruct (String.eqb k "__proto__") eqn:Ep.
      { apply String.eqb_eq in Ep.
        split; [assumption|]. split; [assumption|]. split; [auto|]. intros; contradiction. }
      split; [now apply ObjectFacts.assign_NoDup|].
      split.
      { intros k' v' Hin. destruct (ObjectFacts.assign_In_inv _ _ _ _ Hin) as [E|Hin'].
        - injection E as -> ->. now split.
        - auto. }
      split.
      { intros [k1 v1] Hin. destruct (String.eqb_spec k1 k) as [->|Hne].
        - rewrite (proj1 (Hval _ _ Hin)) in Hv. injection Hv as ->. apply ObjectFacts.assign_In.
        - now apply ObjectFacts.assign_In_other. }
      intros v0 _ _ [= <-]. apply ObjectFacts.assign_In. }
    destruct Hstep as (Hnd1 & Hval1 & Hmono1 & Hcov1).
    destruct (IH (export_step m o k) Hnd1 Hval1) as (Hnd2 & Hval2 & Hmono2 & Hcov2).
    cbv zeta. split; [assumption|]. split; [assumption|]. split; [auto|].
    intros k' v' [<-|Hin] Hc Hp Hg; auto.
Qed.

Lemma exported_entries_spec m :
  NoDup (map fst (exported_entries m))
  /\ (forall k v, In (k, v) (exported_entries m) -> JsString.contains k DBPREFIX = true)
  /\ (forall k v, JsString.contains k DBPREFIX = true -> k <> "__proto__" ->
                  Storage.getItem k m = Some v -> In (k, v) (exported_entries m)).
Proof.
  destruct (exported_fold m (Storage.keys m) [] (NoDup_nil _) (fun k v H => match H with end))
    as (Hnd & Hval & _ & Hcov).
  split; [exact Hnd|].
  split; [intros k v Hin; exact (proj2 (Hval k v Hin))|].
  intros k v Hc Hp Hg. apply Hcov; auto. now apply (StorageFacts.getItem_in_keys k v).
Qed.

Lemma import_loop_run acc key tm tos nh clk ent (l : list (string * string)) :
  forall m tr,
    writes_ok acc m l = true ->
    exists tr',
      Db.import_loop l (mkWorld m acc key tm tos nh clk ent tr)
      = (Ret tt, mkWorld (apply_writes l m) acc key tm tos nh clk ent tr').
Proof.
  induction l as [|[k v] l IH]; intros m tr Hw.
  - exists tr. reflexivity.
  - cbn [writes_ok] in Hw. apply andb_true_iff in Hw. destruct Hw as [Ha Hw].
    cbn [Db.import_loop]. run_monad. rewrite Ha.
    destruct (IH (Storage.setItem k v m) (tr ++ [LsSet k v])%list Hw) as [tr' E].
    exists tr'. rewrite E. reflexivity.
Qed.

(** C6: export on an Unlocked store, then import of the returned blob into
    a store unlocked with the same key (an emptied one, or any other)
    whose backend takes the writes: import returns, and every entry of the
    namespace (a key that contains the prefix) present at export time is
    there again with the same value.  The prefix is assumed not to be a
    fragment of the property names __proto__ (which an assignment on the
    exported object does not create) and hasOwnProperty (which the import
    loop calls on the parsed object). *)
Theorem export_import_roundtrip (w w2 : World) (idAddr ksign : string) :
  isUnlocked w = true ->
  encryptionKey w2 = encryptionKey w ->
  JsString.contains "__proto__" DBPREFIX = false ->
  JsString.contains "hasOwnProperty" DBPREFIX = false ->
  writes_ok (accepts w2) (localStorage w2) (exported_entries (localStorage w)) = true ->
  exists blob,
    fst (Db.export idAddr ksign w) = Ret (Some blob)
    /\ fst (Db.import blob w2) = Ret tt
    /\ localStorage (snd (Db.import blob w2))
       = apply_writes (exported_entries (localStorage w)) (localStorage w2)
    /\ forall k v,
         JsString.contains k DBPREFIX = true ->
         Storage.getItem k (localStorage w) = Some v ->
         Storage.getItem k (localStorage (snd (Db.import blob w2))) = Some v.
Proof.
  intros Hu Hkey Hproto Hown Hw.
  destruct w as [m acc key tm tos nh clk ent tr].
  destruct w2 as [m2 acc2 key2 tm2 tos2 nh2 clk2 ent2 tr2].
  unfold isUnlocked in Hu. cbn [encryptionKey localStorage accepts] in *. subst key2.
  destruct (export_run idAddr ksign m acc key tm tos nh clk ent tr Hu) as [tr' E].
  eexists. rewrite E. split; [reflexivity|].
  destruct (exported_entries_spec m) as (Hnd & Hin & Hcov).
  rewrite import_run. cbn [encryptionKey].
  rewrite decrypt_encrypt, (parse_stringify _ Hnd), ObjectFacts.ownEntries_strings.
  rewrite ObjectFacts.strings_not_shadowing.
  2:{ intros v Hv. rewrite (Hin _ _ Hv) in Hown. discriminate. }
  destruct (import_loop_run acc2 key tm2 tos2 nh2 clk2 ent2 _ m2 tr2 Hw) as [tr2' E2].
  rewrite E2. cbn [fst snd localStorage].
  split; [reflexivity|]. split; [reflexivity|].
  intros k v Hc Hg. unfold apply_writes. apply ApplyFacts.getItem_fold; [exact Hnd|].
  apply Hcov; auto. intros ->. rewrite Hproto in Hc. discriminate.
Qed.

End RoundTrip.

(** ** The theorems at work on the example stores *)

Module Runs.
Import Example ExampleFacts LocalStorageContainer.

Lemma profiled_record :
  stored_keySeed (encryptionKey profiled) (localStorage profiled) keySeed0 1.
Proof. split; by_run. Qed.

Lemma saturated_record :
  stored_keySeed (encryptionKey saturated) (localStorage saturated) keySeed0 4294967295.
Proof. split; by_run. Qed.

Lemma limited_record :
  stored_keySeed (encryptionKey limited) (localStorage limited) keySeed0 1.
Proof. split; by_run. Qed.

Lemma locked_sign_run :
  isUnlocked fresh = false
  /\ exec (Sign "0x01" "hello") fresh = (Ret (VString "KeyContainer blocked"), fresh).
Proof.
  split; [by_run|].
  exact (proj1 (locked_operations_do_not_proceed (Sign "0x01" "hello") fresh ltac:(by_run))).
Defined.

Lemma increaseKeyPath_runs :
  (isUnlocked profiled = true
   /\ stored_keySeed (encryptionKey profiled) (localStorage profiled) keySeed0 1
   /\ fst (increaseKeyPath profiled) = Ret true
   /\ stored_keySeed (encryptionKey profiled)
                     (localStorage (snd (increaseKeyPath profiled))) keySeed0 (1 + 1))
  /\ (isUnlocked saturated = true
      /\ stored_keySeed (encryptionKey saturated) (localStorage saturated) keySeed0 4294967295
      /\ fst (increaseKeyPath saturated) = Throw RangeError
      /\ stored_keySeed (encryptionKey saturated)
                        (localStorage (snd (increaseKeyPath saturated))) keySeed0 4294967295).
Proof.
  split.
  - split; [by_run|]. split; [exact profiled_record|].
    destruct (increaseKeyPath_counter profiled keySeed0 1 ltac:(by_run) profiled_record)
      as (_ & Hinc & _).
    destruct (Hinc ltac:(by_run) ltac:(by_run)) as (H1 & _ & H3).
    split; [exact H1 | exact H3].
  - split; [by_run|]. split; [exact saturated_record|].
    destruct (increaseKeyPath_counter saturated keySeed0 4294967295 ltac:(by_run) saturated_record)
      as (_ & _ & Hmax).
    destruct (Hmax ltac:(by_run)) as (H1 & _ & H3).
    split; [exact H1 | exact H3].
Defined.

Lemma createKeys_runs :
  isUnlocked profiled = true
  /\ derived_key keySeed0 "m/44'/60'/0'/1/0" = Ret (key_at "m/44'/60'/0'/1/0")
  /\ derived_key keySeed0 "m/44'/60'/0'/1/1" = Ret (key_at "m/44'/60'/0'/1/1")
  /\ derived_key keySeed0 "m/44'/60'/0'/1/2" = Ret (key_at "m/44'/60'/0'/1/2")
  /\ fst (createKeys profiled)
     = Ret (Some [addressHex (key_at "m/44'/60'/0'/1/0"); pubKHex (key_at "m/44'/60'/0'/1/0");
                  addressHex (key_at "m/44'/60'/0'/1/1");
                  addressHex (key_at "m/44'/60'/0'/1/2")])
  /\ stored_keySeed (encryptionKey profiled) (localStorage (snd (createKeys profiled)))
                    keySeed0 (1 + 1)
  /\ isUnlocked seeded = true
  /\ listed (KCPREFIX ++ "keySeed") (localStorage seeded) = []
  /\ createKeys seeded = createKeys (snd (bootstrap seeded)).
Proof.
  split; [by_run|]. split; [by_run|]. split; [by_run|]. split; [by_run|].
  destruct (createKeys_derives_and_persists profiled ltac:(by_run)) as [Hex _].
  destruct (Hex keySeed0 1 (key_at "m/44'/60'/0'/1/0") (key_at "m/44'/60'/0'/1/1")
                (key_at "m/44'/60'/0'/1/2") profiled_record
                ltac:(by_run) ltac:(by_run) ltac:(by_run) ltac:(by_run) ltac:(by_run)
                ltac:(by_run)) as (H1 & _ & _ & H4).
  split; [exact H1|]. split; [exact H4|].
  split; [by_run|]. split; [by_run|].
  destruct (createKeys_derives_and_persists seeded ltac:(by_run)) as [_ Hboot].
  exact (proj2 (proj2 (proj2 (proj2
           (Hboot ("words a b c") ("words a b c/m/44'/60'/0'")
                  ltac:(by_run) ltac:(by_run) ltac:(by_run) ltac:(by_run)))))).
Defined.

Lemma two_more_profiles :
  isUnlocked profiled = true
  /\ stored_keySeed (encryptionKey profiled) (localStorage profiled) keySeed0 1
  /\ createKeys_times 2 profiled = Some after_two
  /\ pathCounter after_two = Some (1 + Z.of_nat 2).
Proof.
  split; [by_run|]. split; [exact profiled_record|].
  assert (H : createKeys_times 2 profiled = Some after_two) by by_run.
  split; [exact H|].
  exact (proj1 (proj2 (pathCounter_after_createKeys 2 profiled after_two keySeed0 1
                         ltac:(by_run) profiled_record H))).
Defined.

(** generateKeySeed on a store whose counter is 1 writes a record with
    counter 0; and deleteAll, which has no lock guard, removes the record
    of a Locked store *)
Lemma pathCounter_decreases :
  isUnlocked profiled = true
  /\ pathCounter profiled = Some 1
  /\ fst (generateKeySeed (Some "words a b c") profiled) = Ret true
  /\ pathCounter (snd (generateKeySeed (Some "words a b c") profiled)) = Some 0
  /\ isUnlocked relocked = false
  /\ pathCounter (snd (unlock "pw" relocked)) = Some 1
  /\ isUnlocked (snd (deleteAll relocked)) = false
  /\ pathCounter (snd (unlock "pw" (snd (deleteAll relocked)))) = None.
Proof. repeat apply conj; by_run. Qed.

Lemma refused_write_run :
  (isUnlocked limited = true
   /\ writes_ok (accepts limited) (localStorage limited)
                (profile_writes (encryptionKey limited) (entropy limited)
                                (key_at "m/44'/60'/0'/1/0") (key_at "m/44'/60'/0'/1/1")
                                (key_at "m/44'/60'/0'/1/2")) = false
   /\ fst (createKeys limited) = Throw PersistenceFailure
   /\ pathCounter (snd (createKeys limited)) = pathCounter limited)
  /\ (isUnlocked Example2.cramped = true
      /\ listed (KCPREFIX ++ "keySeed") (localStorage Example2.cramped) = []
      /\ fst (createKeys Example2.cramped) = Throw PersistenceFailure
      /\ pathCounter Example2.cramped = None
      /\ pathCounter (snd (createKeys Example2.cramped)) = Some 0).
Proof.
  split.
  - split; [by_run|].
    assert (Hw : writes_ok (accepts limited) (localStorage limited)
                   (profile_writes (encryptionKey limited) (entropy limited)
                                   (key_at "m/44'/60'/0'/1/0") (key_at "m/44'/60'/0'/1/1")
                                   (key_at "m/44'/60'/0'/1/2")) = false)
      by by_run.
    split; [exact Hw|].
    destruct (createKeys_refused_write limited ltac:(by_run)) as [Hex _].
    destruct (Hex keySeed0 1 (key_at "m/44'/60'/0'/1/0") (key_at "m/44'/60'/0'/1/1")
                  (key_at "m/44'/60'/0'/1/2")
                  limited_record ltac:(by_run) ltac:(by_run) ltac:(by_run)
                  ltac:(by_run) Hw) as (H1 & _ & _ & H4).
    split; [exact H1 | exact H4].
  - split; [by_run|]. split; [by_run|].
    destruct (createKeys_refused_write Example2.cramped ltac:(by_run)) as [_ Hboot].
    destruct (Hboot ("words a b c") ("words a b c/m/44'/60'/0'")
                    (key_at "m/44'/60'/0'/0/0") (key_at "m/44'/60'/0'/0/1")
                    (key_at "m/44'/60'/0'/0/2")
                    ltac:(by_run) ltac:(by_run) ltac:(by_run) ltac:(by_run) ltac:(by_run)
                    ltac:(by_run) ltac:(by_run) ltac:(by_run) ltac:(by_run))
      as (H1 & _ & H3 & H4).
    split; [exact H1|]. split; [exact H3 | exact H4].
Defined.

(** a refused write in the middle of createKeys leaves the entry written
    before it in the store: the call fails, the counter stays, and the
    address of the new profile's key 0 is there *)
Lemma createKeys_partial_state :
  isUnlocked limited = true
  /\ fst (createKeys limited) = Throw PersistenceFailure
  /\ pathCounter (snd (createKeys limited)) = pathCounter limited
  /\ Storage.getItem (DBPREFIX ++ KCPREFIX ++ addressHex (key_at "m/44'/60'/0'/1/0")) (localStorage limited)
     = None
  /\ Storage.getItem (DBPREFIX ++ KCPREFIX ++ addressHex (key_at "m/44'/60'/0'/1/0"))
                     (localStorage (snd (createKeys limited)))
     = Some (encrypt (encryptionKey limited) (entropy limited) (privKHex (key_at "m/44'/60'/0'/1/0")))
  /\ localStorage (snd (createKeys limited)) <> localStorage limited.
Proof.
  repeat apply conj; try by_run.
  intros H.
  assert (E : Storage.getItem (DBPREFIX ++ KCPREFIX ++ addressHex (key_at "m/44'/60'/0'/1/0"))
                (localStorage (snd (createKeys limited)))
              = Storage.getItem (DBPREFIX ++ KCPREFIX ++ addressHex (key_at "m/44'/60'/0'/1/0"))
                  (localStorage limited)) by (now rewrite H).
  vm_compute in E. discriminate E.
Qed.


Lemma roundtrip_run :
  isUnlocked profiled = true
  /\ encryptionKey emptied = encryptionKey profiled
  /\ localStorage emptied = []
  /\ exists blob,
       fst (Db.export "id" "ksign" profiled) = Ret (Some blob)
       /\ fst (Db.import blob emptied) = Ret tt
       /\ forall k v,
            JsString.contains k DBPREFIX = true ->
            Storage.getItem k (localStorage profiled) = Some v ->
            Storage.getItem k (localStorage (snd (Db.import blob emptied))) = Some v.
Proof.
  split; [by_run|]. split; [by_run|]. split; [by_run|].
  destruct (export_import_roundtrip profiled emptied "id" "ksign"
              ltac:(by_run) ltac:(by_run) ltac:(by_run) ltac:(by_run) ltac:(by_run))
    as (blob & H1 & H2 & _ & H4).
  exists blob. split; [exact H1|]. split; [exact H2 | exact H4].
Defined.

Lemma import_failure_runs :
  isUnlocked fresh = false
  /\ Db.export "id" "ksign" fresh = (Ret None, fresh)
  /\ Db.import Example2.patch_blob fresh = (Throw DecryptionFailure, fresh)
  /\ Db.import "garbage" profiled = (Throw DecryptionFailure, profiled)
  /\ Db.import (encrypt (encryptionKey profiled) 0 "not json") profiled
     = (Throw SyntaxError, profiled)
  /\ Db.import Example2.shadowing_blob profiled = (Throw TypeError, profiled).
Proof.
  split; [by_run|].
  destruct (export_import_failures fresh) as (Hexp & Hlocked & _).
  destruct (export_import_failures profiled) as (_ & _ & Hdec & Hsyn & _ & Hown).
  split; [exact (Hexp "id" "ksign" ltac:(by_run))|].
  split; [exact (Hlocked Example2.patch_blob ltac:(by_run) ltac:(by_run))|].
  split; [exact (Hdec "garbage" ltac:(by_run))|].
  split.
  - exact (Hsyn (@encrypt primitives (encryptionKey profiled) 0%nat "not json") "not json"
                ltac:(by_run) ltac:(by_run)).
  - exact (Hown Example2.shadowing_blob (@JSON_stringify primitives Example2.shadowing)
                Example2.shadowing ltac:(by_run) ltac:(by_run) ltac:(by_run)).
Defined.

(** import takes a blob whose payload is the JSON text null, or a JSON
    string: it returns without an error, and for the string it writes one
    entry per character *)
Lemma import_accepts_non_entry_sets :
  isUnlocked profiled = true
  /\ decrypt (encryptionKey profiled) (encrypt (encryptionKey profiled) 0 "null") = Some "null"
  /\ JSON_parse "null" = Some JNull
  /\ fst (Db.import (encrypt (encryptionKey profiled) 0 "null") profiled) = Ret tt
  /\ localStorage (snd (Db.import (encrypt (encryptionKey profiled) 0 "null") profiled))
     = localStorage profiled
  /\ JSON_parse (quoted "ab") = Some (JStr "ab")
  /\ fst (Db.import (encrypt (encryptionKey emptied) 0 (quoted "ab")) emptied) = Ret tt
  /\ localStorage (snd (Db.import (encrypt (encryptionKey emptied) 0 (quoted "ab")) emptied))
     = [("0", "a"); ("1", "b")].
Proof. repeat apply conj; by_run. Qed.

Lemma recovery_runs :
  isUnlocked fresh = false
  /\ isUnlocked profiled = true
  /\ listed (KCPREFIX ++ IDRECOVERYPREFIX) (localStorage profiled) = []
  /\ getRecoveryAddr fresh = (Ret None, fresh)
  /\ fst (getRecoveryAddr profiled) = Ret None.
Proof.
  split; [by_run|]. split; [by_run|]. split; [by_run|].
  destruct (getRecoveryAddr_locked_as_absent fresh profiled
              ltac:(by_run) ltac:(by_run) ltac:(by_run)) as (H1 & H2 & _).
  split; [exact H1 | exact H2].
Defined.

(** the run of C8 on the example instance: Unlocked at 20 s, Locked at
    30 s *)
Lemma early_autolock_run :
  let w3 := snd (unlock "pw" (advance 20000 (snd (unlock "pw" fresh)))) in
  isUnlocked w3 = true
  /\ clock w3 = 20000%N
  /\ clock (advance 10000 w3) = 30000%N
  /\ isUnlocked (advance 10000 w3) = false
  /\ isUnlocked (advance 29999 (snd (unlock "pw" fresh))) = true.
Proof. cbv zeta. repeat apply conj; by_run. Qed.

End Runs.

(* ================================================================== *)
(** ** The auto-lock timer *)
(* ================================================================== *)

Section AutoLock.
Context {C : Constants} {P : Primitives}.
Import LocalStorageContainer.

Lemma autolock_window (passphrase : string) (dt : N) m acc key tm nh clk ent tr :
  isUnlocked (advance dt (snd (unlock passphrase (mkWorld m acc key tm [] nh clk ent tr))))
  = JsString.truthy (passToKey passphrase "salt") && (dt <? AUTOLOCK_MS)%N.
Proof.
  unfold unlock, advance, with_timers, with_key, with_clock, isUnlocked, AUTOLOCK_MS.
  cbn [snd localStorage accepts encryptionKey timer timeouts nextHandle clock entropy trace
       app filter].
  destruct (N.leb_spec (clk + 30000) (clk + dt)) as [H|H];
    destruct (N.ltb_spec dt 30000) as [H'|H']; try lia; cbn [negb encryptionKey JsString.truthy].
  - now rewrite andb_false_r.
  - now rewrite andb_true_r.
Qed.

(** X1: after [unlock] on a container with no timer pending, the container
    is Unlocked for the next 30000 ms and Locked from then on (for a key
    that is not empty). *)
Theorem autolock_after_unlock (w : World) (passphrase : string) (dt : N) :
  timeouts w = [] ->
  isUnlocked (advance dt (snd (unlock passphrase w)))
  = JsString.truthy (passToKey passphrase "salt") && (dt <? AUTOLOCK_MS)%N.
Proof.
  destruct w as [m acc key tm tos nh clk ent tr]. cbn [timeouts].
  intros ->. apply autolock_window.
Qed.





End AutoLock.

(* ================================================================== *)
(** ** The master seed and [saveObject] *)
(* ================================================================== *)

Section MasterSeed.
Context {C : Constants} {P : Primitives} {L : PrimitiveLaws C P}.
Import LocalStorageContainer.

Lemma generateMasterSeed_run (mnemonic : string) m acc key tm tos nh clk ent tr :
  generateMasterSeed (Some mnemonic) (mkWorld m acc key tm tos nh clk ent tr)
  = if JsString.truthy key && validateMnemonic mnemonic then
      let l := DBPREFIX ++ KCPREFIX ++ "masterSeed" in
      let v := encrypt key ent mnemonic in
      if acc m l v
      then (Ret true, mkWorld (Storage.setItem l v m) acc key tm tos nh clk (S ent)
                              (tr ++ [LsSet l v]))
      else (Throw PersistenceFailure,
            mkWorld m acc key tm tos nh clk (S ent) (tr ++ [LsSet l v]))
    else (Ret false, mkWorld m acc key tm tos nh clk ent tr).
Proof.
  unfold generateMasterSeed, saveMasterSeed, mnemonic_or_random. run_monad.
  destruct (JsString.truthy key && validateMnemonic mnemonic); [|reflexivity].
  run_monad. cbv zeta.
  destruct (acc m (DBPREFIX ++ KCPREFIX ++ "masterSeed") (encrypt key ent mnemonic));
    reflexivity.
Qed.

Lemma getMasterSeed_pass_run (pass : option string) m acc key tm tos nh clk ent tr :
  JsString.truthy key = true ->
  getMasterSeed pass (mkWorld m acc key tm tos nh clk ent tr)
  = match listed (KCPREFIX ++ "masterSeed") m with
    | [] => (Ret None, mkWorld m acc key tm tos nh clk ent (tr ++ [LsKeys]))
    | k :: r =>
        let l := DBPREFIX ++ JsString.array_toString (k :: r) in
        (Ret (match Storage.getItem l m with
              | Some c => decrypt (match pass with Some p => p | None => key end) c
              | None => None
              end),
         mkWorld m acc key tm tos nh clk ent ((tr ++ [LsKeys]) ++ [LsGet l]))
    end.
Proof.
  intros Hk. unfold getMasterSeed. run_monad. rewrite Hk, listKeys_run.
  destruct (listed (KCPREFIX ++ "masterSeed") m) as [|k r]; [reflexivity|].
  run_monad. cbv zeta.
  destruct (Storage.getItem (DBPREFIX ++ JsString.array_toString (k :: r)) m) as [c|];
    run_monad; [|reflexivity].
  destruct (decrypt (match pass with Some p => p | None => key end) c); reflexivity.
Qed.

Lemma masterSeed_listed (v : string) (m : Storage.t) :
  listed (KCPREFIX ++ "masterSeed") m = [] \/
  listed (KCPREFIX ++ "masterSeed") m = [KCPREFIX ++ "masterSeed"] ->
  listed (KCPREFIX ++ "masterSeed")
         (Storage.setItem (DBPREFIX ++ KCPREFIX ++ "masterSeed") v m)
  = [KCPREFIX ++ "masterSeed"].
Proof.
  intros [H|H].
  - now apply listed_setItem_fresh.
  - now apply listed_setItem_same.
Qed.

(** X3: a mnemonic stored by [generateMasterSeed] is what [getMasterSeed]
    returns next, when the label masterSeed lists no other entry. *)
Theorem masterSeed_roundtrip (w : World) (mnemonic : string) :
  isUnlocked w = true ->
  validateMnemonic mnemonic = true ->
  listed (KCPREFIX ++ "masterSeed") (localStorage w) = [] \/
  listed (KCPREFIX ++ "masterSeed") (localStorage w) = [KCPREFIX ++ "masterSeed"] ->
  accepts w (localStorage w) (DBPREFIX ++ KCPREFIX ++ "masterSeed")
          (encrypt (encryptionKey w) (entropy w) mnemonic) = true ->
  fst (generateMasterSeed (Some mnemonic) w) = Ret true
  /\ fst (getMasterSeed None (snd (generateMasterSeed (Some mnemonic) w))) = Ret (Some mnemonic).
Proof.
  destruct w as [m acc key tm tos nh clk ent tr].
  unfold isUnlocked. cbn [encryptionKey localStorage accepts entropy].
  intros Hk Hv Hl Hacc.
  rewrite generateMasterSeed_run, Hk, Hv. cbn [andb]. cbv zeta. rewrite Hacc.
  cbn [fst snd]. split; [reflexivity|].
  rewrite (getMasterSeed_pass_run None) by exact Hk.
  rewrite (masterSeed_listed _ m Hl).
  cbv zeta. cbn [fst JsString.array_toString String.concat].
  rewrite StorageFacts.getItem_setItem_eq, decrypt_encrypt. reflexivity.
Qed.

(** X4: [getMasterSeed] never throws and never writes.  While Locked, or
    when the label masterSeed lists nothing, it returns undefined; when the
    label lists the one entry, it returns what that ciphertext opens to
    under the given passphrase, which is undefined for a passphrase that
    does not open it. *)
Theorem getMasterSeed_catches (w : World) (pass : option string) :
  localStorage (snd (getMasterSeed pass w)) = localStorage w
  /\ exists r,
       fst (getMasterSeed pass w) = Ret r
       /\ (isUnlocked w = false -> r = None)
       /\ (listed (KCPREFIX ++ "masterSeed") (localStorage w) = [] -> r = None)
       /\ (forall c,
             isUnlocked w = true ->
             listed (KCPREFIX ++ "masterSeed") (localStorage w) = [KCPREFIX ++ "masterSeed"] ->
             Storage.getItem (DBPREFIX ++ KCPREFIX ++ "masterSeed") (localStorage w) = Some c ->
             r = decrypt (match pass with Some p => p | None => encryptionKey w end) c).
Proof.
  destruct w as [m acc key tm tos nh clk ent tr].
  unfold isUnlocked. cbn [encryptionKey localStorage].
  destruct (JsString.truthy key) eqn:Hk.
  - rewrite getMasterSeed_pass_run by exact Hk.
    destruct (listed (KCPREFIX ++ "masterSeed") m) as [|k r] eqn:Hl.
    + split; [reflexivity|]. exists None. repeat apply conj; try reflexivity.
      intros c _ H. discriminate.
    + cbv zeta. cbn [fst snd localStorage]. split; [reflexivity|].
      eexists. split; [reflexivity|]. repeat apply conj; try discriminate.
      intros c _ [= -> ->]. cbn [JsString.array_toString String.concat].
      intros ->. reflexivity.
  - unfold getMasterSeed. run_monad. rewrite Hk. cbn [fst snd localStorage].
    split; [reflexivity|]. exists None. repeat apply conj; try reflexivity.
    intros c H. discriminate.
Qed.

(** X5: [generateMasterSeed] returns false and leaves the world as it is on
    a Locked container or for a mnemonic that does not validate; a write the
    backend refuses is not caught: it throws, and nothing is stored. *)
Theorem generateMasterSeed_outcomes (w : World) (mnemonic : string) :
  (isUnlocked w && validateMnemonic mnemonic = false ->
   generateMasterSeed (Some mnemonic) w = (Ret false, w))
  /\ (isUnlocked w && validateMnemonic mnemonic = true ->
      accepts w (localStorage w) (DBPREFIX ++ KCPREFIX ++ "masterSeed")
              (encrypt (encryptionKey w) (entropy w) mnemonic) = false ->
      fst (generateMasterSeed (Some mnemonic) w) = Throw PersistenceFailure
      /\ localStorage (snd (generateMasterSeed (Some mnemonic) w)) = localStorage w).
Proof.
  destruct w as [m acc key tm tos nh clk ent tr].
  unfold isUnlocked. cbn [encryptionKey localStorage accepts entropy].
  rewrite generateMasterSeed_run. split.
  - intros ->. reflexivity.
  - intros -> Hacc. cbv zeta. rewrite Hacc. split; reflexivity.
Qed.

(** X6: [saveObject] never throws: it returns whether the backend took the
    write; the entry is then stored under the two prefixes, and the storage
    is unchanged otherwise.  It does not look at the lock. *)
Theorem saveObject_reports_the_write (w : World) (key : string) (v : json) :
  let l := DBPREFIX ++ KCPREFIX ++ key in
  let taken := accepts w (localStorage w) l (JSON_stringify v) in
  fst (saveObject key v w) = Ret taken
  /\ localStorage (snd (saveObject key v w))
     = (if taken then Storage.setItem l (JSON_stringify v) (localStorage w)
        else localStorage w)
  /\ (taken = true ->
      Storage.getItem l (localStorage (snd (saveObject key v w))) = Some (JSON_stringify v)).
Proof.
  destruct w as [m acc k tm tos nh clk ent tr]. cbv zeta.
  cbn [encryptionKey localStorage accepts entropy].
  unfold saveObject. run_monad.
  destruct (acc m (DBPREFIX ++ KCPREFIX ++ key) (JSON_stringify v)) eqn:Hacc;
    cbn [fst snd localStorage]; repeat apply conj; try reflexivity.
  - intros _. apply StorageFacts.getItem_setItem_eq.
  - discriminate.
Qed.

End MasterSeed.

(* ================================================================== *)
(** ** Single keys: derived, imported, random *)
(* ================================================================== *)

Section Keys.
Context {C : Constants} {P : Primitives} {L : PrimitiveLaws C P}.
Import LocalStorageContainer.

Lemma generateSingleKey_run p kp m acc key tm tos nh clk ent tr ks c :
  JsString.truthy key = true ->
  readKeySeed key m = Ret (Some (ks, c)) ->
  generateSingleKey p kp (mkWorld m acc key tm tos nh clk ent tr)
  = let w1 := mkWorld m acc key tm tos nh clk ent (tr ++ keySeedReads m) in
    match fromMasterSeed (Some ks) with
    | Throw e => (Throw e, w1)
    | Ret root =>
        match derive root (key_path p kp) with
        | Throw e => (Throw e, w1)
        | Ret node =>
            match privateToAddress (_privateKey node) with
            | Throw e => (Throw e, w1)
            | Ret address =>
                let ct := encrypt key ent (bytesToHex (_privateKey node)) in
                let la := DBPREFIX ++ KCPREFIX ++ bytesToHex address in
                if acc m la ct
                then (Ret (Some (bytesToHex address)),
                      mkWorld (Storage.setItem la ct m) acc key tm tos nh clk (S ent)
                              ((tr ++ keySeedReads m) ++ [LsSet la ct]))
                else (Throw PersistenceFailure,
                      mkWorld m acc key tm tos nh clk (S ent)
                              ((tr ++ keySeedReads m) ++ [LsSet la ct]))
            end
        end
    end.
Proof.
  intros Hk Hr. unfold generateSingleKey. run_monad. rewrite Hk.
  rewrite getKeySeed_run by exact Hk. rewrite Hr. run_monad. cbv zeta.
  destruct (fromMasterSeed (Some ks)) as [root|e]; [|reflexivity].
  destruct (derive root (key_path p kp)) as [node|e]; [|reflexivity].
  destruct (privateToAddress (_privateKey node)) as [address|e]; [|reflexivity].
  run_monad.
  destruct (acc m _ _); reflexivity.
Qed.

(** X7: [generateSingleKey(p, i)] stores the key that the key seed gives at
    the path m/44'/60'/0'/p/i (the path at which [createKeys] derives key i
    of the profile p) under its address and under nothing else, returns the
    address, and leaves the key-seed record and its counter as they are. *)
Theorem generateSingleKey_stores_the_derived_key (w : World) (keyProfilePath keyPath : Z)
        (ks : string) (c : Z) (k : derived) :
  isUnlocked w = true ->
  stored_keySeed (encryptionKey w) (localStorage w) ks c ->
  derived_key ks ("m/44'/60'/0'/" ++ JsString.of_Z keyProfilePath
                  ++ "/" ++ JsString.of_Z keyPath) = Ret k ->
  accepts w (localStorage w) (DBPREFIX ++ KCPREFIX ++ addressHex k)
          (encrypt (encryptionKey w) (entropy w) (privKHex k)) = true ->
  fst (generateSingleKey keyProfilePath keyPath w) = Ret (Some (addressHex k))
  /\ localStorage (snd (generateSingleKey keyProfilePath keyPath w))
     = Storage.setItem (DBPREFIX ++ KCPREFIX ++ addressHex k)
                       (encrypt (encryptionKey w) (entropy w) (privKHex k)) (localStorage w)
  /\ stored_keySeed (encryptionKey w)
                    (localStorage (snd (generateSingleKey keyProfilePath keyPath w))) ks c.
Proof.
  destruct w as [m acc key tm tos nh clk ent tr].
  unfold isUnlocked. cbn [encryptionKey localStorage accepts entropy].
  intros Hk Hs Hd Hacc.
  destruct (derived_key_at _ _ _ Hd) as (root & node & a & Hroot & Hnode & Ha & ->).
  change ("m/44'/60'/0'/" ++ JsString.of_Z keyProfilePath ++ "/" ++ JsString.of_Z keyPath)
    with (key_path keyProfilePath keyPath) in Hnode.
  cbn [addressHex privKHex] in *.
  rewrite (generateSingleKey_run keyProfilePath keyPath m acc key tm tos nh clk ent tr ks c
             Hk (proj2 Hs)).
  cbv zeta. rewrite Hroot, Hnode, Ha, Hacc. cbn [fst snd localStorage].
  split; [reflexivity|]. split; [reflexivity|].
  now apply stored_keySeed_key_entry.
Qed.

Lemma importKey_run privKHex m acc key tm tos nh clk ent tr :
  JsString.truthy key = true ->
  importKey privKHex (mkWorld m acc key tm tos nh clk ent tr)
  = match privateToAddress (hexToBytes privKHex) with
    | Throw e => (Throw e, mkWorld m acc key tm tos nh clk ent tr)
    | Ret address =>
        let ct := encrypt key ent privKHex in
        let la := DBPREFIX ++ KCPREFIX ++ bytesToHex address in
        if acc m la ct
        then (Ret (Some (bytesToHex address)),
              mkWorld (Storage.setItem la ct m) acc key tm tos nh clk (S ent)
                      (tr ++ [LsSet la ct]))
        else (Throw PersistenceFailure,
              mkWorld m acc key tm tos nh clk (S ent) (tr ++ [LsSet la ct]))
    end.
Proof.
  intros Hk. unfold importKey. run_monad. rewrite Hk. cbn [negb].
  destruct (privateToAddress (hexToBytes privKHex)) as [address|e]; [|reflexivity].
  run_monad. cbv zeta. destruct (acc m _ _); reflexivity.
Qed.

(** X8: a private key taken by [importKey] is stored under its address, and
    [sign] with that address signs the hash of the message with this key. *)
Theorem importKey_then_sign (w : World) (privKHex data : string) (address : Buffer.t)
        (sig : Z * Buffer.t * Buffer.t) :
  isUnlocked w = true ->
  privateToAddress (hexToBytes privKHex) = Ret address ->
  accepts w (localStorage w) (DBPREFIX ++ KCPREFIX ++ bytesToHex address)
          (encrypt (encryptionKey w) (entropy w) privKHex) = true ->
  ecsign (hashPersonalMessage (toBuffer data)) (hexToBytes privKHex) = Ret sig ->
  fst (importKey privKHex w) = Ret (Some (bytesToHex address))
  /\ fst (sign (bytesToHex address) data (snd (importKey privKHex w)))
     = Ret (VSignature (concatSignature (toBuffer data) (hashPersonalMessage (toBuffer data))
                                        (fst (fst sig)) (snd (fst sig)) (snd sig))).
Proof.
  destruct w as [m acc key tm tos nh clk ent tr].
  unfold isUnlocked. cbn [encryptionKey localStorage accepts entropy].
  intros Hk Ha Hacc Hsig.
  rewrite importKey_run by exact Hk. rewrite Ha. cbv zeta. rewrite Hacc.
  cbn [fst snd]. split; [reflexivity|].
  rewrite sign_run by exact Hk.
  rewrite StorageFacts.getItem_setItem_eq, decrypt_encrypt. cbv zeta.
  rewrite Hsig. reflexivity.
Qed.

Lemma generateKeyRand_run m acc key tm tos nh clk ent tr :
  JsString.truthy key = true ->
  generateKeyRand (mkWorld m acc key tm tos nh clk ent tr)
  = let privK := walletGenerate ent in
    match privateToAddress privK with
    | Throw e => (Throw e, mkWorld m acc key tm tos nh clk (S ent) tr)
    | Ret address =>
        let ct := encrypt key (S ent) (bytesToHex privK) in
        let la := DBPREFIX ++ KCPREFIX ++ bytesToHex address in
        if acc m la ct
        then (Ret (Some (bytesToHex address)),
              mkWorld (Storage.setItem la ct m) acc key tm tos nh clk (S (S ent))
                      (tr ++ [LsSet la ct]))
        else (Throw PersistenceFailure,
              mkWorld m acc key tm tos nh clk (S (S ent)) (tr ++ [LsSet la ct]))
    end.
Proof.
  intros Hk. unfold generateKeyRand, random_wallet. run_monad. rewrite Hk. cbn [negb].
  run_monad. cbv zeta.
  destruct (privateToAddress (walletGenerate ent)) as [address|e]; run_monad;
    [|reflexivity].
  destruct (acc m _ _); reflexivity.
Qed.

(** X9: [generateKeyRand] stores the key of a fresh wallet under its
    address, and [sign] with the returned address signs with that key. *)
Theorem generateKeyRand_then_sign (w : World) (data : string) (address : Buffer.t)
        (sig : Z * Buffer.t * Buffer.t) :
  isUnlocked w = true ->
  privateToAddress (walletGenerate (entropy w)) = Ret address ->
  accepts w (localStorage w) (DBPREFIX ++ KCPREFIX ++ bytesToHex address)
          (encrypt (encryptionKey w) (S (entropy w))
                   (bytesToHex (walletGenerate (entropy w)))) = true ->
  ecsign (hashPersonalMessage (toBuffer data)) (walletGenerate (entropy w)) = Ret sig ->
  fst (generateKeyRand w) = Ret (Some (bytesToHex address))
  /\ fst (sign (bytesToHex address) data (snd (generateKeyRand w)))
     = Ret (VSignature (concatSignature (toBuffer data) (hashPersonalMessage (toBuffer data))
                                        (fst (fst sig)) (snd (fst sig)) (snd sig))).
Proof.
  destruct w as [m acc key tm tos nh clk ent tr].
  unfold isUnlocked. cbn [encryptionKey localStorage accepts entropy].
  intros Hk Ha Hacc Hsig.
  rewrite generateKeyRand_run by exact Hk. cbv zeta. rewrite Ha, Hacc.
  cbn [fst snd]. split; [reflexivity|].
  rewrite sign_run by exact Hk.
  rewrite StorageFacts.getItem_setItem_eq, decrypt_encrypt. cbv zeta.
  rewrite hexToBytes_bytesToHex, Hsig. reflexivity.
Qed.

End Keys.

(* ================================================================== *)
(** ** The store: insert, get, delete, deleteAll *)
(* ================================================================== *)

Module RemoveFacts.
Import Storage.

Lemma getItem_removeItem_eq k m : getItem k (removeItem k m) = None.
Proof.
  induction m as [|[k' v] r IH]; [reflexivity|].
  unfold removeItem in *. cbn [filter fst].
  destruct (String.eqb_spec k' k) as [->|Hne]; cbn [negb].
  - exact IH.
  - cbn [getItem]. destruct (String.eqb_spec k' k); [contradiction|exact IH].
Qed.

Lemma getItem_removeItem_ne k k' m : k <> k' -> getItem k' (removeItem k m) = getItem k' m.
Proof.
  intros Hne. induction m as [|[k0 v] r IH]; [reflexivity|].
  unfold removeItem in *. cbn [filter fst].
  destruct (String.eqb_spec k0 k) as [->|Hne0]; cbn [negb getItem].
  - destruct (String.eqb_spec k k'); [contradiction|exact IH].
  - destruct (String.eqb_spec k0 k'); [reflexivity|exact IH].
Qed.

End RemoveFacts.

Section Store.
Context {C : Constants} {P : Primitives} {L : PrimitiveLaws C P}.
Import LocalStorageContainer.

(** X10: [get] after [insert] of the same key returns the inserted value,
    and after [delete] of it returns null; neither changes what [get]
    returns for another key; an [insert] the backend refuses throws and
    leaves the storage as it was.  [deleteKey] of the container deletes the
    entry of the key with the container's prefix. *)
Theorem db_insert_get_delete (w : World) (key value : string) :
  (accepts w (localStorage w) (DBPREFIX ++ key) value = true ->
   fst (Db.get key (snd (Db.insert key value w))) = Ret (Some value))
  /\ fst (Db.get key (snd (Db.delete key w))) = Ret None
  /\ (forall key', key' <> key ->
        fst (Db.get key' (snd (Db.insert key value w))) = fst (Db.get key' w)
        /\ fst (Db.get key' (snd (Db.delete key w))) = fst (Db.get key' w))
  /\ (accepts w (localStorage w) (DBPREFIX ++ key) value = false ->
      fst (Db.insert key value w) = Throw PersistenceFailure
      /\ localStorage (snd (Db.insert key value w)) = localStorage w)
  /\ fst (Db.get (KCPREFIX ++ key) (snd (deleteKey key w))) = Ret None.
Proof.
  destruct w as [m acc k tm tos nh clk ent tr].
  cbn [localStorage accepts].
  unfold deleteKey, Db.get, Db.insert, Db.delete, ls_getItem, ls_setItem, ls_removeItem, log,
    with_storage.
  cbn [localStorage accepts encryptionKey timer timeouts nextHandle clock entropy trace].
  repeat apply conj.
  - intros ->. cbn [fst snd localStorage]. now rewrite StorageFacts.getItem_setItem_eq.
  - cbn [fst snd localStorage]. now rewrite RemoveFacts.getItem_removeItem_eq.
  - intros key' Hne.
    assert (Hl : DBPREFIX ++ key <> DBPREFIX ++ key').
    { intros E. apply StringFacts.append_inj_l in E. congruence. }
    split.
    + destruct (acc m (DBPREFIX ++ key) value); cbn [fst snd localStorage]; [|reflexivity].
      now rewrite StorageFacts.getItem_setItem_ne.
    + cbn [fst snd localStorage]. now rewrite RemoveFacts.getItem_removeItem_ne.
  - intros ->. split; reflexivity.
  - cbn [fst snd localStorage]. now rewrite RemoveFacts.getItem_removeItem_eq.
Qed.

(** X11: [deleteAll] empties the whole [localStorage], entries of other
    owners included, whatever the lock says, and keeps the key; on an
    Unlocked container the getters then return undefined and [export] gives
    the blob of the empty object. *)
Theorem deleteAll_empties_the_storage (w : World) (idAddr ksign : string) :
  localStorage (snd (deleteAll w)) = []
  /\ encryptionKey (snd (deleteAll w)) = encryptionKey w
  /\ (isUnlocked w = true ->
      fst (getKeySeed (snd (deleteAll w))) = Ret None
      /\ fst (getMasterSeed None (snd (deleteAll w))) = Ret None
      /\ fst (getRecoveryAddr (snd (deleteAll w))) = Ret None
      /\ fst (Db.export idAddr ksign (snd (deleteAll w)))
         = Ret (Some (encrypt (encryptionKey w) (entropy w) (JSON_stringify (JObj []))))).
Proof.
  destruct w as [m acc k tm tos nh clk ent tr].
  unfold deleteAll, Db.deleteAll, ls_clear, isUnlocked, log, with_storage.
  cbn [fst snd localStorage accepts encryptionKey timer timeouts nextHandle clock entropy trace].
  split; [reflexivity|]. split; [reflexivity|]. intros Hk.
  repeat apply conj.
  - rewrite getKeySeed_run by exact Hk. cbn [fst].
    now apply readKeySeed_listed_none.
  - rewrite (getMasterSeed_pass_run None) by exact Hk. reflexivity.
  - unfold getRecoveryAddr. run_monad. rewrite Hk, listKeys_run. reflexivity.
  - destruct (export_run idAddr ksign [] acc k tm tos nh clk ent (tr ++ [LsClear]) Hk)
      as [tr' E].
    rewrite E. reflexivity.
Qed.

End Store.

(* ================================================================== *)
(** ** The recovery address, the key seed and the container's cipher *)
(* ================================================================== *)

Section Recovery.
Context {C : Constants} {P : Primitives} {L : PrimitiveLaws C P}.
Import LocalStorageContainer.

Lemma index_prefix (p x : string) : String.index 0 p (p ++ x) = Some 0%nat.
Proof.
  destruct (p ++ x)%string as [|a s] eqn:E.
  - destruct p; [reflexivity|discriminate].
  - cbn [String.index]. rewrite <- E.
    pose proof (StringFacts.startsWith_self p x) as H. unfold JsString.startsWith in H.
    now rewrite H.
Qed.

Lemma replace_prefix (p x : string) : JsString.replace (p ++ x) p EmptyString = x.
Proof.
  unfold JsString.replace. rewrite index_prefix.
  cbn [Nat.add]. rewrite StringFacts.drop_append.
  destruct (p ++ x)%string; reflexivity.
Qed.

Lemma listed_setItem_new prefix x v m :
  listed prefix m = [] ->
  listed prefix (Storage.setItem (DBPREFIX ++ prefix ++ x) v m) = [prefix ++ x].
Proof.
  intros H. unfold listed in *.
  assert (Hself : JsString.startsWith (DBPREFIX ++ prefix ++ x) (DBPREFIX ++ prefix) = true).
  { rewrite <- StringFacts.append_assoc. apply StringFacts.startsWith_self. }
  assert (Hnot : ~ In (DBPREFIX ++ prefix ++ x) (Storage.keys m)).
  { intros Hin.
    assert (Hf : In (DBPREFIX ++ prefix ++ x)
                    (filter (fun k => JsString.startsWith k (DBPREFIX ++ prefix)) (Storage.keys m)))
      by (apply filter_In; auto).
    destruct (filter _ (Storage.keys m)); [contradiction | discriminate]. }
  rewrite StorageFacts.keys_setItem_notin by assumption.
  rewrite filter_app.
  destruct (filter _ (Storage.keys m)); [|discriminate].
  simpl. rewrite Hself. simpl. now rewrite StringFacts.drop_append.
Qed.

Lemma generateRecoveryAddr_run masterSeed m acc key tm tos nh clk ent tr :
  JsString.truthy key = true ->
  generateRecoveryAddr masterSeed (mkWorld m acc key tm tos nh clk ent tr)
  = let w := mkWorld m acc key tm tos nh clk ent tr in
    match fromMasterSeed masterSeed with
    | Throw e => (Throw e, w)
    | Ret root =>
        match derive root "m/44'/60'/1'" with
        | Throw e => (Throw e, w)
        | Ret node =>
            match privateToAddress (_privateKey node) with
            | Throw e => (Throw e, w)
            | Ret address =>
                let ct := encrypt key ent (bytesToHex (_privateKey node)) in
                let la := DBPREFIX ++ KCPREFIX ++ IDRECOVERYPREFIX ++ bytesToHex address in
                if acc m la ct
                then (Ret (Some (bytesToHex address)),
                      mkWorld (Storage.setItem la ct m) acc key tm tos nh clk (S ent)
                              (tr ++ [LsSet la ct]))
                else (Throw PersistenceFailure,
                      mkWorld m acc key tm tos nh clk (S ent) (tr ++ [LsSet la ct]))
            end
        end
    end.
Proof.
  intros Hk. unfold generateRecoveryAddr. run_monad. rewrite Hk. cbv zeta.
  destruct (fromMasterSeed masterSeed) as [root|e]; [|reflexivity].
  destruct (derive root "m/44'/60'/1'") as [node|e]; [|reflexivity].
  destruct (privateToAddress (_privateKey node)) as [address|e]; [|reflexivity].
  run_monad. destruct (acc m _ _); reflexivity.
Qed.

(** X12: on a store with no recovery entry, [generateRecoveryAddr] stores
    the key derived from the master seed at m/44'/60'/1' under its address,
    and [getRecoveryAddr] returns that address next. *)
Theorem recoveryAddr_roundtrip (w : World) (masterSeed : option string)
        (root node : hdnode) (address : Buffer.t) :
  isUnlocked w = true ->
  listed (KCPREFIX ++ IDRECOVERYPREFIX) (localStorage w) = [] ->
  fromMasterSeed masterSeed = Ret root ->
  derive root "m/44'/60'/1'" = Ret node ->
  privateToAddress (_privateKey node) = Ret address ->
  accepts w (localStorage w) (DBPREFIX ++ KCPREFIX ++ IDRECOVERYPREFIX ++ bytesToHex address)
          (encrypt (encryptionKey w) (entropy w) (bytesToHex (_privateKey node))) = true ->
  fst (generateRecoveryAddr masterSeed w) = Ret (Some (bytesToHex address))
  /\ fst (getRecoveryAddr (snd (generateRecoveryAddr masterSeed w)))
     = Ret (Some (bytesToHex address)).
Proof.
  destruct w as [m acc key tm tos nh clk ent tr].
  unfold isUnlocked. cbn [encryptionKey localStorage accepts entropy].
  intros Hk Hl Hroot Hnode Ha Hacc.
  rewrite generateRecoveryAddr_run by exact Hk.
  cbv zeta. rewrite Hroot, Hnode, Ha, Hacc. cbn [fst snd].
  split; [reflexivity|].
  unfold getRecoveryAddr. run_monad. rewrite Hk, listKeys_run.
  rewrite <- (StringFacts.append_assoc KCPREFIX IDRECOVERYPREFIX (bytesToHex address)).
  rewrite listed_setItem_new by exact Hl.
  cbn [fst]. now rewrite replace_prefix.
Qed.

(** X13: after [generateKeySeed], [getKeySeed] returns the mnemonic of the
    key derived from the master seed at m/44'/60'/0' with the counter 0,
    whatever record and counter the store held before. *)
Theorem generateKeySeed_then_getKeySeed (w : World) (masterSeed : option string)
        (root nodeId : hdnode) :
  isUnlocked w = true ->
  listed (KCPREFIX ++ "keySeed") (localStorage w) = [] \/
  listed (KCPREFIX ++ "keySeed") (localStorage w) = [KCPREFIX ++ "keySeed"] ->
  fromMasterSeed masterSeed = Ret root ->
  derive root "m/44'/60'/0'" = Ret nodeId ->
  accepts w (localStorage w) keySeedLabel
          (keySeedEntry (encryptionKey w) (entropy w)
                        (entropyToMnemonic (_privateKey nodeId)) (Buffer.be32 0)) = true ->
  fst (generateKeySeed masterSeed w) = Ret true
  /\ fst (getKeySeed (snd (generateKeySeed masterSeed w)))
     = Ret (Some (entropyToMnemonic (_privateKey nodeId), 0)).
Proof.
  destruct w as [m acc key tm tos nh clk ent tr].
  unfold isUnlocked. cbn [encryptionKey localStorage accepts entropy].
  intros Hk Hl Hroot Hnode Hacc.
  rewrite generateKeySeed_run by exact Hk.
  rewrite Hroot, Hnode. cbv zeta. rewrite Hacc. cbn [fst snd].
  split; [reflexivity|].
  rewrite getKeySeed_run by exact Hk. cbn [fst].
  apply readKeySeed_written; [exact Hk|unfold Buffer.UINT32_MAX; lia|].
  destruct Hl as [Hl|Hl].
  - now apply listed_setItem_fresh.
  - now apply listed_setItem_same.
Qed.

Lemma container_encrypt_run (msg : string) m acc key tm tos nh clk ent tr :
  JsString.truthy key = true ->
  LocalStorageContainerRest.encrypt msg (mkWorld m acc key tm tos nh clk ent tr)
  = (Ret (Some (encrypt key ent msg)), mkWorld m acc key tm tos nh clk (S ent) tr).
Proof.
  intros Hk. unfold LocalStorageContainerRest.encrypt. run_monad. now rewrite Hk.
Qed.

Lemma container_decrypt_run (c : string) m acc key tm tos nh clk ent tr :
  JsString.truthy key = true ->
  LocalStorageContainerRest.decrypt c (mkWorld m acc key tm tos nh clk ent tr)
  = (match decrypt key c with
     | Some msg => Ret (Some msg)
     | None => Throw DecryptionFailure
     end, mkWorld m acc key tm tos nh clk ent tr).
Proof.
  intros Hk. unfold LocalStorageContainerRest.decrypt. run_monad. rewrite Hk. cbn [negb].
  destruct (decrypt key c); reflexivity.
Qed.

(** X14: the container's [encrypt] and [decrypt] return undefined while
    Locked; while Unlocked, [decrypt] gives back what [encrypt] was given,
    and [encrypt] does not touch the storage. *)
Theorem container_encrypt_decrypt (w : World) (m : string) :
  (isUnlocked w = false ->
   LocalStorageContainerRest.encrypt m w = (Ret None, w)
   /\ LocalStorageContainerRest.decrypt m w = (Ret None, w))
  /\ (isUnlocked w = true ->
      exists c,
        fst (LocalStorageContainerRest.encrypt m w) = Ret (Some c)
        /\ fst (LocalStorageContainerRest.decrypt c (snd (LocalStorageContainerRest.encrypt m w)))
           = Ret (Some m)
        /\ localStorage (snd (LocalStorageContainerRest.encrypt m w)) = localStorage w).
Proof.
  destruct w as [st acc key tm tos nh clk ent tr].
  unfold isUnlocked. cbn [encryptionKey]. split; intros Hk.
  - unfold LocalStorageContainerRest.encrypt, LocalStorageContainerRest.decrypt.
    run_monad. rewrite Hk. split; reflexivity.
  - exists (encrypt key ent m).
    rewrite container_encrypt_run by exact Hk. cbn [fst snd localStorage].
    rewrite container_decrypt_run by exact Hk. rewrite decrypt_encrypt.
    repeat apply conj; reflexivity.
Qed.

End Recovery.

(* ================================================================== *)
(** ** Export and import, entry by entry *)
(* ================================================================== *)

Section Transfer.
Context {C : Constants} {P : Primitives} {L : PrimitiveLaws C P}.

Lemma import_loop_partial acc key tm tos nh clk ent (l : list (string * string)) :
  forall m tr,
  exists tr',
    Db.import_loop l (mkWorld m acc key tm tos nh clk ent tr)
    = (if writes_ok acc m l then Ret tt else Throw PersistenceFailure,
       mkWorld (apply_writes (accepted acc m l) m) acc key tm tos nh clk ent tr').
Proof.
  induction l as [|[k v] l IH]; intros m tr.
  - exists tr. reflexivity.
  - cbn [Db.import_loop writes_ok accepted]. run_monad.
    destruct (acc m k v).
    + destruct (IH (Storage.setItem k v m) (tr ++ [LsSet k v])%list) as [tr' E].
      exists tr'. rewrite E. reflexivity.
    + eexists. reflexivity.
Qed.

Lemma accepted_keys acc (l : list (string * string)) :
  forall m k, In k (map fst (accepted acc m l)) -> In k (map fst l).
Proof.
  induction l as [|[k0 v0] l IH]; intros m k; cbn [accepted map fst In].
  - intros [].
  - destruct (acc m k0 v0); cbn [map fst In]; [|intros []].
    intros [H|H]; [now left|right; exact (IH _ _ H)].
Qed.

(** X15: [import] writes the properties of the blob under their own names,
    one after the other, up to the first write the backend refuses, where it
    throws; a storage entry whose key is not a property of the blob keeps
    its value. *)
Theorem import_writes_entry_by_entry (w : World) (dbEncr dbExpStr : string) (dbExp : json) :
  decrypt (encryptionKey w) dbEncr = Some dbExpStr ->
  JSON_parse dbExpStr = Some dbExp ->
  Js.shadows_hasOwnProperty dbExp = false ->
  fst (Db.import dbEncr w)
  = (if writes_ok (accepts w) (localStorage w) (Js.ownEntries dbExp)
     then Ret tt else Throw PersistenceFailure)
  /\ localStorage (snd (Db.import dbEncr w))
     = apply_writes (accepted (accepts w) (localStorage w) (Js.ownEntries dbExp))
                    (localStorage w)
  /\ forall k,
       ~ In k (map fst (Js.ownEntries dbExp)) ->
       Storage.getItem k (localStorage (snd (Db.import dbEncr w)))
       = Storage.getItem k (localStorage w).
Proof.
  destruct w as [m acc key tm tos nh clk ent tr].
  cbn [encryptionKey localStorage accepts].
  intros Hd Hp Hs.
  rewrite import_run. cbn [encryptionKey]. rewrite Hd, Hp, Hs.
  destruct (import_loop_partial acc key tm tos nh clk ent (Js.ownEntries dbExp) m tr)
    as [tr' E].
  rewrite E. cbn [fst snd localStorage].
  split; [reflexivity|]. split; [reflexivity|].
  intros k Hk. unfold apply_writes. apply ApplyFacts.getItem_fold_other.
  intros Hin. apply Hk. exact (accepted_keys acc _ m k Hin).
Qed.

(** X16: the blob of [export] opens, under the key of the container, to the
    JSON text of an object whose properties are entries of the storage, each
    with its stored value and a key that contains the store's prefix; every
    such entry (but one named __proto__) is a property.  The storage is not
    changed, and the two arguments idAddr and ksign are not used. *)
Theorem export_holds_the_namespace (w : World) (idAddr ksign : string) :
  isUnlocked w = true ->
  exists blob,
    fst (Db.export idAddr ksign w) = Ret (Some blob)
    /\ decrypt (encryptionKey w) blob
       = Some (JSON_stringify (JObj (Js.strings (exported_entries (localStorage w)))))
    /\ localStorage (snd (Db.export idAddr ksign w)) = localStorage w
    /\ (forall k v,
          In (k, v) (exported_entries (localStorage w)) ->
          Storage.getItem k (localStorage w) = Some v /\ JsString.contains k DBPREFIX = true)
    /\ (forall k v,
          JsString.contains k DBPREFIX = true -> k <> "__proto__" ->
          Storage.getItem k (localStorage w) = Some v ->
          In (k, v) (exported_entries (localStorage w)))
    /\ (forall idAddr' ksign', fst (Db.export idAddr' ksign' w) = Ret (Some blob)).
Proof.
  destruct w as [m acc key tm tos nh clk ent tr].
  unfold isUnlocked. cbn [encryptionKey localStorage]. intros Hk.
  destruct (export_run idAddr ksign m acc key tm tos nh clk ent tr Hk) as [tr' E].
  eexists. rewrite E. cbn [fst snd localStorage].
  split; [reflexivity|]. split; [apply decrypt_encrypt|]. split; [reflexivity|].
  destruct (exported_fold m (Storage.keys m) [] (NoDup_nil _) (fun k v H => match H with end))
    as (_ & Hval & _ & Hcov).
  split; [exact Hval|]. split.
  - intros k v Hc Hp Hg. apply Hcov; auto. now apply (StorageFacts.getItem_in_keys k v).
  - intros idAddr' ksign'.
    destruct (export_run idAddr' ksign' m acc key tm tos nh clk ent tr Hk) as [tr2 E2].
    rewrite E2. reflexivity.
Qed.

End Transfer.

(* ================================================================== *)
(** ** The listings of the container *)
(* ================================================================== *)

Section Listings.
Context {C : Constants} {P : Primitives}.

Lemma listKeys_loop_spec (keys : list string) :
  forall keysList,
    LocalStorageContainerRest.listKeys_loop keys keysList
    = (keysList
       ++ map (fun k => JsString.replace k (KCPREFIX ++ DBPREFIX) EmptyString)
              (filter (fun k => JsString.contains k (KCPREFIX ++ DBPREFIX)) keys))%list.
Proof.
  induction keys as [|k keys IH]; intros keysList.
  - cbn. now rewrite app_nil_r.
  - cbn [LocalStorageContainerRest.listKeys_loop filter].
    destruct (JsString.contains k (KCPREFIX ++ DBPREFIX)).
    + rewrite IH. cbn [map]. now rewrite <- app_assoc.
    + apply IH.
Qed.

Lemma listIdentities_loop_spec (IDPREFIX : string) (keys : list string) :
  forall idList,
    LocalStorageContainerRest.listIdentities_loop IDPREFIX keys idList
    = (idList
       ++ map (fun k => JsString.replace k (KCPREFIX ++ DBPREFIX) EmptyString)
              (filter (fun k => JsString.contains k (DBPREFIX ++ KCPREFIX ++ IDPREFIX)) keys))%list.
Proof.
  induction keys as [|k keys IH]; intros idList.
  - cbn. now rewrite app_nil_r.
  - cbn [LocalStorageContainerRest.listIdentities_loop filter].
    destruct (JsString.contains k (DBPREFIX ++ KCPREFIX ++ IDPREFIX)).
    + rewrite IH. cbn [map]. now rewrite <- app_assoc.
    + apply IH.
Qed.

Lemma replace_absent (s pat rep : string) :
  JsString.contains s pat = false -> JsString.replace s pat rep = s.
Proof.
  unfold JsString.contains, JsString.replace.
  destruct (String.index 0 pat s); [discriminate|reflexivity].
Qed.

(** X17: [listKeys] of the container looks for the container's prefix
    followed by the store's, the reverse of the order the entries are
    written in: it returns, in storage order, the keys that contain that
    string, each without its first occurrence.  On a storage none of whose
    keys contains it, entries of the container or not, the list is empty.
    The storage is not changed and the lock is not looked at. *)
Theorem container_listKeys_reversed_prefix (w : World) :
  (forall k, In k (Storage.keys (localStorage w)) ->
             JsString.contains k (KCPREFIX ++ DBPREFIX) = false) ->
  fst (LocalStorageContainerRest.listKeys w) = Ret []
  /\ localStorage (snd (LocalStorageContainerRest.listKeys w)) = localStorage w
  /\ forall w' : World,
       fst (LocalStorageContainerRest.listKeys w')
       = Ret (map (fun k => JsString.replace k (KCPREFIX ++ DBPREFIX) EmptyString)
                  (filter (fun k => JsString.contains k (KCPREFIX ++ DBPREFIX))
                          (Storage.keys (localStorage w')))).
Proof.
  intros Hno.
  assert (Hgen : forall w' : World,
             fst (LocalStorageContainerRest.listKeys w')
             = Ret (map (fun k => JsString.replace k (KCPREFIX ++ DBPREFIX) EmptyString)
                        (filter (fun k => JsString.contains k (KCPREFIX ++ DBPREFIX))
                                (Storage.keys (localStorage w'))))).
  { intros [m acc key tm tos nh clk ent tr].
    unfold LocalStorageContainerRest.listKeys. run_monad. unfold ls_keys, log.
    cbn [fst snd localStorage accepts encryptionKey timer timeouts nextHandle clock entropy
         trace].
    now rewrite listKeys_loop_spec. }
  split; [|split; [|exact Hgen]].
  - rewrite Hgen. f_equal.
    assert (Hf : filter (fun k => JsString.contains k (KCPREFIX ++ DBPREFIX))
                        (Storage.keys (localStorage w)) = []).
    { induction (Storage.keys (localStorage w)) as [|k ks IH]; [reflexivity|].
      cbn [filter]. rewrite (Hno k (or_introl eq_refl)).
      apply IH. intros k' Hk'. apply Hno. now right. }
    now rewrite Hf.
  - destruct w as [m acc key tm tos nh clk ent tr]. reflexivity.
Qed.

(** X18: [listIdentities] returns, in storage order, the keys that contain
    the store's prefix, the container's and the identity prefix, each
    without the first occurrence of the container's prefix followed by the
    store's; a key in which that reversed pair does not occur is returned
    whole, prefixes included. *)
Theorem listIdentities_keeps_the_prefixes (IDPREFIX : string) (w : World) (k : string) :
  In k (Storage.keys (localStorage w)) ->
  JsString.contains k (DBPREFIX ++ KCPREFIX ++ IDPREFIX) = true ->
  JsString.contains k (KCPREFIX ++ DBPREFIX) = false ->
  fst (LocalStorageContainerRest.listIdentities IDPREFIX w)
  = Ret (map (fun k => JsString.replace k (KCPREFIX ++ DBPREFIX) EmptyString)
             (filter (fun k => JsString.contains k (DBPREFIX ++ KCPREFIX ++ IDPREFIX))
                     (Storage.keys (localStorage w))))
  /\ exists l, fst (LocalStorageContainerRest.listIdentities IDPREFIX w) = Ret l /\ In k l.
Proof.
  destruct w as [m acc key tm tos nh clk ent tr].
  unfold LocalStorageContainerRest.listIdentities. run_monad. unfold ls_keys, log.
  cbn [fst snd localStorage accepts encryptionKey timer timeouts nextHandle clock entropy trace].
  rewrite listIdentities_loop_spec. cbn [app].
  intros Hin Hc Hr. split; [reflexivity|].
  eexists. split; [reflexivity|].
  apply in_map_iff. exists k. split; [now apply replace_absent|].
  apply filter_In. now split.
Qed.

End Listings.

(* ================================================================== *)
(** ** createKeys at its edges *)
(* ================================================================== *)

Section CreateKeysEdges.
Context {C : Constants} {P : Primitives} {L : PrimitiveLaws C P}.
Import LocalStorageContainer.

(** X19: when the stored key seed is not a valid mnemonic, [createKeys]
    throws a TypeError (it destructures the undefined that
    [generateKeysFromKeyPath] returns) and writes nothing: no key, and the
    counter as before. *)
Theorem createKeys_invalid_keySeed (w : World) (ks : string) (c : Z) :
  isUnlocked w = true ->
  stored_keySeed (encryptionKey w) (localStorage w) ks c ->
  validateMnemonic ks = false ->
  fst (createKeys w) = Throw TypeError
  /\ localStorage (snd (createKeys w)) = localStorage w
  /\ writes_of (trace (snd (createKeys w))) = writes_of (trace w).
Proof.
  destruct w as [m acc key tm tos nh clk ent tr].
  unfold isUnlocked. cbn [encryptionKey localStorage trace].
  intros Hk [Hl Hr] Hv.
  assert (E : createKeys (mkWorld m acc key tm tos nh clk ent tr)
              = (Throw TypeError, mkWorld m acc key tm tos nh clk ent (tr ++ keySeedReads m))).
  { rewrite (createKeys_run m acc key tm tos nh clk ent tr ks c Hk Hr).
    unfold bind at 1. rewrite generateKeysFromKeyPath_run by exact Hk. rewrite Hv.
    reflexivity. }
  rewrite E. cbn [fst snd localStorage trace].
  repeat apply conj; try reflexivity.
  unfold writes_of. now rewrite filter_app, writes_of_keySeedReads, app_nil_r.
Qed.

(** X20: when the derivation of the first key of the profile is refused
    (the hdkey library takes child indices below 2^31 only, so it refuses
    the path of every counter from 2^31 on), [createKeys] throws that error
    before any write: no key is stored, and the record and its counter are
    as before. *)
Theorem createKeys_refused_derivation (w : World) (ks : string) (c : Z) (root : hdnode)
        (e : error) :
  isUnlocked w = true ->
  stored_keySeed (encryptionKey w) (localStorage w) ks c ->
  validateMnemonic ks = true ->
  fromMasterSeed (Some ks) = Ret root ->
  derive root ("m/44'/60'/0'/" ++ JsString.of_Z c ++ "/0") = Throw e ->
  fst (createKeys w) = Throw e
  /\ localStorage (snd (createKeys w)) = localStorage w
  /\ writes_of (trace (snd (createKeys w))) = writes_of (trace w)
  /\ pathCounter (snd (createKeys w)) = Some c.
Proof.
  destruct w as [m acc key tm tos nh clk ent tr].
  unfold isUnlocked. cbn [encryptionKey localStorage trace].
  intros Hk Hs Hv Hroot Hd. pose proof Hs as [Hl Hr].
  change ("m/44'/60'/0'/" ++ JsString.of_Z c ++ "/0") with (key_path c (Z.of_nat 0)) in Hd.
  assert (E : createKeys (mkWorld m acc key tm tos nh clk ent tr)
              = (Throw e, mkWorld m acc key tm tos nh clk ent (tr ++ keySeedReads m))).
  { rewrite (createKeys_run m acc key tm tos nh clk ent tr ks c Hk Hr).
    unfold bind at 1. rewrite generateKeysFromKeyPath_run by exact Hk.
    rewrite Hv, Hroot. unfold derive_loop, bind at 1, bind at 1.
    rewrite derive_and_store_run, Hd. reflexivity. }
  rewrite E. cbn [fst snd localStorage trace].
  split; [reflexivity|]. split; [reflexivity|]. split.
  - unfold writes_of. now rewrite filter_app, writes_of_keySeedReads, app_nil_r.
  - apply (stored_pathCounter _ ks c); [exact Hk | exact Hs].
Qed.

End CreateKeysEdges.

(* ================================================================== *)
(** ** The loop of generateKeysFromKeyPath *)
(* ================================================================== *)

Section KeyLoop.
Context {C : Constants} {P : Primitives}.
Import LocalStorageContainer.

Lemma derive_loop_count (root : hdnode) (p : Z) (todo : nat) :
  forall i keys w keys' w',
    derive_loop root p todo i keys w = (Ret keys', w') ->
    length keys'
    = (length keys + todo + (if Nat.eqb i 0 && negb (Nat.eqb todo 0) then 1 else 0))%nat
    /\ entropy w' = (entropy w + todo)%nat
    /\ encryptionKey w' = encryptionKey w.
Proof.
  induction todo as [|todo IH]; intros i keys w keys' w'.
  - cbn [derive_loop]. unfold ret. intros [= <- <-].
    rewrite andb_false_r. repeat apply conj; try reflexivity; lia.
  - destruct w as [m acc key tm tos nh clk ent tr].
    cbn [derive_loop]. unfold bind at 1. rewrite derive_and_store_run.
    destruct (derive root (key_path p (Z.of_nat i))) as [node|e]; [|discriminate].
    destruct (privateToAddress (_privateKey node)) as [address|e]; [|discriminate].
    cbv zeta.
    destruct (acc m _ _); [|discriminate].
    destruct (Nat.eqb_spec i 0) as [->|Hi].
    + destruct (acc _ _ _); [|discriminate].
      intros H. apply IH in H. destruct H as (Hl & He & Hk).
      cbn [entropy encryptionKey Nat.eqb andb negb] in *.
      rewrite !length_app in Hl. cbn [length] in Hl.
      repeat apply conj; try assumption; lia.
    + intros H. apply IH in H. destruct H as (Hl & He & Hk).
      cbn [entropy encryptionKey andb negb] in *.
      rewrite length_app in Hl. cbn [length Nat.eqb andb] in Hl.
      repeat apply conj; try assumption; lia.
Qed.

(** X21: when [generateKeysFromKeyPath] returns keys for a count n of
    derived keys, it returns n + 1 identifiers (the address and the public
    key of key 0, the address of every other key), none for n = 0, and has
    drawn n nonces. *)
Theorem generateKeysFromKeyPath_counts (w : World) (mnemonic : string) (pathProfile : Z)
        (numberOfDerivedKeys : nat) (keys : list string) :
  fst (generateKeysFromKeyPath (Some mnemonic) (Some pathProfile) (Some numberOfDerivedKeys) w)
  = Ret (Some keys) ->
  length keys = (if Nat.eqb numberOfDerivedKeys 0 then 0 else numberOfDerivedKeys + 1)%nat
  /\ entropy (snd (generateKeysFromKeyPath (Some mnemonic) (Some pathProfile)
                                           (Some numberOfDerivedKeys) w))
     = (entropy w + numberOfDerivedKeys)%nat
  /\ isUnlocked w = true
  /\ validateMnemonic mnemonic = true.
Proof.
  destruct w as [m acc key tm tos nh clk ent tr].
  unfold generateKeysFromKeyPath, mnemonic_or_random. run_monad.
  destruct (JsString.truthy key); cbn [negb orb]; [|discriminate].
  destruct (validateMnemonic mnemonic); cbn [negb]; [|discriminate].
  destruct (fromMasterSeed (Some mnemonic)) as [root|e]; [|discriminate].
  destruct (derive_loop root pathProfile numberOfDerivedKeys 0 []
              (mkWorld m acc key tm tos nh clk ent tr)) as [[keys'|e] w'] eqn:E;
    cbn [fst snd]; [|discriminate].
  intros [= <-].
  apply derive_loop_count in E. destruct E as (Hl & He & _).
  cbn [length entropy Nat.eqb andb Nat.add] in *.
  repeat apply conj; try reflexivity; try assumption.
  rewrite Hl. destruct numberOfDerivedKeys; cbn [Nat.eqb negb]; lia.
Qed.

End KeyLoop.

(* ================================================================== *)
(** ** Bit operations of the Merkle tree *)
(* ================================================================== *)

Module MerkleFacts.
Import MerkleTreeUtils.

Lemma int32_small (z : Z) : - 2 ^ 31 <= z < 2 ^ 31 -> int32 z = z.
Proof.
  intros H. unfold int32. rewrite Z.mod_small by lia. lia.
Qed.

Lemma int32_range (z : Z) : - 2 ^ 31 <= int32 z < 2 ^ 31.
Proof.
  unfold int32. pose proof (Z.mod_pos_bound (z + 2 ^ 31) (2 ^ 32) ltac:(lia)). lia.
Qed.

Lemma int32_congr (a b q : Z) : a = b + q * 2 ^ 32 -> int32 a = int32 b.
Proof.
  intros ->. unfold int32.
  replace (b + q * 2 ^ 32 + 2 ^ 31) with (b + 2 ^ 31 + q * 2 ^ 32) by ring.
  now rewrite Z_mod_plus_full.
Qed.

Lemma int32_decomp (z : Z) : exists q, int32 z = z + q * 2 ^ 32.
Proof.
  exists (- ((z + 2 ^ 31) / 2 ^ 32)). unfold int32.
  rewrite Z.mod_eq by lia. ring.
Qed.

Lemma shift_mask_pow (pos : nat) :
  forall mask, int32 (shift_mask mask pos) = int32 (mask * 2 ^ Z.of_nat pos).
Proof.
  induction pos as [|pos IH]; intros mask.
  - cbn [shift_mask]. now rewrite Z.mul_1_r.
  - cbn [shift_mask]. rewrite IH.
    destruct (int32_decomp mask) as [q Hq].
    destruct (int32_decomp (Z.shiftl (int32 mask) 1)) as [q' Hq'].
    rewrite Hq'. rewrite Z.shiftl_mul_pow2 by lia. rewrite Hq.
    apply (int32_congr _ _ (q * 2 * 2 ^ Z.of_nat pos + q' * 2 ^ Z.of_nat pos)).
    rewrite Nat2Z.inj_succ, Z.pow_succ_r by lia. ring.
Qed.

Lemma mask_small (pos : nat) :
  (pos <= 30)%nat -> int32 (shift_mask 1 pos) = 2 ^ Z.of_nat pos.
Proof.
  intros H. rewrite shift_mask_pow, Z.mul_1_l. apply int32_small.
  split.
  - pose proof (Z.pow_nonneg 2 (Z.of_nat pos) ltac:(lia)). lia.
  - apply Z.pow_lt_mono_r; lia.
Qed.

Lemma mask_sign : int32 (shift_mask 1 31) = - 2 ^ 31.
Proof. reflexivity. Qed.

Lemma mask_beyond (pos : nat) : (32 <= pos)%nat -> int32 (shift_mask 1 pos) = 0.
Proof.
  intros H. rewrite shift_mask_pow, Z.mul_1_l.
  replace (Z.of_nat pos) with (Z.of_nat (pos - 32) + 32) by lia.
  rewrite Z.pow_add_r by lia.
  rewrite (int32_congr _ 0 (2 ^ Z.of_nat (pos - 32))) by ring.
  reflexivity.
Qed.

Lemma byte_bits_high (byte n : Z) : 0 <= byte <= 255 -> 8 <= n -> Z.testbit byte n = false.
Proof.
  intros Hb Hn. destruct (Z.eq_dec byte 0) as [->|Hne]; [apply Z.bits_0|].
  apply Z.bits_above_log2; [lia|].
  assert (Z.log2 byte < 8); [|lia].
  apply Z.log2_lt_pow2; lia.
Qed.

Lemma setBit_testbit (byte : Z) (pos : nat) (n : Z) :
  0 <= byte <= 255 -> (pos < 8)%nat -> 0 <= n ->
  Z.testbit (setBit byte pos) n = Z.eqb n (Z.of_nat pos) || Z.testbit byte n.
Proof.
  intros Hb Hp Hn. unfold setBit.
  rewrite int32_small by lia. rewrite mask_small by lia.
  rewrite Z.lor_spec, Z.pow2_bits_eqb by lia.
  rewrite (Z.eqb_sym (Z.of_nat pos) n). apply orb_comm.
Qed.

Lemma setBit_range (byte : Z) (pos : nat) :
  0 <= byte <= 255 -> (pos < 8)%nat -> 0 <= setBit byte pos <= 255.
Proof.
  intros Hb Hp.
  assert (Hnn : 0 <= setBit byte pos).
  { unfold setBit. rewrite int32_small by lia. rewrite mask_small by lia.
    apply Z.lor_nonneg. split; [lia|]. apply Z.pow_nonneg. lia. }
  split; [exact Hnn|].
  destruct (Z.eq_dec (setBit byte pos) 0) as [E|Hne]; [lia|].
  assert (Z.log2 (setBit byte pos) < 8).
  { destruct (Z.lt_ge_cases (Z.log2 (setBit byte pos)) 8) as [Hlt|Hge]; [exact Hlt|].
    exfalso.
    pose proof (Z.bit_log2 (setBit byte pos) ltac:(lia)) as Hbit.
    rewrite setBit_testbit in Hbit by lia.
    rewrite (byte_bits_high byte _ Hb Hge) in Hbit.
    rewrite orb_false_r in Hbit. apply Z.eqb_eq in Hbit. lia. }
  assert (setBit byte pos < 2 ^ 8); [|lia].
  apply Z.log2_lt_pow2; lia.
Qed.

(** X22: [setBit(byte, pos)] on a byte and a position below 8 gives a byte
    again, in which bit [pos] is set and every other bit is the one of
    [byte]. *)
Theorem setBit_sets_one_bit (byte : Z) (pos : nat) :
  0 <= byte <= 255 -> (pos < 8)%nat ->
  0 <= setBit byte pos <= 255
  /\ forall n, 0 <= n ->
       Z.testbit (setBit byte pos) n = Z.eqb n (Z.of_nat pos) || Z.testbit byte n.
Proof.
  intros Hb Hp. split.
  - now apply setBit_range.
  - intros n Hn. now apply setBit_testbit.
Qed.

Lemma land_pow2 (a p : Z) :
  0 <= p -> Z.land a (2 ^ p) = if Z.testbit a p then 2 ^ p else 0.
Proof.
  intros Hp. apply Z.bits_inj'. intros n Hn.
  rewrite Z.land_spec, Z.pow2_bits_eqb by lia.
  destruct (Z.eqb_spec p n) as [->|Hne].
  - destruct (Z.testbit a n) eqn:E; cbn.
    + now rewrite Z.pow2_bits_true.
    + now rewrite Z.bits_0.
  - rewrite andb_false_r.
    destruct (Z.testbit a p).
    + now rewrite Z.pow2_bits_false.
    + now rewrite Z.bits_0.
Qed.

(** X23: [getBit(byte, pos)] on a byte and a position below 8 is the masked
    value: 2^pos when bit [pos] of [byte] is set, 0 when it is not; so it is
    2^pos after [setBit(byte, pos)]. *)
Theorem getBit_masks (byte : Z) (pos : nat) :
  0 <= byte <= 255 -> (pos < 8)%nat ->
  getBit byte pos = (if Z.testbit byte (Z.of_nat pos) then 2 ^ Z.of_nat pos else 0)
  /\ getBit (setBit byte pos) pos = 2 ^ Z.of_nat pos.
Proof.
  intros Hb Hp.
  assert (Hget : forall b, 0 <= b <= 255 ->
            getBit b pos = if Z.testbit b (Z.of_nat pos) then 2 ^ Z.of_nat pos else 0).
  { intros b Hb'. unfold getBit. rewrite int32_small by lia. rewrite mask_small by lia.
    apply land_pow2. lia. }
  split; [exact (Hget byte Hb)|].
  rewrite (Hget _ (setBit_range byte pos Hb Hp)), setBit_testbit by lia.
  now rewrite Z.eqb_refl.
Qed.

(** X24: the mask is a 32-bit integer.  From position 32 on it is 0:
    [setBit] returns its argument as a 32-bit integer and [getBit] returns
    0.  At position 31 it is the sign bit, and [setBit] returns a negative
    number. *)
Theorem bit_positions_beyond_the_word (byte : Z) (pos : nat) :
  (32 <= pos)%nat ->
  setBit byte pos = int32 byte /\ getBit byte pos = 0 /\ setBit byte 31 < 0.
Proof.
  intros H. unfold setBit, getBit. rewrite (mask_beyond pos H), mask_sign.
  rewrite Z.lor_0_r, Z.land_0_r. repeat apply conj; try reflexivity.
  apply Z.lor_neg. right. lia.
Qed.

(** *** hashToPosition *)

Lemma array_set_end (v : Z) (a : list (option Z)) :
  array_set (length a) v a = (a ++ [Some v])%list.
Proof.
  unfold array_set. rewrite Nat.ltb_irrefl, Nat.sub_diag. reflexivity.
Qed.

Lemma bits_loop_run (tmp : option byte) (i todo : nat) :
  forall j positionClaim,
    length positionClaim = (j + 8 * i)%nat ->
    bits_loop tmp i todo j positionClaim
    = (positionClaim ++ map (fun j => Some (bit_of tmp j)) (seq j todo))%list.
Proof.
  induction todo as [|todo IH]; intros j pc Hlen.
  - cbn. now rewrite app_nil_r.
  - cbn [bits_loop seq map]. rewrite <- Hlen, array_set_end.
    rewrite IH by (rewrite length_app; cbn; lia).
    now rewrite <- app_assoc.
Qed.

Lemma bytes_loop_run (array : Buffer.t) (todo : nat) :
  forall i positionClaim,
    length positionClaim = (8 * i)%nat ->
    bytes_loop array todo i positionClaim
    = (positionClaim
       ++ flat_map (fun i => map (fun j => Some (bit_of (at_index array
                                    (Z.of_nat (length array) - 1 - Z.of_nat i)) j))
                                 (seq 0 8))
                   (seq i todo))%list.
Proof.
  induction todo as [|todo IH]; intros i pc Hlen.
  - cbn. now rewrite app_nil_r.
  - cbn [bytes_loop seq flat_map].
    rewrite bits_loop_run by (cbn [Nat.add]; exact Hlen).
    rewrite IH by (rewrite length_app, length_map, length_seq; lia).
    now rewrite <- app_assoc.
Qed.

Lemma length_blocks {A} (f : nat -> list A) (n : nat) :
  (forall i, length (f i) = 8%nat) ->
  forall s, length (flat_map f (seq s n)) = (8 * n)%nat.
Proof.
  intros Hf. induction n as [|n IH]; intros s.
  - reflexivity.
  - cbn [seq flat_map]. rewrite length_app, Hf, IH. lia.
Qed.

Lemma nth_error_blocks {A} (f : nat -> list A) (n : nat) :
  (forall i, length (f i) = 8%nat) ->
  forall s k, (k < 8 * n)%nat ->
    nth_error (flat_map f (seq s n)) k = nth_error (f (s + k / 8)%nat) (k mod 8).
Proof.
  intros Hf. induction n as [|n IH]; intros s k Hk.
  - lia.
  - cbn [seq flat_map].
    destruct (Nat.lt_ge_cases k 8) as [Hlt|Hge].
    + rewrite nth_error_app1 by (rewrite Hf; exact Hlt).
      rewrite Nat.div_small, Nat.mod_small by exact Hlt.
      now rewrite Nat.add_0_r.
    + rewrite nth_error_app2 by (rewrite Hf; exact Hge).
      rewrite Hf, IH by lia.
      replace k with ((k - 8) + 1 * 8)%nat at 3 4 by lia.
      rewrite Nat.div_add, Nat.Div0.mod_add by lia.
      f_equal. f_equal. lia.
Qed.

Lemma ceil_div8_spec (x : Z) :
  0 <= x -> 8 * ceil_div8 x = if Z.eqb (x mod 8) 0 then x else x + 8 - x mod 8.
Proof.
  intros Hx. unfold ceil_div8.
  destruct (Z.eqb_spec (x mod 8) 0) as [E|E].
  - pose proof (Z.div_mod x 8 ltac:(lia)) as Hd.
    replace (- x) with ((- (x / 8)) * 8) by lia.
    rewrite Z.div_mul by lia. lia.
  - pose proof (Z.div_mod x 8 ltac:(lia)) as Hd.
    pose proof (Z.mod_pos_bound x 8 ltac:(lia)) as Hm.
    assert (Hq : (- x) / 8 = - (x / 8) - 1).
    { symmetry. apply (Z.div_unique (- x) 8 (- (x / 8) - 1) (8 - x mod 8)); lia. }
    rewrite Hq. lia.
Qed.

Lemma at_index_rev (array : Buffer.t) (i : nat) :
  at_index array (Z.of_nat (length array) - 1 - Z.of_nat i) = nth_error (rev array) i.
Proof.
  unfold at_index.
  destruct (Nat.lt_ge_cases i (length array)) as [Hlt|Hge].
  - destruct (Z.ltb_spec (Z.of_nat (length array) - 1 - Z.of_nat i) 0) as [H|H]; [lia|].
    replace (Z.to_nat (Z.of_nat (length array) - 1 - Z.of_nat i))
      with (length array - S i)%nat by lia.
    rewrite nth_error_rev.
    destruct (Nat.ltb_spec i (length array)) as [H'|H']; [reflexivity|lia].
  - destruct (Z.ltb_spec (Z.of_nat (length array) - 1 - Z.of_nat i) 0) as [H|H]; [|lia].
    symmetry. apply nth_error_None. now rewrite length_rev.
Qed.

Lemma bit_of_byte (b : byte) (j : nat) :
  bit_of (Some b) j = Z.b2z (Z.testbit (Buffer.Z_of_byte b) (Z.of_nat j)).
Proof.
  unfold bit_of.
  assert (Hr : 0 <= Buffer.Z_of_byte b <= 255).
  { unfold Buffer.Z_of_byte. pose proof (Byte.to_N_bounded b). lia. }
  rewrite int32_small by lia.
  change 1 with (Z.ones 1). rewrite Z.land_ones by lia.
  change (2 ^ 1) with 2. rewrite <- Z.bit0_mod.
  rewrite Z.shiftr_spec by lia. reflexivity.
Qed.

Lemma bit_of_undefined (j : nat) : bit_of None j = 0.
Proof.
  unfold bit_of. rewrite (int32_small 0) by lia. now rewrite Z.shiftr_0_l.
Qed.

Lemma hashToPosition_unfold (array : Buffer.t) (length : nat) :
  hashToPosition array length
  = firstn length
      (flat_map (fun i => map (fun j => Some (bit_of (at_index array
                                  (Z.of_nat (List.length array) - 1 - Z.of_nat i)) j))
                              (seq 0 8))
                (seq 0 (Z.to_nat (ceil_div8 (Z.of_nat length - 1))))).
Proof.
  unfold hashToPosition. cbv zeta. now rewrite bytes_loop_run by reflexivity.
Qed.

Lemma numBytes_spec (length : nat) :
  (8 * Z.to_nat (ceil_div8 (Z.of_nat length - 1)))%nat
  = if Nat.eqb (length mod 8) 1 then (length - 1)%nat
    else if Nat.eqb (length mod 8) 0 then length
    else (length + 8 - length mod 8)%nat.
Proof.
  destruct length as [|n]; [reflexivity|].
  replace (Z.of_nat (S n) - 1) with (Z.of_nat n) by lia.
  pose proof (ceil_div8_spec (Z.of_nat n) ltac:(lia)) as Hc.
  assert (Hn : Z.of_nat n mod 8 = Z.of_nat (n mod 8)).
  { now rewrite Nat2Z.inj_mod. }
  rewrite Hn in Hc.
  pose proof (Nat.mod_upper_bound n 8 ltac:(lia)) as Hb.
  assert (HS : (S n mod 8 = if Nat.eqb (n mod 8) 7 then 0 else S (n mod 8))%nat).
  { pose proof (Nat.div_mod_eq n 8) as Hd.
    destruct (Nat.eqb_spec (n mod 8) 7) as [E|E].
    - symmetry. apply (Nat.mod_unique (S n) 8 (S (n / 8)) 0); lia.
    - symmetry. apply (Nat.mod_unique (S n) 8 (n / 8) (S (n mod 8))); lia. }
  rewrite HS. revert Hc.
  destruct (Z.eqb_spec (Z.of_nat (n mod 8)) 0) as [E0|E0]; intros Hc.
  - assert (E0' : (n mod 8 = 0)%nat) by lia. rewrite E0'. cbn [Nat.eqb]. lia.
  - destruct (Nat.eqb_spec (n mod 8) 7) as [E|E].
    + rewrite E in *. cbn [Nat.eqb]. lia.
    + destruct (Nat.eqb_spec (S (n mod 8)) 1) as [E1|E1]; [lia|].
      destruct (Nat.eqb_spec (S (n mod 8)) 0) as [E2|E2]; [lia|]. lia.
Qed.

(** X25: [hashToPosition(array, length)] returns [length] elements, except
    when [length] is 1 modulo 8, where it returns [length - 1] of them: the
    loop then fills the bits of ([length] - 1) / 8 bytes only. *)
Theorem hashToPosition_length (array : Buffer.t) (length : nat) :
  List.length (hashToPosition array length)
  = if Nat.eqb (length mod 8) 1 then (length - 1)%nat else length.
Proof.
  rewrite hashToPosition_unfold, length_firstn.
  rewrite length_blocks by (intros i; now rewrite length_map, length_seq).
  rewrite numBytes_spec.
  pose proof (Nat.mod_upper_bound length 8 ltac:(lia)) as Hb.
  destruct (Nat.eqb_spec (length mod 8) 1) as [E|E]; [lia|].
  destruct (Nat.eqb_spec (length mod 8) 0) as [E0|E0]; lia.
Qed.

(** X26: element [k] of [hashToPosition(array, length)] is bit [k mod 8] of
    the byte [k / 8] places before the end of [array], and 0 where [array]
    has no such byte; no element is a hole. *)
Theorem hashToPosition_bits (array : Buffer.t) (length k : nat) :
  (k < List.length (hashToPosition array length))%nat ->
  nth_error (hashToPosition array length) k
  = Some (Some (match nth_error (rev array) (k / 8) with
                | Some b => Z.b2z (Z.testbit (Buffer.Z_of_byte b) (Z.of_nat (k mod 8)))
                | None => 0
                end)).
Proof.
  rewrite hashToPosition_unfold, length_firstn.
  rewrite length_blocks by (intros i; now rewrite length_map, length_seq).
  intros Hk.
  rewrite nth_error_firstn.
  destruct (Nat.ltb_spec k length) as [_|H]; [|lia].
  rewrite nth_error_blocks
    by (try (intros i; now rewrite length_map, length_seq); lia).
  pose proof (Nat.mod_upper_bound k 8 ltac:(lia)) as Hm.
  rewrite nth_error_map, nth_error_seq.
  destruct (Nat.ltb_spec (k mod 8) 8) as [_|H]; [|lia].
  cbn [option_map Nat.add]. rewrite at_index_rev.
  destruct (nth_error (rev array) (k / 8)) as [b|].
  - now rewrite bit_of_byte.
  - now rewrite bit_of_undefined.
Qed.

End MerkleFacts.

(* ================================================================== *)
(** ** The encoding of node values *)
(* ================================================================== *)

Module NodeValueFacts.
Import MerkleTreeUtils.

Lemma Z_of_byte_range (b : byte) : 0 <= Buffer.Z_of_byte b <= 255.
Proof.
  unfold Buffer.Z_of_byte. pose proof (Byte.to_N_bounded b). lia.
Qed.

Lemma byte_of_Z_low (z : Z) (b : byte) :
  z mod 256 = Buffer.Z_of_byte b -> Buffer.byte_of_Z z = b.
Proof.
  intros H. unfold Buffer.byte_of_Z.
  change 255 with (Z.ones 8). rewrite Z.land_ones by lia.
  change (2 ^ 8) with 256. rewrite H. unfold Buffer.Z_of_byte.
  rewrite N2Z.id, Byte.of_to_N. reflexivity.
Qed.

Lemma byte_of_Z_of_byte (b : byte) : Buffer.byte_of_Z (Buffer.Z_of_byte b) = b.
Proof.
  apply byte_of_Z_low. apply Z.mod_small. pose proof (Z_of_byte_range b). lia.
Qed.

Lemma read_le32 (c : Z) (rest : Buffer.t) :
  0 <= c <= Buffer.UINT32_MAX ->
  readUInt32LE 0 (le32 c ++ rest)%list = Some c.
Proof.
  intros H. unfold Buffer.UINT32_MAX in H. unfold readUInt32LE, le32.
  cbn [skipn app]. rewrite !BufferFacts.Z_of_byte_of_Z.
  rewrite !Z.shiftr_div_pow2 by lia. f_equal.
  change (2 ^ 8) with 256. change (2 ^ 16) with 65536. change (2 ^ 24) with 16777216.
  Z.div_mod_to_equations. lia.
Qed.

Lemma le32_read (b0 b1 b2 b3 : byte) :
  le32 (Buffer.Z_of_byte b0 + Buffer.Z_of_byte b1 * 2 ^ 8
        + Buffer.Z_of_byte b2 * 2 ^ 16 + Buffer.Z_of_byte b3 * 2 ^ 24)
  = [b0; b1; b2; b3].
Proof.
  pose proof (Z_of_byte_range b0). pose proof (Z_of_byte_range b1).
  pose proof (Z_of_byte_range b2). pose proof (Z_of_byte_range b3).
  unfold le32. rewrite !Z.shiftr_div_pow2 by lia.
  change (2 ^ 8) with 256. change (2 ^ 16) with 65536. change (2 ^ 24) with 16777216.
  repeat f_equal; apply byte_of_Z_low; Z.div_mod_to_equations; lia.
Qed.

Lemma slice_to_end (n m : nat) (buf : Buffer.t) :
  (length buf <= m)%nat -> slice n m buf = skipn n buf.
Proof.
  intros H. unfold slice. apply firstn_all2. rewrite length_skipn. lia.
Qed.

(** X27: a leaf value written by [nodeValueToBuffer] is read back by
    [bufferToNodeValue] with the same data and index length, when the flag
    is a number from 1 to 255 (or [true]) and the index length fits in 32
    bits; the flag comes back as a number. *)
Theorem leaf_roundtrip (f : flagValue) (d : Buffer.t) (indexLength : Z) :
  1 <= number_of_flag f <= 255 ->
  0 <= indexLength <= Buffer.UINT32_MAX ->
  exists buf,
    nodeValueToBuffer (addFlagNode (LeafData d indexLength) f) = Ret buf
    /\ length buf = (5 + length d)%nat
    /\ bufferToNodeValue buf
       = Ret (mkNodeValue (FlagNumber (number_of_flag f)) (LeafData d indexLength)).
Proof.
  intros Hf Hi.
  exists (Buffer.byte_of_Z (number_of_flag f) :: le32 indexLength ++ d)%list.
  assert (Hb : Buffer.Z_of_byte (Buffer.byte_of_Z (number_of_flag f)) = number_of_flag f).
  { rewrite BufferFacts.Z_of_byte_of_Z. apply Z.mod_small. lia. }
  assert (Hnz : Z.eqb (number_of_flag f) 0 = false) by (apply Z.eqb_neq; lia).
  split; [|split].
  - unfold nodeValueToBuffer, addFlagNode, writeUInt8, writeUInt32LE. cbn [flag data].
    destruct (Z.leb_spec 0 (number_of_flag f)); [|lia].
    destruct (Z.leb_spec (number_of_flag f) 255); [|lia].
    cbn [andb readUInt8]. rewrite Hb, Hnz. cbn [negb].
    destruct (Z.leb_spec 0 indexLength); [|lia].
    destruct (Z.leb_spec indexLength Buffer.UINT32_MAX); [|lia].
    reflexivity.
  - cbn [length app le32]. lia.
  - unfold bufferToNodeValue. cbn [readUInt8]. rewrite Hb, Hnz. cbn [negb].
    change (readUInt32LE 1 (Buffer.byte_of_Z (number_of_flag f) :: le32 indexLength ++ d)%list)
      with (readUInt32LE 0 (le32 indexLength ++ d)%list).
    rewrite read_le32 by exact Hi.
    rewrite slice_to_end by (cbn [length]; lia). reflexivity.
Qed.

(** X28: an inner value written by [nodeValueToBuffer] is read back by
    [bufferToNodeValue] split after its first 32 bytes, whatever the sizes
    of the two parts were; the two parts come back as they were when the
    first one has 32 bytes. *)
Theorem pair_roundtrip (f : flagValue) (l r : Buffer.t) :
  number_of_flag f = 0 ->
  exists buf,
    nodeValueToBuffer (addFlagNode (PairData l r) f) = Ret buf
    /\ bufferToNodeValue buf
       = Ret (mkNodeValue (FlagNumber 0)
                (PairData (firstn 32 (l ++ r)) (skipn 32 (l ++ r))))
    /\ (length l = 32%nat ->
        bufferToNodeValue buf = Ret (mkNodeValue (FlagNumber 0) (PairData l r))).
Proof.
  intros Hf.
  exists (x00 :: l ++ r)%list.
  assert (Hdec : bufferToNodeValue (x00 :: l ++ r)%list
                 = Ret (mkNodeValue (FlagNumber 0)
                          (PairData (firstn 32 (l ++ r)) (skipn 32 (l ++ r))))).
  { unfold bufferToNodeValue. cbn [readUInt8].
    change (Buffer.Z_of_byte x00) with 0. cbn [Z.eqb negb].
    rewrite (slice_to_end 33) by (cbn [length]; lia). reflexivity. }
  split; [|split].
  - unfold nodeValueToBuffer, addFlagNode. cbn [flag data]. rewrite Hf. reflexivity.
  - exact Hdec.
  - intros Hl. rewrite Hdec.
    rewrite firstn_app, skipn_app, Hl, Nat.sub_diag.
    rewrite firstn_all2, skipn_all2 by lia.
    cbn [firstn skipn]. now rewrite app_nil_r.
Qed.

(** X29: whatever [bufferToNodeValue] reads from a buffer is written back by
    [nodeValueToBuffer] as that buffer. *)
Theorem decode_then_encode (buf : Buffer.t) (v : nodeValue) :
  bufferToNodeValue buf = Ret v -> nodeValueToBuffer v = Ret buf.
Proof.
  unfold bufferToNodeValue.
  destruct buf as [|b rest]; cbn [readUInt8]; [discriminate|].
  pose proof (Z_of_byte_range b) as Hb.
  destruct (Z.eqb_spec (Buffer.Z_of_byte b) 0) as [E|E]; cbn [negb].
  - intros [= <-].
    unfold nodeValueToBuffer, writeUInt8. cbn [flag data number_of_flag].
    rewrite E. cbn [Z.leb andb readUInt8 Z.compare].
    change (Buffer.Z_of_byte (Buffer.byte_of_Z 0)) with 0. cbn [Z.eqb negb].
    rewrite (slice_to_end 33) by (cbn [length]; lia). unfold slice. cbn [skipn Nat.sub].
    rewrite firstn_skipn.
    rewrite <- E, byte_of_Z_of_byte. reflexivity.
  - change (readUInt32LE 1 (b :: rest)) with (readUInt32LE 0 rest).
    unfold readUInt32LE. cbn [skipn].
    destruct rest as [|b0 [|b1 [|b2 [|b3 rest]]]]; try discriminate.
    intros [= <-].
    unfold nodeValueToBuffer, writeUInt8, writeUInt32LE. cbn [flag data number_of_flag].
    destruct (Z.leb_spec 0 (Buffer.Z_of_byte b)); [|lia].
    destruct (Z.leb_spec (Buffer.Z_of_byte b) 255); [|lia].
    cbn [andb readUInt8]. rewrite byte_of_Z_of_byte.
    destruct (Z.eqb_spec (Buffer.Z_of_byte b) 0) as [E'|_]; [contradiction|]. cbn [negb].
    pose proof (Z_of_byte_range b0). pose proof (Z_of_byte_range b1).
    pose proof (Z_of_byte_range b2). pose proof (Z_of_byte_range b3).
    match goal with
    | |- context [(0 <=? ?c) && (?c <=? Buffer.UINT32_MAX)] =>
        destruct (Z.leb_spec 0 c); [|lia];
        destruct (Z.leb_spec c Buffer.UINT32_MAX); [|unfold Buffer.UINT32_MAX in *; lia]
    end.
    cbn [andb]. rewrite le32_read, slice_to_end by (cbn [length]; lia). reflexivity.
Qed.

(** X30: [bufferToNodeValue] throws, a RangeError, on the empty buffer and
    on a buffer of fewer than five bytes whose first byte is not 0, and on
    no other buffer: an inner value shorter than 33 bytes is read without an
    error. *)
Theorem bufferToNodeValue_failure (buf : Buffer.t) :
  (forall e, bufferToNodeValue buf = Throw e -> e = RangeError)
  /\ (bufferToNodeValue buf = Throw RangeError
      <-> buf = [] \/ (readUInt8 buf <> Some 0 /\ (length buf < 5)%nat)).
Proof.
  unfold bufferToNodeValue.
  destruct buf as [|b rest]; cbn [readUInt8].
  - split; [now intros e [= <-]|]. split; [now left|reflexivity].
  - destruct (Z.eqb_spec (Buffer.Z_of_byte b) 0) as [E|E]; cbn [negb].
    + split; [discriminate|]. split; [discriminate|].
      intros [H|[H _]]; [discriminate|]. rewrite E in H. contradiction.
    + change (readUInt32LE 1 (b :: rest)) with (readUInt32LE 0 rest).
      unfold readUInt32LE. cbn [skipn].
      destruct rest as [|b0 [|b1 [|b2 [|b3 rest]]]].
      1-4: (split; [now intros e [= <-]|];
            split; [intros _; right; split;
                    [intros [= H]; contradiction|cbn [length]; lia]
                   |reflexivity]).
      split; [discriminate|]. split; [discriminate|].
      intros [H|[_ H]]; [discriminate|]. cbn [length] in H. lia.
Qed.

End NodeValueFacts.

(* ================================================================== *)
(** ** More runs on the example stores *)
(* ================================================================== *)

Module MoreRuns.
Import Example ExampleFacts Example2 LocalStorageContainer MerkleTreeUtils.

Lemma setBit_run :
  setBit 5 1 = 7 /\ 0 <= setBit 5 1 <= 255.
Proof.
  split; [reflexivity|].
  exact (proj1 (MerkleFacts.setBit_sets_one_bit 5 1 ltac:(lia) ltac:(lia))).
Defined.

Lemma getBit_run :
  getBit 5 2 = 4 /\ getBit (setBit 5 1) 1 = 2 ^ Z.of_nat 1.
Proof.
  split; [reflexivity|].
  exact (proj2 (MerkleFacts.getBit_masks 5 1 ltac:(lia) ltac:(lia))).
Defined.

Lemma wide_position_run :
  setBit 5 32 = int32 5 /\ getBit 5 32 = 0 /\ setBit 5 31 < 0.
Proof.
  exact (MerkleFacts.bit_positions_beyond_the_word 5 32 ltac:(lia)).
Defined.

Lemma hashToPosition_run :
  hashToPosition [x05; xf0] 12
  = map Some [0; 0; 0; 0; 1; 1; 1; 1; 1; 0; 1; 0]
  /\ nth_error (hashToPosition [x05; xf0] 12) 8
     = Some (Some (match nth_error (rev [x05; xf0]) (8 / 8) with
                   | Some b => Z.b2z (Z.testbit (Buffer.Z_of_byte b) (Z.of_nat (8 mod 8)))
                   | None => 0
                   end)).
Proof.
  split; [reflexivity|].
  exact (MerkleFacts.hashToPosition_bits [x05; xf0] 12 8 ltac:(vm_compute; lia)).
Defined.

Lemma leaf_run :
  exists buf,
    nodeValueToBuffer (addFlagNode (LeafData [x0a; x0b] 258) (FlagBool true)) = Ret buf
    /\ length buf = (5 + length [x0a; x0b])%nat
    /\ bufferToNodeValue buf = Ret (mkNodeValue (FlagNumber 1) (LeafData [x0a; x0b] 258)).
Proof.
  exact (NodeValueFacts.leaf_roundtrip (FlagBool true) [x0a; x0b] 258
           ltac:(cbn; lia) ltac:(unfold Buffer.UINT32_MAX; lia)).
Defined.

Lemma pair_run :
  exists buf,
    nodeValueToBuffer (addFlagNode (PairData (repeat x01 32) [x02; x03]) (FlagBool false))
    = Ret buf
    /\ bufferToNodeValue buf
       = Ret (mkNodeValue (FlagNumber 0) (PairData (repeat x01 32) [x02; x03])).
Proof.
  destruct (NodeValueFacts.pair_roundtrip (FlagBool false) (repeat x01 32) [x02; x03] eq_refl)
    as (buf & H1 & _ & H3).
  exists buf. split; [exact H1|]. exact (H3 eq_refl).
Defined.

Lemma decode_run :
  bufferToNodeValue [x00; x0a; x0b]
  = Ret (mkNodeValue (FlagNumber 0) (PairData [x0a; x0b] []))
  /\ nodeValueToBuffer (mkNodeValue (FlagNumber 0) (PairData [x0a; x0b] []))
     = Ret [x00; x0a; x0b].
Proof.
  split; [reflexivity|].
  exact (NodeValueFacts.decode_then_encode [x00; x0a; x0b] _ eq_refl).
Defined.

Lemma autolock_run :
  timeouts fresh = []
  /\ isUnlocked (advance 29999 (snd (unlock "pw" fresh))) = true
  /\ isUnlocked (advance 30000 (snd (unlock "pw" fresh))) = false.
Proof.
  split; [reflexivity|]. split.
  - exact (autolock_after_unlock fresh "pw" 29999 eq_refl).
  - exact (autolock_after_unlock fresh "pw" 30000 eq_refl).
Defined.


Lemma masterSeed_run :
  isUnlocked unlocked = true
  /\ fst (generateMasterSeed (Some "words a b c") unlocked) = Ret true
  /\ fst (getMasterSeed None seeded) = Ret (Some "words a b c").
Proof.
  split; [by_run|].
  exact (masterSeed_roundtrip unlocked "words a b c" ltac:(by_run) ltac:(by_run)
           ltac:(left; by_run) ltac:(by_run)).
Defined.

Lemma single_key_run :
  derived_key keySeed0 "m/44'/60'/0'/7/0" = Ret (key_at "m/44'/60'/0'/7/0")
  /\ fst (generateSingleKey 7 0 profiled) = Ret (Some (addressHex (key_at "m/44'/60'/0'/7/0")))
  /\ stored_keySeed (encryptionKey profiled)
                    (localStorage (snd (generateSingleKey 7 0 profiled))) keySeed0 1.
Proof.
  split; [by_run|].
  destruct (generateSingleKey_stores_the_derived_key profiled 7 0 keySeed0 1
              (key_at "m/44'/60'/0'/7/0")
              ltac:(by_run) ltac:(split; by_run) ltac:(by_run) ltac:(by_run))
    as (H1 & _ & H3).
  split; [exact H1 | exact H3].
Defined.

Lemma imported_key_run :
  exists address sig,
    privateToAddress (hexToBytes "0x0102") = Ret address
    /\ fst (importKey "0x0102" profiled) = Ret (Some (bytesToHex address))
    /\ fst (sign (bytesToHex address) "hello" (snd (importKey "0x0102" profiled)))
       = Ret (VSignature (concatSignature (toBuffer "hello")
                                          (hashPersonalMessage (toBuffer "hello"))
                                          (fst (fst sig)) (snd (fst sig)) (snd sig))).
Proof.
  exists (bytes "addr " ++ hexToBytes "0x0102")%list.
  exists (27, hashPersonalMessage (toBuffer "hello"), hexToBytes "0x0102").
  split; [reflexivity|].
  exact (importKey_then_sign profiled "0x0102" "hello" _ _
           ltac:(by_run) eq_refl ltac:(by_run) eq_refl).
Defined.

Lemma random_key_run :
  exists address sig,
    privateToAddress (walletGenerate (entropy profiled)) = Ret address
    /\ fst (generateKeyRand profiled) = Ret (Some (bytesToHex address))
    /\ fst (sign (bytesToHex address) "hello" (snd (generateKeyRand profiled)))
       = Ret (VSignature (concatSignature (toBuffer "hello")
                                          (hashPersonalMessage (toBuffer "hello"))
                                          (fst (fst sig)) (snd (fst sig)) (snd sig))).
Proof.
  exists (bytes "addr " ++ walletGenerate (entropy profiled))%list.
  exists (27, hashPersonalMessage (toBuffer "hello"), walletGenerate (entropy profiled)).
  split; [reflexivity|].
  exact (generateKeyRand_then_sign profiled "hello" _ _
           ltac:(by_run) eq_refl ltac:(by_run) eq_refl).
Defined.

Lemma recovery_roundtrip_run :
  isUnlocked profiled = true
  /\ fst (getRecoveryAddr profiled) = Ret None
  /\ exists address,
       fst (generateRecoveryAddr (Some "words a b c") profiled) = Ret (Some address)
       /\ fst (getRecoveryAddr (snd (generateRecoveryAddr (Some "words a b c") profiled)))
          = Ret (Some address).
Proof.
  split; [by_run|]. split; [by_run|].
  eexists.
  exact (recoveryAddr_roundtrip profiled (Some "words a b c") _ _ _
           ltac:(by_run) ltac:(by_run) eq_refl eq_refl eq_refl ltac:(by_run)).
Defined.

Lemma new_keySeed_run :
  pathCounter profiled = Some 1
  /\ fst (generateKeySeed (Some "words a b c") profiled) = Ret true
  /\ fst (getKeySeed (snd (generateKeySeed (Some "words a b c") profiled)))
     = Ret (Some (entropyToMnemonic (bytes "words a b c/m/44'/60'/0'"), 0)).
Proof.
  split; [by_run|].
  exact (generateKeySeed_then_getKeySeed (C := constants) (P := primitives) profiled
           (Some "words a b c") "words a b c" "words a b c/m/44'/60'/0'"
           ltac:(by_run) ltac:(right; by_run) ltac:(by_run) ltac:(by_run) ltac:(by_run)).
Defined.

Lemma container_cipher_run :
  isUnlocked profiled = true
  /\ exists c,
       fst (LocalStorageContainerRest.encrypt "secret" profiled) = Ret (Some c)
       /\ fst (LocalStorageContainerRest.decrypt c
                 (snd (LocalStorageContainerRest.encrypt "secret" profiled)))
          = Ret (Some "secret").
Proof.
  split; [by_run|].
  destruct (proj2 (container_encrypt_decrypt profiled "secret") ltac:(by_run))
    as (c & H1 & H2 & _).
  exists c. split; [exact H1 | exact H2].
Defined.

Lemma import_patch_run :
  decrypt (encryptionKey profiled) patch_blob = Some (JSON_stringify patch)
  /\ fst (Db.import patch_blob profiled) = Ret tt
  /\ Storage.getItem "theme" (localStorage (snd (Db.import patch_blob profiled))) = Some "light"
  /\ Storage.getItem keySeedLabel (localStorage (snd (Db.import patch_blob profiled)))
     = Storage.getItem keySeedLabel (localStorage profiled).
Proof.
  split; [by_run|].
  destruct (import_writes_entry_by_entry (P := primitives) profiled patch_blob
              (@JSON_stringify primitives patch) patch
              ltac:(by_run) ltac:(by_run) ltac:(by_run)) as (H1 & _ & H3).
  split; [exact H1|]. split; [by_run|].
  apply H3. vm_compute. intros [H|[H|[]]]; discriminate H.
Defined.

Lemma export_shared_run :
  Storage.getItem "theme" (localStorage shared) = Some "dark"
  /\ exists blob,
       fst (Db.export "id" "ksign" shared) = Ret (Some blob)
       /\ localStorage (snd (Db.export "id" "ksign" shared)) = localStorage shared
       /\ forall v, ~ In ("theme", v) (exported_entries (localStorage shared)).
Proof.
  split; [by_run|].
  destruct (export_holds_the_namespace shared "id" "ksign" ltac:(by_run))
    as (blob & H1 & _ & H3 & H4 & _).
  exists blob. split; [exact H1|]. split; [exact H3|].
  intros v Hin. destruct (H4 _ _ Hin) as [_ Hc].
  assert (Hn : JsString.contains "theme" DBPREFIX = false) by by_run.
  rewrite Hn in Hc. discriminate Hc.
Defined.

Lemma profiled_keys_scan :
  forallb (fun k => negb (JsString.contains k (KCPREFIX ++ DBPREFIX)))
          (Storage.keys (localStorage profiled)) = true.
Proof. by_run. Qed.

Lemma profiled_keys_lack_reversed_prefix (k : string) :
  In k (Storage.keys (localStorage profiled)) ->
  JsString.contains k (KCPREFIX ++ DBPREFIX) = false.
Proof.
  intros Hin. apply negb_true_iff.
  exact (proj1 (forallb_forall
                  (fun k => negb (JsString.contains k (KCPREFIX ++ DBPREFIX)))
                  (Storage.keys (localStorage profiled))) profiled_keys_scan k Hin).
Qed.

Lemma listKeys_run_profiled :
  length (Storage.keys (localStorage profiled)) = 6%nat
  /\ fst (LocalStorageContainerRest.listKeys profiled) = Ret [].
Proof.
  split; [by_run|].
  exact (proj1 (container_listKeys_reversed_prefix profiled
                  profiled_keys_lack_reversed_prefix)).
Defined.

Lemma listIdentities_run :
  exists l,
    fst (LocalStorageContainerRest.listIdentities "id-" identified) = Ret l
    /\ In "db-kc-id-0xabc" l.
Proof.
  exact (proj2 (listIdentities_keeps_the_prefixes "id-" identified "db-kc-id-0xabc"
                  (StorageFacts.getItem_in_keys "db-kc-id-0xabc" "{}" (localStorage identified)
                     ltac:(by_run))
                  ltac:(by_run) ltac:(by_run))).
Defined.

Lemma five_keys_run :
  exists keys,
    fst (generateKeysFromKeyPath (Some keySeed0) (Some 9) (Some 5%nat) profiled) = Ret (Some keys)
    /\ length keys = 6%nat.
Proof.
  exists (match fst (generateKeysFromKeyPath (Some keySeed0) (Some 9) (Some 5%nat) profiled) with
          | Ret (Some l) => l
          | _ => []
          end).
  split; [by_run|].
  exact (proj1 (generateKeysFromKeyPath_counts (C := constants) (P := primitives)
                  profiled keySeed0 9 5 _ ltac:(by_run))).
Defined.

Lemma misseeded_run :
  isUnlocked misseeded = true
  /\ fst (createKeys misseeded) = Throw TypeError
  /\ localStorage (snd (createKeys misseeded)) = localStorage misseeded.
Proof.
  split; [by_run|].
  destruct (createKeys_invalid_keySeed misseeded "not a mnemonic" 1
              ltac:(by_run) ltac:(split; by_run) ltac:(by_run)) as (H1 & H2 & _).
  split; [exact H1 | exact H2].
Defined.

Lemma refused_derivation_run :
  @pathCounter constants strict halfway = Some 2147483648
  /\ @derive strict "words a b c" "m/44'/60'/0'/2147483647/0"
     = Ret "words a b c/m/44'/60'/0'/2147483647/0"
  /\ @derive strict keySeed0 "m/44'/60'/0'/2147483648/0" = Throw PrimitiveError
  /\ fst (@createKeys constants strict halfway) = Throw PrimitiveError
  /\ localStorage (snd (@createKeys constants strict halfway)) = localStorage halfway
  /\ @pathCounter constants strict (snd (@createKeys constants strict halfway))
     = Some 2147483648.
Proof.
  split; [by_run|]. split; [by_run|]. split; [by_run|].
  destruct (@createKeys_refused_derivation constants strict halfway keySeed0
              2147483648 keySeed0 PrimitiveError
              ltac:(by_run) ltac:(split; by_run) ltac:(by_run) ltac:(by_run) ltac:(by_run))
    as (H1 & H2 & _ & H4).
  split; [exact H1|]. split; [exact H2 | exact H4].
Defined.

End MoreRuns.
